(** * Telegram Desktop export pipeline: data types and the API wrapper

    A shallow embedding of
      - [export/data/export_data_types.cpp]  (module [Data]) and
      - [export/export_api_wrap.cpp]         (module [ApiWrap]),
    followed by the properties proved about them.

    Conventions.  A C++ integer of width [w] is a [Z] kept in range by
    the conversions of module [Ints] (the wrap-around is written out at
    every place where the source converts).  [QByteArray] / [Utf8String]
    values and the ASCII paths built from them are [string]s; a
    [QString] whose code units matter (file-name cleaning) is a list of
    UTF-16 code units.  [std::map] is a [gmap], [std::deque] and
    [std::vector] are lists. *)

From Stdlib Require Import ZArith Lia Ascii.
From stdpp Require Import gmap list strings pretty.
From Equations Require Import Equations.

(* ===================================================================== *)
(** ** Machine integers *)
(* ===================================================================== *)

Module Ints.
Local Open Scope Z_scope.

Definition to_uint32 (z : Z) : Z := z mod 2^32.
Definition to_uint64 (z : Z) : Z := z mod 2^64.
Definition to_int32 (z : Z) : Z := (z + 2^31) mod 2^32 - 2^31.

Definition is_int32 (z : Z) : Prop := - 2^31 <= z < 2^31.
Definition is_uint64 (z : Z) : Prop := 0 <= z < 2^64.

Definition INT_MAX : Z := 2^31 - 1.

End Ints.

(* ===================================================================== *)
(** ** export/data/export_data_types.cpp *)
(* ===================================================================== *)

Module Data.
Import Ints.
Local Open Scope Z_scope.

(** [using PeerId = uint64] *)
Definition PeerId := Z.

Definition kUserPeerIdShift : Z := Z.shiftl 1 32.
Definition kChatPeerIdShift : Z := Z.shiftl 2 32.

(** [PeerId UserPeerId(int32 userId) { return kUserPeerIdShift | uint32(userId); }]
    The argument is converted to the [int32] parameter and then to
    [uint32]. *)
Definition UserPeerId (userId : Z) : PeerId :=
  Z.lor kUserPeerIdShift (to_uint32 (to_int32 userId)).

Definition ChatPeerId (chatId : Z) : PeerId :=
  Z.lor kChatPeerIdShift (to_uint32 (to_int32 chatId)).

(** [int32 BarePeerId(PeerId peerId) { return int32(peerId & 0xFFFFFFFFULL); }] *)
Definition BarePeerId (peerId : PeerId) : Z :=
  to_int32 (Z.land peerId 4294967295).

(** The wire type [MTPInputFileLocation] with the fields the export
    code reads. *)
Inductive MTPInputFileLocation : Type :=
| MTP_inputFileLocation (volume_id local_id secret : Z)
| MTP_inputDocumentFileLocation (id access_hash version : Z)
| MTP_inputSecureFileLocation (id access_hash : Z)
| MTP_inputEncryptedFileLocation (id access_hash : Z).

(** [struct FileLocation { int dcId = 0; MTPInputFileLocation data; }] *)
Record FileLocation : Type := mkFileLocation {
  dcId : Z;
  data : MTPInputFileLocation
}.

(** Modelled from the spec: [FileLocation::operator bool] is declared
    in export_data_types.h, which is not part of the sources at hand.
    A location is valid when it names a data center; [ParseLocation]
    gives an unavailable location the data center 0 and [loadFile]
    expects [dcId != 0]. *)
Definition FileLocation_valid (l : FileLocation) : bool :=
  negb (dcId l =? 0).

Definition Utf8String := string.
Definition QByteArray := list Byte.byte.
Definition TimeId := Z.

(** *** Strings and numbers *)

Fixpoint repeat_char (n : nat) (filler : ascii) : string :=
  match n with
  | O => EmptyString
  | S n' => String filler (repeat_char n' filler)
  end.

Definition string_size (s : string) : Z := Z.of_nat (String.length s).

(** [Utf8String FillLeft(const Utf8String &data, int length, char filler)] *)
Definition FillLeft (data : Utf8String) (length : Z) (filler : ascii)
    : Utf8String :=
  if decide (length <= string_size data) then data
  else repeat_char (Z.to_nat (length - string_size data)) filler +:+ data.

(** Modelled from the spec: [NumberToString] is a template of
    export_data_types.h, which is not part of the sources at hand.  It
    prints the number in decimal ([std::to_string]) and pads it on the
    left to [length] characters with [FillLeft]; the defaults are
    [length = 0] and [filler = ' ']. *)
Definition NumberToString (value : Z) (length : Z) (filler : ascii)
    : Utf8String :=
  FillLeft (pretty value) length filler.

(** The calendar fields that [FormatDateTime] reads from a [QDateTime]. *)
Record QDateTime : Type := mkQDateTime {
  year : Z; month : Z; day : Z;
  hour : Z; minute : Z; second : Z
}.

(** [QString::arg(int, fieldWidth = 2, base = 10, fillChar = '0')] *)
Definition arg2 (n : Z) : string := FillLeft (pretty n) 2 "0"%char.

(** *** The normalized records

    The structs are declared in export_data_types.h; the fields listed
    here are the ones that the code embedded below reads or writes. *)

Module SkipReason.
Inductive t : Type := None | Unavailable | FileType | FileSize.
End SkipReason.

Record File : Type := mkFile {
  File_size : Z;
  File_content : QByteArray;
  File_location : FileLocation;
  File_suggestedPath : string;
  File_skipReason : SkipReason.t;
  File_relativePath : string
}.

(** A default-constructed [File]. *)
Definition File_default : File :=
  mkFile 0 [] (mkFileLocation 0 (MTP_inputFileLocation 0 0 0))
         "" SkipReason.None "".

Record Image : Type := mkImage {
  Image_width : Z;
  Image_height : Z;
  Image_file : File
}.

Definition Image_default : Image := mkImage 0 0 File_default.

Record Photo : Type := mkPhoto {
  Photo_id : Z;
  Photo_date : TimeId;
  Photo_image : Image
}.

Definition Photo_default : Photo := mkPhoto 0 0 Image_default.

Record Document : Type := mkDocument {
  Document_id : Z;
  Document_date : TimeId;
  Document_file : File;
  Document_name : Utf8String;
  Document_mime : Utf8String;
  Document_isSticker : bool;
  Document_isAnimated : bool;
  Document_isVideoMessage : bool;
  Document_isVoiceMessage : bool;
  Document_isVideoFile : bool;
  Document_isAudioFile : bool
}.

(** The alternatives of [Media::content]; only a photo and a document
    carry a file. *)
Inductive MediaContent : Type :=
| ContentNone
| ContentPhoto (data : Photo)
| ContentDocument (data : Document)
| ContentGeoPoint
| ContentContactInfo
| ContentVenue
| ContentGame
| ContentInvoice
| ContentUnsupported.

Record Media : Type := mkMedia {
  Media_content : MediaContent;
  Media_ttl : TimeId
}.

(** The alternatives of [ServiceAction::content]; only a changed chat
    photo carries a file. *)
Inductive ServiceActionContent : Type :=
| ActionNone
| ActionChatCreate
| ActionChatEditTitle
| ActionChatEditPhoto (photo : Photo)
| ActionChatDeletePhoto
| ActionChatAddUser
| ActionChatDeleteUser
| ActionChatJoinedByLink
| ActionChannelCreate
| ActionChatMigrateTo
| ActionChannelMigrateFrom
| ActionPinMessage
| ActionHistoryClear
| ActionGameScore
| ActionPaymentSent
| ActionPhoneCall
| ActionScreenshotTaken
| ActionCustomAction
| ActionBotAllowed
| ActionSecureValuesSent.

Record Message : Type := mkMessage {
  Message_id : Z;
  Message_date : TimeId;
  Message_fromId : Z;
  Message_text : Utf8String;
  Message_media : Media;
  Message_action : ServiceActionContent
}.

(** The alternatives of [Media::content] without a file.
    [Media::file()] answers them with the generic lambda
    [[](auto&) -> File& { static File result; return result; }], which
    is instantiated once for each of them: every alternative has a
    function-local [static File] of its own, shared by all the media of
    that alternative. *)
Inductive Fileless : Type :=
| FilelessNone
| FilelessGeoPoint
| FilelessContactInfo
| FilelessVenue
| FilelessGame
| FilelessInvoice
| FilelessUnsupported.

#[global] Instance Fileless_eq_dec : EqDecision Fileless.
Proof. solve_decision. Defined.

(** The static files of [Media::file()], one per alternative; each is
    a default-constructed [File] until something is written through the
    reference. *)
Definition StaticFiles : Type := Fileless -> File.

Definition StaticFiles_default : StaticFiles := fun _ => File_default.

Definition StaticFiles_set (static_files : StaticFiles) (slot : Fileless)
    (f : File) : StaticFiles :=
  fun other => if decide (other = slot) then f else static_files other.

(** [File &Media::file()]; the caller passes the static files in. *)
Definition Media_file (static_files : StaticFiles) (m : Media) : File :=
  match Media_content m with
  | ContentPhoto data => Image_file (Photo_image data)
  | ContentDocument data => Document_file data
  | ContentNone => static_files FilelessNone
  | ContentGeoPoint => static_files FilelessGeoPoint
  | ContentContactInfo => static_files FilelessContactInfo
  | ContentVenue => static_files FilelessVenue
  | ContentGame => static_files FilelessGame
  | ContentInvoice => static_files FilelessInvoice
  | ContentUnsupported => static_files FilelessUnsupported
  end.

(** [File &Message::file()] *)
Definition Message_file (static_files : StaticFiles) (m : Message) : File :=
  match Message_action m with
  | ActionChatEditPhoto photo => Image_file (Photo_image photo)
  | _ => Media_file static_files (Message_media m)
  end.

Definition Image_set_file (i : Image) (f : File) : Image :=
  mkImage (Image_width i) (Image_height i) f.

Definition Photo_set_file (p : Photo) (f : File) : Photo :=
  mkPhoto (Photo_id p) (Photo_date p) (Image_set_file (Photo_image p) f).

Definition Document_set_file (d : Document) (f : File) : Document :=
  mkDocument (Document_id d) (Document_date d) f
    (Document_name d) (Document_mime d)
    (Document_isSticker d) (Document_isAnimated d)
    (Document_isVideoMessage d) (Document_isVoiceMessage d)
    (Document_isVideoFile d) (Document_isAudioFile d).

(** Writing through the reference that [Message::file()] returned: the
    new value lands in the message, or in the static file of the
    alternative its media holds. *)
Definition Message_set_file (static_files : StaticFiles) (m : Message)
    (f : File) : StaticFiles * Message :=
  let with_media c :=
    mkMessage (Message_id m) (Message_date m) (Message_fromId m)
      (Message_text m) (mkMedia c (Media_ttl (Message_media m)))
      (Message_action m) in
  let static slot := (StaticFiles_set static_files slot f, m) in
  match Message_action m with
  | ActionChatEditPhoto photo =>
      (static_files,
       mkMessage (Message_id m) (Message_date m) (Message_fromId m)
         (Message_text m) (Message_media m)
         (ActionChatEditPhoto (Photo_set_file photo f)))
  | _ =>
      match Media_content (Message_media m) with
      | ContentPhoto data =>
          (static_files, with_media (ContentPhoto (Photo_set_file data f)))
      | ContentDocument data =>
          (static_files,
           with_media (ContentDocument (Document_set_file data f)))
      | ContentNone => static FilelessNone
      | ContentGeoPoint => static FilelessGeoPoint
      | ContentContactInfo => static FilelessContactInfo
      | ContentVenue => static FilelessVenue
      | ContentGame => static FilelessGame
      | ContentInvoice => static FilelessInvoice
      | ContentUnsupported => static FilelessUnsupported
      end
  end.

Record UserpicsInfo : Type := mkUserpicsInfo { UserpicsInfo_count : Z }.

Record UserpicsSlice : Type := mkUserpicsSlice {
  UserpicsSlice_list : list Photo
}.

Inductive MTPInputPeer : Type :=
| MTP_inputPeerEmpty
| MTP_inputPeerUser (user_id access_hash : Z)
| MTP_inputPeerChat (chat_id : Z)
| MTP_inputPeerChannel (channel_id access_hash : Z).

Module DialogType.
Inductive t : Type :=
| Unknown | Personal | Bot | PrivateGroup | PublicGroup
| PrivateChannel | PublicChannel.
End DialogType.

Record DialogInfo : Type := mkDialogInfo {
  DialogInfo_type : DialogType.t;
  DialogInfo_name : Utf8String;
  DialogInfo_input : MTPInputPeer;
  DialogInfo_topMessageId : Z;
  DialogInfo_topMessageDate : TimeId;
  DialogInfo_relativePath : string
}.

Definition DialogInfo_set_relativePath (d : DialogInfo) (path : string)
    : DialogInfo :=
  mkDialogInfo (DialogInfo_type d) (DialogInfo_name d) (DialogInfo_input d)
    (DialogInfo_topMessageId d) (DialogInfo_topMessageDate d) path.

Record DialogsInfo : Type := mkDialogsInfo {
  DialogsInfo_list : list DialogInfo
}.

(** *** Wire records of photos *)

Inductive MTPFileLocation : Type :=
| MTP_fileLocation (dc_id volume_id local_id secret : Z)
| MTP_fileLocationUnavailable (volume_id local_id secret : Z).

Inductive MTPPhotoSize : Type :=
| MTP_photoSizeEmpty
| MTP_photoSize (location : MTPFileLocation) (w h size : Z)
| MTP_photoCachedSize (location : MTPFileLocation) (w h : Z)
    (bytes : QByteArray).

Inductive MTPPhoto : Type :=
| MTP_photoEmpty (id : Z)
| MTP_photo (id : Z) (date : Z) (sizes : list MTPPhotoSize).

Definition ParseLocation (data : MTPFileLocation) : FileLocation :=
  match data with
  | MTP_fileLocation dc_id volume_id local_id secret =>
      mkFileLocation dc_id (MTP_inputFileLocation volume_id local_id secret)
  | MTP_fileLocationUnavailable volume_id local_id secret =>
      mkFileLocation 0 (MTP_inputFileLocation volume_id local_id secret)
  end.

(** One round of the loop of [ParseMaxImage]; the state is the result
    so far and [maxArea]. *)
Definition ParseMaxImage_step (acc : Image * Z) (size : MTPPhotoSize)
    : Image * Z :=
  let '(result, maxArea) := acc in
  let file := Image_file result in
  let take location w h content fsize :=
    let area := w * h in
    if decide (area > maxArea) then
      (mkImage w h
         (mkFile fsize content (ParseLocation location)
            (File_suggestedPath file) (File_skipReason file)
            (File_relativePath file)),
       area)
    else acc in
  match size with
  | MTP_photoSizeEmpty => acc
  | MTP_photoSize location w h fsize => take location w h [] fsize
  | MTP_photoCachedSize location w h bytes =>
      take location w h bytes (Z.of_nat (length bytes))
  end.

Definition ParseMaxImage (data : list MTPPhotoSize) (suggestedPath : string)
    : Image :=
  let file0 :=
    mkFile (File_size File_default) (File_content File_default)
      (File_location File_default) suggestedPath
      (File_skipReason File_default) (File_relativePath File_default) in
  fst (fold_left ParseMaxImage_step data (mkImage 0 0 file0, 0)).

Definition ParsePhoto (data : MTPPhoto) (suggestedPath : string) : Photo :=
  match data with
  | MTP_photo id date sizes =>
      mkPhoto id date (ParseMaxImage sizes suggestedPath)
  | MTP_photoEmpty id =>
      mkPhoto id (Photo_date Photo_default) (Photo_image Photo_default)
  end.

(** *** What the parsers take from outside this file

    [QDateTime::fromTime_t] is Qt's local-time conversion;
    [ParseMessage], [ParsePeersLists] and [ParseDialogsInfo] are the
    message, peer and dialog parsers of this file, used here through
    their signatures only ([ParseDialogsInfo] reads the same four
    vectors from either variant of the wire record). *)
Class Externals : Type := {
  fromTime_t : Z -> QDateTime;
  MTPMessage : Type;
  MTPUser : Type;
  MTPChat : Type;
  MTPDialog : Type;
  Peers : Type;
  ParseMessage : MTPMessage -> string -> Message;
  ParsePeersLists : list MTPUser -> list MTPChat -> Peers;
  ParseDialogsInfo :
    list MTPDialog -> list MTPMessage -> list MTPChat -> list MTPUser ->
    DialogsInfo
}.

Section Parsers.
Context `{Externals}.

Definition FormatDateTime (date : TimeId)
    (dateSeparator timeSeparator separator : ascii) : Utf8String :=
  let value := fromTime_t date in
  pretty (year value) +:+ String dateSeparator
    (arg2 (month value) +:+ String dateSeparator
    (arg2 (day value) +:+ String separator
    (arg2 (hour value) +:+ String timeSeparator
    (arg2 (minute value) +:+ String timeSeparator
    (arg2 (second value)))))).

Definition PreparePhotoFileName (date : TimeId) : string :=
  "Photo_" +:+ FormatDateTime date "_" "_" "_" +:+ ".jpg".

Definition ParseUserpicsSlice (data : list MTPPhoto) : UserpicsSlice :=
  mkUserpicsSlice
    (map (fun photo =>
            let suggestedPath :=
              "PersonalPhotos/" +:+
              match photo with
              | MTP_photo _ date _ => PreparePhotoFileName date
              | MTP_photoEmpty _ => "Photo_Empty.jpg"
              end in
            ParsePhoto photo suggestedPath)
         data).

Record MessagesSlice : Type := mkMessagesSlice {
  MessagesSlice_list : list Message;
  MessagesSlice_peers : Peers
}.

Definition ParseMessagesSlice (data : list MTPMessage)
    (users : list MTPUser) (chats : list MTPChat) (mediaFolder : string)
    : MessagesSlice :=
  let list := map (fun message => ParseMessage message mediaFolder) data in
  mkMessagesSlice (rev list) (ParsePeersLists users chats).

End Parsers.

(** *** File names *)

(** A [QString] as its UTF-16 code units. *)
Abbreviation QChar := Z (only parsing).
Abbreviation QString := (list QChar) (only parsing).

(** A Latin-1 literal ([qstr], [qsl], [QChar] from [char]) as a
    [QString]. *)
Definition qstr (s : string) : QString :=
  map (fun a => Z.of_N (N_of_ascii a)) (String.list_ascii_of_string s).

(** [QString::replace(QChar before, QChar after)] *)
Definition QString_replace (s : QString) (before after : QChar) : QString :=
  map (fun c => if decide (c = before) then after else c) s.

(** [QString::endsWith] *)
Definition QString_endsWith (s ending : QString) : bool :=
  bool_decide (ending `suffix_of` s).

(** [QString::trimmed] and [QString::toLower] belong to Qt. *)
Class QStringOps : Type := {
  QString_trimmed : QString -> QString;
  QString_toLower : QString -> QString
}.

(** The branch of the preprocessor the file is compiled under. *)
Inductive Platform : Type := Q_OS_WIN | Q_OS_MAC | Q_OS_LINUX | Q_OS_OTHER.

Definition underscore : QChar := 95.

(** The array [controls] of [CleanDocumentName]. *)
Definition controls (os : Platform) : list QChar :=
  [ 0x200E (* LTR Mark *);
    0x200F (* RTL Mark *);
    0x202A (* LTR Embedding *);
    0x202B (* RTL Embedding *);
    0x202D (* LTR Override *);
    0x202E (* RTL Override *);
    0x2066 (* LTR Isolate *);
    0x2067 (* RTL Isolate *) ] ++
  match os with
  | Q_OS_WIN =>
      [ 92 (* \ *); 47 (* / *); 58 (* : *); 42 (* * *); 63 (* ? *);
        34 (* double quote *); 60 (* < *); 62 (* > *); 124 (* | *) ]
  | Q_OS_MAC => [ 58 (* : *) ]
  | Q_OS_LINUX => [ 47 (* / *) ]
  | Q_OS_OTHER => []
  end.

Definition kBadExtensions : list QString := [qstr ".lnk"; qstr ".scf"].
Definition kMaskExtension : QString := qstr ".download".

(** The loop over [kBadExtensions] with its early [return]. *)
Fixpoint mask_bad_extension (extensions : list QString)
    (lower name : QString) : QString :=
  match extensions with
  | [] => name
  | extension :: rest =>
      if QString_endsWith lower extension then name ++ kMaskExtension
      else mask_bad_extension rest lower name
  end.

(** The first loop of [CleanDocumentName]. *)
Definition replace_controls (os : Platform) (name : QString) : QString :=
  fold_left (fun name ch => QString_replace name ch underscore)
            (controls os) name.

Definition CleanDocumentName `{QStringOps} (os : Platform) (name : QString)
    : QString :=
  let name := replace_controls os name in
  match os with
  | Q_OS_WIN =>
      let lower := QString_toLower (QString_trimmed name) in
      mask_bad_extension kBadExtensions lower name
  | _ => name
  end.

End Data.

(* ===================================================================== *)
(** ** export/export_api_wrap.cpp *)
(* ===================================================================== *)

Module ApiWrap.
Import Ints Data.
Local Open Scope Z_scope.

Definition kFileChunkSize : Z := 128 * 1024.
Definition kFileRequestsCount : Z := 2.
Definition kLocationCacheSize : Z := 100000.

(** [struct LocationKey { uint64 type; uint64 id; }] *)
Record LocationKey : Type := mkLocationKey {
  key_type : Z;
  key_id : Z
}.

#[global] Instance LocationKey_eq_dec : EqDecision LocationKey.
Proof. solve_decision. Defined.

#[global] Instance LocationKey_countable : Countable LocationKey.
Proof.
  refine (inj_countable' (fun k => (key_type k, key_id k))
                         (fun p => mkLocationKey p.1 p.2) _).
  intros []; reflexivity.
Defined.

Definition ComputeLocationKey (value : FileLocation) : LocationKey :=
  let type0 := to_uint64 (dcId value) in
  match data value with
  | MTP_inputFileLocation volume_id local_id _ =>
      let type1 := Z.lor type0 (Z.shiftl 1 24) in
      let type2 :=
        Z.lor type1 (to_uint64 (Z.shiftl (to_uint32 local_id) 32)) in
      mkLocationKey type2 (to_uint64 volume_id)
  | MTP_inputDocumentFileLocation id _ _ =>
      mkLocationKey (Z.lor type0 (Z.shiftl 2 24)) (to_uint64 id)
  | MTP_inputSecureFileLocation id _ =>
      mkLocationKey (Z.lor type0 (Z.shiftl 3 24)) (to_uint64 id)
  | MTP_inputEncryptedFileLocation id _ =>
      mkLocationKey (Z.lor type0 (Z.shiftl 4 24)) (to_uint64 id)
  end.

(** [class ApiWrap::LoadedFileCache]: [_limit], the [std::map] from
    keys to relative paths and the [std::deque] of keys in insertion
    order. *)
Record LoadedFileCache : Type := mkLoadedFileCache {
  _limit : Z;
  _map : gmap LocationKey string;
  _list : list LocationKey
}.

(** The constructor; [Expects(limit >= 0)] is the [None] case. *)
Definition LoadedFileCache_new (limit : Z) : option LoadedFileCache :=
  if decide (limit >= 0) then Some (mkLoadedFileCache limit ∅ []) else None.

(** [LoadedFileCache::save].  [_list.size() > _limit] compares a
    [size_t] with an [int], so the limit is converted to unsigned. *)
Definition save (c : LoadedFileCache) (location : FileLocation)
    (relativePath : string) : LoadedFileCache :=
  let key := ComputeLocationKey location in
  let map1 := <[key := relativePath]> (_map c) in
  let list1 := _list c ++ [key] in
  if decide (Z.of_nat (length list1) > to_uint64 (_limit c)) then
    match list1 with
    | front :: rest => mkLoadedFileCache (_limit c) (delete front map1) rest
    | [] => mkLoadedFileCache (_limit c) map1 list1
    end
  else mkLoadedFileCache (_limit c) map1 list1.

(** The loop of [fillDialogsPaths]: [index] is an [int] that is
    incremented before it is printed. *)
Fixpoint fillDialogsPaths_loop (digits : Z) (index : Z)
    (dialogs : list DialogInfo) : list DialogInfo :=
  match dialogs with
  | [] => []
  | dialog :: rest =>
      let index := to_int32 (index + 1) in
      let number := NumberToString index digits "0" in
      DialogInfo_set_relativePath dialog ("Chats/chat_" +:+ number +:+ "/")
        :: fillDialogsPaths_loop digits index rest
  end.

(** The body of [fillDialogsPaths] on the list of the dialogs process.
    [list.size() - 1] is computed in [size_t]. *)
Definition fillDialogsPaths_list (dialogs : list DialogInfo)
    : list DialogInfo :=
  let digits :=
    string_size
      (NumberToString (to_uint64 (Z.of_nat (length dialogs) - 1)) 0 " ") in
  fillDialogsPaths_loop digits 0 dialogs.

(** [LoadedFileCache::find], a [const] method. *)
Definition find (c : LoadedFileCache) (location : FileLocation)
    : option string :=
  _map c !! ComputeLocationKey location.


(** *** Settings *)

(** Modelled from the spec: the flags of [Settings::Type] are declared
    in export_settings.h, which is not part of the sources at hand.
    The content types of the settings are a bit mask, one bit per
    type. *)
Module SettingsType.
Definition Contacts : Z := 0x004.
Definition PersonalChats : Z := 0x010.
Definition BotChats : Z := 0x020.
Definition PrivateGroups : Z := 0x040.
Definition PublicGroups : Z := 0x080.
Definition PrivateChannels : Z := 0x100.
Definition PublicChannels : Z := 0x200.
End SettingsType.

(** Modelled from the spec: the flags of [MediaSettings::Type] are
    declared in export_settings.h, which is not part of the sources at
    hand.  The media types of the settings are a bit mask, one bit per
    type. *)
Module MediaType.
Inductive t : Type :=
| Photo | Video | VoiceMessage | VideoMessage | Sticker | GIF | File.

Definition flag (type : t) : Z :=
  match type with
  | Photo => 0x01
  | Video => 0x02
  | VoiceMessage => 0x04
  | VideoMessage => 0x08
  | Sticker => 0x10
  | GIF => 0x20
  | File => 0x40
  end.
End MediaType.

(** Modelled from the spec: [struct Settings] is declared in
    export_settings.h, which is not part of the sources at hand.  It
    holds the destination path, the bit mask of content types, the bit
    mask of the types exported in full, and of [MediaSettings] the bit
    mask of media types and the size limit. *)
Record Settings : Type := mkSettings {
  Settings_path : string;
  Settings_types : Z;
  Settings_fullChats : Z;
  Settings_media_types : Z;
  Settings_media_sizeLimit : Z
}.

Definition kFileMaxSize : Z := 1500 * 1024 * 1024.
Definition kUserpicsSliceLimit : Z := 100.
Definition kChatsSliceLimit : Z := 100.
Definition kMessagesSliceLimit : Z := 100.

(** *** Outcomes

    A call either returns or hits a failed [Expects] / [Assert], an
    [Unexpected], or an access the language leaves undefined (a null
    pointer, an index out of range): the [Fault] cases. *)
Inductive Result (A : Type) : Type :=
| Ok (a : A)
| Fault (what : string).
Arguments Ok {A} a.
Arguments Fault {A} what.

#[global] Instance Result_ret : MRet Result := fun A a => Ok a.
#[global] Instance Result_bind : MBind Result := fun A B f m =>
  match m with
  | Ok a => f a
  | Fault what => Fault what
  end.

Definition Expects (condition : bool) (what : string) : Result unit :=
  if condition then Ok tt else Fault what.

(** *** The processes *)

(** Which closure a file process holds in [done]:
    [loadUserpicDone(path)] or [loadMessageFileDone(path)]. *)
Inductive FileDone : Type := DoneUserpic | DoneMessageFile.

Record Request : Type := mkRequest {
  Request_offset : Z;
  Request_bytes : QByteArray
}.

(** [struct ApiWrap::FileProcess].  The [Output::File] member is the
    path it was opened with. *)
Record FileProcess : Type := mkFileProcess {
  FileProcess_file : string;
  FileProcess_relativePath : string;
  FileProcess_done : option FileDone;
  FileProcess_location : FileLocation;
  FileProcess_offset : Z;
  FileProcess_size : Z;
  FileProcess_requests : list Request
}.

Definition FileProcess_set_requests (p : FileProcess)
    (requests : list Request) : FileProcess :=
  mkFileProcess (FileProcess_file p) (FileProcess_relativePath p)
    (FileProcess_done p) (FileProcess_location p) (FileProcess_offset p)
    (FileProcess_size p) requests.

Definition FileProcess_set_offset (p : FileProcess) (offset : Z)
    : FileProcess :=
  mkFileProcess (FileProcess_file p) (FileProcess_relativePath p)
    (FileProcess_done p) (FileProcess_location p) offset
    (FileProcess_size p) (FileProcess_requests p).

Definition FileProcess_set_done (p : FileProcess) (done : FileDone)
    : FileProcess :=
  mkFileProcess (FileProcess_file p) (FileProcess_relativePath p)
    (Some done) (FileProcess_location p) (FileProcess_offset p)
    (FileProcess_size p) (FileProcess_requests p).

(** [struct ApiWrap::UserpicsProcess]; the three callbacks of the
    caller are not data of the model, their calls are recorded. *)
Record UserpicsProcess : Type := mkUserpicsProcess {
  UserpicsProcess_slice : option UserpicsSlice;
  UserpicsProcess_lastSlice : bool;
  UserpicsProcess_fileIndex : Z
}.

(** The download of one chunk: what [upload.getFile] answers. *)
Inductive MTPupload_File : Type :=
| MTP_upload_file (bytes : QByteArray)
| MTP_upload_fileCdnRedirect.

Inductive MTPphotos_Photos : Type :=
| MTP_photos_photos (photos : list MTPPhoto)
| MTP_photos_photosSlice (count : Z) (photos : list MTPPhoto).

Record RPCError : Type := mkRPCError {
  RPCError_code : Z;
  RPCError_text : string
}.

(** The flags of [account.initTakeoutSession] that [startMainSession]
    computes. *)
Record TakeoutFlags : Type := mkTakeoutFlags {
  f_contacts : bool;
  f_files : bool;
  f_file_max_size : bool;
  f_message_users : bool;
  f_message_chats : bool;
  f_message_megagroups : bool;
  f_message_channels : bool
}.

(** The requests the wrapper sends. *)
Inductive MTPRequest : Type :=
| MTPaccount_InitTakeoutSession (flags : TakeoutFlags) (file_max_size : Z)
| MTPusers_GetFullUser
| MTPphotos_GetUserPhotos (offset max_id limit : Z)
| MTPcontacts_GetSaved
| MTPaccount_GetAuthorizations
| MTPmessages_GetDialogs (offset_date offset_id : Z)
    (offset_peer : MTPInputPeer) (limit : Z)
| MTPmessages_Search (peer : MTPInputPeer) (offset_id add_offset limit : Z)
| MTPmessages_GetHistory (peer : MTPInputPeer)
    (offset_id add_offset limit : Z)
| MTPupload_GetFile (location : MTPInputFileLocation) (offset limit : Z).

(** A sent request: the takeout it is wrapped in (none for the request
    that opens the takeout), the data center and whether it goes to the
    media route ([kExportMediaDcShift]) or the main one
    ([kExportDcShift]). *)
Record Sent : Type := mkSent {
  Sent_takeout : option Z;
  Sent_dc : Z;
  Sent_media : bool;
  Sent_request : MTPRequest
}.

(** Modelled from the spec: [Output::File] lives in
    export/output/export_output_file.cpp, which is not part of the
    sources at hand.  A file is opened on a path; [writeBlock] appends
    the block to the file and reports success, or the local file system
    refuses and the file stays as it was.  [PrepareRelativePath] picks
    the path, relative to the export folder, for a suggested one.  What
    the file system accepts is a parameter. *)
Class FileSystem : Type := {
  PrepareRelativePath :
    gmap string QByteArray -> string -> string -> string;
  writeBlock_accepts : string -> QByteArray -> QByteArray -> bool
}.

Section Wrapper.
Context `{Externals} `{FileSystem}.

Inductive MTPmessages_Dialogs : Type :=
| MTP_messages_dialogs (dialogs : list MTPDialog)
    (messages : list MTPMessage) (chats : list MTPChat)
    (users : list MTPUser)
| MTP_messages_dialogsSlice (count : Z) (dialogs : list MTPDialog)
    (messages : list MTPMessage) (chats : list MTPChat)
    (users : list MTPUser).

Inductive MTPmessages_Messages : Type :=
| MTP_messages_messages (messages : list MTPMessage)
    (chats : list MTPChat) (users : list MTPUser)
| MTP_messages_messagesSlice (count : Z) (messages : list MTPMessage)
    (chats : list MTPChat) (users : list MTPUser)
| MTP_messages_channelMessages (pts count : Z)
    (messages : list MTPMessage) (chats : list MTPChat)
    (users : list MTPUser)
| MTP_messages_messagesNotModified (count : Z).

(** [struct ApiWrap::DialogsProcess::Single] *)
Record Single : Type := mkSingle {
  Single_info : DialogInfo;
  Single_offsetId : Z;
  Single_slice : option MessagesSlice;
  Single_lastSlice : bool;
  Single_fileIndex : Z
}.

(** [struct ApiWrap::DialogsProcess] *)
Record DialogsProcess : Type := mkDialogsProcess {
  DialogsProcess_info : DialogsInfo;
  DialogsProcess_offsetDate : TimeId;
  DialogsProcess_offsetId : Z;
  DialogsProcess_offsetPeer : MTPInputPeer;
  DialogsProcess_single : option Single;
  DialogsProcess_singleIndex : Z
}.

(** The calls into the closures the caller handed over. *)
Inductive Callback : Type :=
| StartExportDone
| PersonalInfoDone
| UserpicsStart (info : UserpicsInfo)
| UserpicsHandleSlice (slice : UserpicsSlice)
| UserpicsFinish
| ContactsDone
| SessionsDone
| DialogsStart (info : DialogsInfo)
| DialogsStartOne (info : DialogInfo)
| DialogsSliceOne (slice : MessagesSlice)
| DialogsFinishOne
| DialogsFinish.

(** The members of [ApiWrap], and next to them what the wrapper has
    done to the outside: the errors fired on [_errors], the requests
    sent through [_mtp], the calls into the caller's closures, the
    contents of the files written, and the function-local static
    files of [Media::file()]. *)
Record State : Type := mkState {
  _settings : option Settings;
  _takeoutId : option Z;
  _userpicsProcess : option UserpicsProcess;
  _fileProcess : option FileProcess;
  _dialogsProcess : option DialogsProcess;
  _fileCache : LoadedFileCache;
  _errors : list RPCError;
  sent : list Sent;
  callbacks : list Callback;
  disk : gmap string QByteArray;
  static_files : StaticFiles
}.

(** [ApiWrap::ApiWrap] *)
Definition ApiWrap_new : State :=
  mkState None None None None None
    (mkLoadedFileCache kLocationCacheSize ∅ [])
    [] [] [] ∅ StaticFiles_default.

Definition set_settings (v : option Settings) (s : State) : State :=
  mkState v (_takeoutId s) (_userpicsProcess s) (_fileProcess s)
    (_dialogsProcess s) (_fileCache s) (_errors s) (sent s) (callbacks s)
    (disk s) (static_files s).

Definition set_takeoutId (v : option Z) (s : State) : State :=
  mkState (_settings s) v (_userpicsProcess s) (_fileProcess s)
    (_dialogsProcess s) (_fileCache s) (_errors s) (sent s) (callbacks s)
    (disk s) (static_files s).

Definition set_userpicsProcess (v : option UserpicsProcess) (s : State)
    : State :=
  mkState (_settings s) (_takeoutId s) v (_fileProcess s)
    (_dialogsProcess s) (_fileCache s) (_errors s) (sent s) (callbacks s)
    (disk s) (static_files s).

Definition set_fileProcess (v : option FileProcess) (s : State) : State :=
  mkState (_settings s) (_takeoutId s) (_userpicsProcess s) v
    (_dialogsProcess s) (_fileCache s) (_errors s) (sent s) (callbacks s)
    (disk s) (static_files s).

Definition set_dialogsProcess (v : option DialogsProcess) (s : State)
    : State :=
  mkState (_settings s) (_takeoutId s) (_userpicsProcess s) (_fileProcess s)
    v (_fileCache s) (_errors s) (sent s) (callbacks s)
    (disk s) (static_files s).

Definition set_fileCache (v : LoadedFileCache) (s : State) : State :=
  mkState (_settings s) (_takeoutId s) (_userpicsProcess s) (_fileProcess s)
    (_dialogsProcess s) v (_errors s) (sent s) (callbacks s)
    (disk s) (static_files s).

Definition set_disk (v : gmap string QByteArray) (s : State) : State :=
  mkState (_settings s) (_takeoutId s) (_userpicsProcess s) (_fileProcess s)
    (_dialogsProcess s) (_fileCache s) (_errors s) (sent s) (callbacks s)
    v (static_files s).

Definition set_static_files (v : StaticFiles) (s : State) : State :=
  mkState (_settings s) (_takeoutId s) (_userpicsProcess s) (_fileProcess s)
    (_dialogsProcess s) (_fileCache s) (_errors s) (sent s) (callbacks s)
    (disk s) v.

(** [_errors.fire(error)] *)
Definition error (e : RPCError) (s : State) : State :=
  mkState (_settings s) (_takeoutId s) (_userpicsProcess s) (_fileProcess s)
    (_dialogsProcess s) (_fileCache s) (_errors s ++ [e]) (sent s)
    (callbacks s) (disk s) (static_files s).

(** [ApiWrap::error(const QString &text)] *)
Definition error_text (text : string) (s : State) : State :=
  error (mkRPCError 0 ("API_ERROR: " +:+ text)) s.

Definition send (r : Sent) (s : State) : State :=
  mkState (_settings s) (_takeoutId s) (_userpicsProcess s) (_fileProcess s)
    (_dialogsProcess s) (_fileCache s) (_errors s) (sent s ++ [r])
    (callbacks s) (disk s) (static_files s).

Definition call (c : Callback) (s : State) : State :=
  mkState (_settings s) (_takeoutId s) (_userpicsProcess s) (_fileProcess s)
    (_dialogsProcess s) (_fileCache s) (_errors s) (sent s)
    (callbacks s ++ [c]) (disk s) (static_files s).

(** [mainRequest(request) ... .send()] *)
Definition mainRequest (request : MTPRequest) (s : State) : Result State :=
  match _takeoutId s with
  | None => Fault "Expects(_takeoutId.has_value())"
  | Some takeoutId => Ok (send (mkSent (Some takeoutId) 0 false request) s)
  end.

(** [fileRequest(location, offset) ... .send()] *)
Definition fileRequest (location : FileLocation) (offset : Z) (s : State)
    : Result State :=
  _ ← Expects (negb (dcId location =? 0)) "Expects(location.dcId != 0)";
  match _takeoutId s with
  | None => Fault "Expects(_takeoutId.has_value())"
  | Some takeoutId =>
      Ok (send (mkSent (Some takeoutId) (dcId location) true
                  (MTPupload_GetFile (data location) offset kFileChunkSize))
               s)
  end.

(** Modelled from the spec: [Output::File::writeBlock], of
    export_output_file.cpp (not part of the sources at hand), on the
    file at [path]: the block is appended and the call reports success,
    or the file system refuses, the file stays as it was and the call
    reports the failure. *)
Definition writeBlock (path : string) (block : QByteArray) (s : State)
    : bool * State :=
  let content := default [] (disk s !! path) in
  if writeBlock_accepts path content block
  then (true, set_disk (<[path := content ++ block]> (disk s)) s)
  else (false, s).

Definition is_empty {A} (l : list A) : bool :=
  match l with [] => true | _ => false end.

Definition isEmpty (t : string) : bool :=
  match t with EmptyString => true | _ => false end.

(** *** One file *)

Definition prepareFileProcess (file : File) (s : State)
    : Result FileProcess :=
  match _settings s with
  | None => Fault "Expects(_settings != nullptr)"
  | Some settings =>
      let relativePath :=
        PrepareRelativePath (disk s) (Settings_path settings)
          (File_suggestedPath file) in
      Ok (mkFileProcess (Settings_path settings +:+ relativePath)
            relativePath None (File_location file) 0 (File_size file) [])
  end.

Definition loadFilePart (s : State) : Result State :=
  match _fileProcess s with
  | None => Ok s
  | Some process =>
      if bool_decide (Z.of_nat (length (FileProcess_requests process))
                      >= kFileRequestsCount)
         || (bool_decide (FileProcess_size process > 0)
             && bool_decide (FileProcess_offset process
                             >= FileProcess_size process))
      then Ok s
      else
        let offset := FileProcess_offset process in
        let process1 :=
          FileProcess_set_requests process
            (FileProcess_requests process ++ [mkRequest offset []]) in
        s1 ← fileRequest (FileProcess_location process1) offset
               (set_fileProcess (Some process1) s);
        Ok (set_fileProcess
              (Some (FileProcess_set_offset process1
                       (to_int32 (offset + kFileChunkSize))))
              s1)
  end.

Definition loadFile (file : File) (done : FileDone) (s : State)
    : Result State :=
  _ ← Expects (bool_decide (_fileProcess s = None))
        "Expects(_fileProcess == nullptr)";
  _ ← Expects (negb (dcId (File_location file) =? 0))
        "Expects(file.location.dcId != 0)";
  process ← prepareFileProcess file s;
  loadFilePart
    (set_fileProcess (Some (FileProcess_set_done process done)) s).

Definition File_set_relativePath (file : File) (path : string) : File :=
  mkFile (File_size file) (File_content file) (File_location file)
    (File_suggestedPath file) (File_skipReason file) path.

Definition File_set_skipReason (file : File) (reason : SkipReason.t)
    : File :=
  mkFile (File_size file) (File_content file) (File_location file)
    (File_suggestedPath file) reason (File_relativePath file).

(** [writePreloadedFile].  The block of an inline content is written
    through [_fileProcess->file], the file of the transfer that is
    active at that moment, not through the process just prepared. *)
Definition writePreloadedFile (file : File) (s : State)
    : Result (bool * File * State) :=
  _ ← Expects (bool_decide (_settings s <> None))
        "Expects(_settings != nullptr)";
  match find (_fileCache s) (File_location file) with
  | Some path => Ok (true, File_set_relativePath file path, s)
  | None =>
      if negb (is_empty (File_content file)) then
        process ← prepareFileProcess file s;
        match _fileProcess s with
        | None => Fault "_fileProcess->file on a null _fileProcess"
        | Some active =>
            let '(success, s1) :=
              writeBlock (FileProcess_file active) (File_content file) s in
            if success then
              let file1 :=
                File_set_relativePath file
                  (FileProcess_relativePath process) in
              Ok (true, file1,
                  set_fileCache
                    (save (_fileCache s1) (File_location file1)
                       (File_relativePath file1))
                    s1)
            else
              Ok (false, file,
                  error_text
                    ("Could not write '" +:+
                     FileProcess_relativePath process +:+ "'.")
                    s1)
        end
      else Ok (false, file, s)
  end.

(** The media type [processFileLoad] derives from its optional
    [message]. *)
Definition media_type (message : option Message) : MediaType.t :=
  match message with
  | Some m =>
      match Media_content (Message_media m) with
      | ContentDocument data =>
          if Document_isSticker data then MediaType.Sticker
          else if Document_isVideoMessage data then MediaType.VideoMessage
          else if Document_isVoiceMessage data then MediaType.VoiceMessage
          else if Document_isAnimated data then MediaType.GIF
          else if Document_isVideoFile data then MediaType.Video
          else MediaType.File
      | _ => MediaType.Photo
      end
  | None => MediaType.Photo
  end.

(** [processFileLoad]: the result is [ready], the file as the call
    leaves it (it is passed by reference) and the state. *)
Definition processFileLoad (file : File) (done : FileDone)
    (message : option Message) (s : State) : Result (bool * File * State) :=
  if negb (isEmpty (File_relativePath file)) then Ok (true, file, s)
  else if negb (FileLocation_valid (File_location file)) then
    Ok (true, File_set_skipReason file SkipReason.Unavailable, s)
  else
    '(preloaded, file1, s1) ← writePreloadedFile file s;
    if (preloaded : bool) then Ok (true, file1, s1)
    else
      match _settings s1 with
      | None => Fault "_settings-> on a null _settings"
      | Some settings =>
          let type := MediaType.flag (media_type message) in
          if bool_decide
               (Z.land (Settings_media_types settings) type <> type)
          then Ok (true, File_set_skipReason file1 SkipReason.FileType, s1)
          else if bool_decide
                    (File_size file1 >= Settings_media_sizeLimit settings)
          then Ok (true, File_set_skipReason file1 SkipReason.FileSize, s1)
          else
            s2 ← loadFile file1 done s1;
            Ok (false, file1, s2)
      end.

(** How a loop over the files of a slice ends: it runs off the list
    ([break]) or it stops at a file that is being downloaded
    ([return]). *)
Inductive LoopExit : Type := LoopBreak | LoopReturn.

(** *** User photos *)

Definition userpics_set_fileIndex (index : Z) (s : State) : Result State :=
  match _userpicsProcess s with
  | None => Fault "Expects(_userpicsProcess != nullptr)"
  | Some process =>
      Ok (set_userpicsProcess
            (Some (mkUserpicsProcess (UserpicsProcess_slice process)
                     (UserpicsProcess_lastSlice process) index))
            s)
  end.

(** Storing through the reference [slice->list[index].image.file]. *)
Definition userpics_store_file (index : Z) (file : File) (s : State)
    : State :=
  match _userpicsProcess s with
  | Some process =>
      match UserpicsProcess_slice process with
      | Some slice =>
          let photos := UserpicsSlice_list slice in
          match photos !! Z.to_nat index with
          | Some photo =>
              set_userpicsProcess
                (Some (mkUserpicsProcess
                         (Some (mkUserpicsSlice
                                  (<[Z.to_nat index :=
                                       Photo_set_file photo file]> photos)))
                         (UserpicsProcess_lastSlice process)
                         (UserpicsProcess_fileIndex process)))
                s
          | None => s
          end
      | None => s
      end
  | None => s
  end.

(** The [while (true)] of [loadNextUserpic]; [rest] is the part of the
    list from the index after [fileIndex] on. *)
Fixpoint loadNextUserpic_loop (rest : list Photo) (s : State)
    : Result (LoopExit * State) :=
  match _userpicsProcess s with
  | None => Fault "Expects(_userpicsProcess != nullptr)"
  | Some process =>
      let index := UserpicsProcess_fileIndex process + 1 in
      s0 ← userpics_set_fileIndex index s;
      match rest with
      | [] => Ok (LoopBreak, s0)
      | photo :: rest' =>
          '(ready, file, s1) ←
            processFileLoad (Image_file (Photo_image photo))
              DoneUserpic None s0;
          let s2 := userpics_store_file index file s1 in
          if (ready : bool) then loadNextUserpic_loop rest' s2
          else Ok (LoopReturn, s2)
      end
  end.

Definition finishUserpics (s : State) : Result State :=
  match _userpicsProcess s with
  | None => Fault "Expects(_userpicsProcess != nullptr)"
  | Some _ => Ok (call UserpicsFinish (set_userpicsProcess None s))
  end.

Definition loadNextUserpic (s : State) : Result State :=
  match _userpicsProcess s with
  | None => Fault "Expects(_userpicsProcess != nullptr)"
  | Some process =>
      match UserpicsProcess_slice process with
      | None => Fault "Expects(_userpicsProcess->slice.has_value())"
      | Some slice =>
          let photos := UserpicsSlice_list slice in
          let next := UserpicsProcess_fileIndex process + 1 in
          let rest :=
            if bool_decide (next < 0) then [] else drop (Z.to_nat next) photos in
          '(exit, s1) ← loadNextUserpic_loop rest s;
          match exit with
          | LoopReturn => Ok s1
          | LoopBreak =>
              match _userpicsProcess s1 with
              | None => Fault "_userpicsProcess-> on a null pointer"
              | Some process1 =>
                  match UserpicsProcess_slice process1 with
                  | None => Fault "slice-> on an empty optional"
                  | Some slice1 =>
                      let lastUserpicId :=
                        Photo_id <$> last (UserpicsSlice_list slice1) in
                      let s2 :=
                        call (UserpicsHandleSlice slice1)
                          (set_userpicsProcess
                             (Some (mkUserpicsProcess None
                                      (UserpicsProcess_lastSlice process1)
                                      (UserpicsProcess_fileIndex process1)))
                             s1) in
                      if UserpicsProcess_lastSlice process1
                      then finishUserpics s2
                      else
                        match lastUserpicId with
                        | None => Fault "Assert(lastUserpicId.has_value())"
                        | Some max_id =>
                            mainRequest
                              (MTPphotos_GetUserPhotos 0 max_id
                                 kUserpicsSliceLimit)
                              s2
                        end
                  end
              end
          end
      end
  end.

Definition loadUserpicsFiles (slice : UserpicsSlice) (s : State)
    : Result State :=
  match _userpicsProcess s with
  | None => Fault "Expects(_userpicsProcess != nullptr)"
  | Some process =>
      _ ← Expects (bool_decide (UserpicsProcess_slice process = None))
            "Expects(!_userpicsProcess->slice.has_value())";
      let lastSlice :=
        if is_empty (UserpicsSlice_list slice) then true
        else UserpicsProcess_lastSlice process in
      loadNextUserpic
        (set_userpicsProcess
           (Some (mkUserpicsProcess (Some slice) lastSlice (-1))) s)
  end.

Definition handleUserpicsSlice (result : MTPphotos_Photos) (s : State)
    : Result State :=
  match _userpicsProcess s with
  | None => Fault "Expects(_userpicsProcess != nullptr)"
  | Some process =>
      match result with
      | MTP_photos_photos photos =>
          loadUserpicsFiles (ParseUserpicsSlice photos)
            (set_userpicsProcess
               (Some (mkUserpicsProcess (UserpicsProcess_slice process)
                        true (UserpicsProcess_fileIndex process)))
               s)
      | MTP_photos_photosSlice _ photos =>
          loadUserpicsFiles (ParseUserpicsSlice photos) s
      end
  end.

Definition loadUserpicDone (relativePath : string) (s : State)
    : Result State :=
  match _userpicsProcess s with
  | None => Fault "Expects(_userpicsProcess != nullptr)"
  | Some process =>
      match UserpicsProcess_slice process with
      | None => Fault "Expects(_userpicsProcess->slice.has_value())"
      | Some slice =>
          let index := UserpicsProcess_fileIndex process in
          match
            (if bool_decide (0 <= index)
             then UserpicsSlice_list slice !! Z.to_nat index else None)
          with
          | None => Fault "Expects(fileIndex >= 0 && fileIndex < size)"
          | Some photo =>
              let file :=
                File_set_relativePath (Image_file (Photo_image photo))
                  relativePath in
              loadNextUserpic (userpics_store_file index file s)
          end
      end
  end.

(** [requestUserpics] *)
Definition requestUserpics (s : State) : Result State :=
  _ ← Expects (bool_decide (_userpicsProcess s = None))
        "Expects(_userpicsProcess == nullptr)";
  mainRequest (MTPphotos_GetUserPhotos 0 0 kUserpicsSliceLimit)
    (set_userpicsProcess (Some (mkUserpicsProcess None false (-1))) s).

(** The [done] handler of the first request of [requestUserpics]. *)
Definition requestUserpics_done (result : MTPphotos_Photos) (s : State)
    : Result State :=
  _ ← Expects (bool_decide (_userpicsProcess s <> None))
        "Expects(_userpicsProcess != nullptr)";
  let count :=
    match result with
    | MTP_photos_photos photos => Z.of_nat (length photos)
    | MTP_photos_photosSlice count _ => count
    end in
  handleUserpicsSlice result (call (UserpicsStart (mkUserpicsInfo count)) s).

(** *** Dialogs *)

Definition dialogs_set_single (single : option Single) (s : State)
    : Result State :=
  match _dialogsProcess s with
  | None => Fault "_dialogsProcess-> on a null pointer"
  | Some process =>
      Ok (set_dialogsProcess
            (Some (mkDialogsProcess (DialogsProcess_info process)
                     (DialogsProcess_offsetDate process)
                     (DialogsProcess_offsetId process)
                     (DialogsProcess_offsetPeer process)
                     single
                     (DialogsProcess_singleIndex process)))
            s)
  end.

Definition the_single (s : State) : Result Single :=
  match _dialogsProcess s with
  | None => Fault "Expects(_dialogsProcess != nullptr)"
  | Some process =>
      match DialogsProcess_single process with
      | None => Fault "Expects(_dialogsProcess->single != nullptr)"
      | Some single => Ok single
      end
  end.

Definition Single_set_slice (single : Single)
    (slice : option MessagesSlice) : Single :=
  mkSingle (Single_info single) (Single_offsetId single) slice
    (Single_lastSlice single) (Single_fileIndex single).

Definition Single_set_fileIndex (single : Single) (index : Z) : Single :=
  mkSingle (Single_info single) (Single_offsetId single)
    (Single_slice single) (Single_lastSlice single) index.

Definition Single_set_lastSlice (single : Single) (lastSlice : bool)
    : Single :=
  mkSingle (Single_info single) (Single_offsetId single)
    (Single_slice single) lastSlice (Single_fileIndex single).

Definition Single_set_offsetId (single : Single) (offsetId : Z) : Single :=
  mkSingle (Single_info single) offsetId (Single_slice single)
    (Single_lastSlice single) (Single_fileIndex single).

(** The settings bit of a dialog type, as [appendDialogsSlice] and
    [onlyMyMessages] look it up; the first falls back to [Type(0)], the
    second to [Unexpected]. *)
Definition dialog_type_bit (type : DialogType.t) : option Z :=
  match type with
  | DialogType.Personal => Some SettingsType.PersonalChats
  | DialogType.Bot => Some SettingsType.BotChats
  | DialogType.PrivateGroup => Some SettingsType.PrivateGroups
  | DialogType.PublicGroup => Some SettingsType.PublicGroups
  | DialogType.PrivateChannel => Some SettingsType.PrivateChannels
  | DialogType.PublicChannel => Some SettingsType.PublicChannels
  | DialogType.Unknown => None
  end.

Definition onlyMyMessages (s : State) : Result bool :=
  single ← the_single s;
  match dialog_type_bit (DialogInfo_type (Single_info single)) with
  | None => Fault "Unexpected(Type in ApiWrap::onlyMyMessages.)"
  | Some setting =>
      match _settings s with
      | None => Fault "_settings-> on a null _settings"
      | Some settings =>
          Ok (bool_decide
                (Z.land (Settings_fullChats settings) setting <> setting))
      end
  end.

Definition requestMessagesSlice (s : State) : Result State :=
  process ← the_single s;
  only ← onlyMyMessages s;
  if (only : bool) then
    mainRequest
      (MTPmessages_Search (DialogInfo_input (Single_info process))
         (Single_offsetId process) (- kMessagesSliceLimit)
         kMessagesSliceLimit)
      s
  else
    mainRequest
      (MTPmessages_GetHistory (DialogInfo_input (Single_info process))
         (Single_offsetId process) (- kMessagesSliceLimit)
         kMessagesSliceLimit)
      s.

Definition finishDialogs (s : State) : Result State :=
  match _dialogsProcess s with
  | None => Fault "Expects(_dialogsProcess != nullptr)"
  | Some process =>
      _ ← Expects (bool_decide (DialogsProcess_single process = None))
            "Expects(_dialogsProcess->single == nullptr)";
      Ok (call DialogsFinish (set_dialogsProcess None s))
  end.

(** [requestNextDialog], with the bound the source compares the index
    to (the size of the list is commented out there). *)
Definition requestNextDialog (s : State) : Result State :=
  match _dialogsProcess s with
  | None => Fault "Expects(_dialogsProcess != nullptr)"
  | Some process =>
      _ ← Expects (bool_decide (DialogsProcess_single process = None))
            "Expects(_dialogsProcess->single == nullptr)";
      let index := to_int32 (DialogsProcess_singleIndex process + 1) in
      let s1 :=
        set_dialogsProcess
          (Some (mkDialogsProcess (DialogsProcess_info process)
                   (DialogsProcess_offsetDate process)
                   (DialogsProcess_offsetId process)
                   (DialogsProcess_offsetPeer process)
                   (DialogsProcess_single process)
                   index))
          s in
      if bool_decide (index < 11) then
        match
          (if bool_decide (0 <= index)
           then DialogsInfo_list (DialogsProcess_info process)
                  !! Z.to_nat index
           else None)
        with
        | None => Fault "_dialogsProcess->info.list[index] out of range"
        | Some one =>
            s2 ← dialogs_set_single (Some (mkSingle one 1 None false (-1))) s1;
            requestMessagesSlice (call (DialogsStartOne one) s2)
        end
      else finishDialogs s1
  end.

Definition finishMessages (s : State) : Result State :=
  single ← the_single s;
  _ ← Expects (bool_decide (Single_slice single = None))
        "Expects(!_dialogsProcess->single->slice.has_value())";
  s1 ← dialogs_set_single None s;
  requestNextDialog (call DialogsFinishOne s1).

(** Storing through the reference [slice->list[index].file()]. *)
Definition messages_store_file (index : Z) (file : File) (s : State)
    : State :=
  match _dialogsProcess s with
  | Some process =>
      match DialogsProcess_single process with
      | Some single =>
          match Single_slice single with
          | Some slice =>
              let messages := MessagesSlice_list slice in
              match messages !! Z.to_nat index with
              | Some message =>
                  let '(static1, message1) :=
                    Message_set_file (static_files s) message file in
                  let slice1 :=
                    mkMessagesSlice
                      (<[Z.to_nat index := message1]> messages)
                      (MessagesSlice_peers slice) in
                  set_static_files static1
                    (set_dialogsProcess
                       (Some (mkDialogsProcess
                                (DialogsProcess_info process)
                                (DialogsProcess_offsetDate process)
                                (DialogsProcess_offsetId process)
                                (DialogsProcess_offsetPeer process)
                                (Some (Single_set_slice single (Some slice1)))
                                (DialogsProcess_singleIndex process)))
                       s)
              | None => s
              end
          | None => s
          end
      | None => s
      end
  | None => s
  end.

(** The [while (true)] of [loadNextMessageFile]. *)
Fixpoint loadNextMessageFile_loop (rest : list Message) (s : State)
    : Result (LoopExit * State) :=
  process ← the_single s;
  let index := Single_fileIndex process + 1 in
  s0 ← dialogs_set_single (Some (Single_set_fileIndex process index)) s;
  match rest with
  | [] => Ok (LoopBreak, s0)
  | message :: rest' =>
      '(ready, file, s1) ←
        processFileLoad (Message_file (static_files s0) message)
          DoneMessageFile None s0;
      let s2 := messages_store_file index file s1 in
      if (ready : bool) then loadNextMessageFile_loop rest' s2
      else Ok (LoopReturn, s2)
  end.

Definition loadNextMessageFile (s : State) : Result State :=
  process ← the_single s;
  match Single_slice process with
  | None => Fault "Expects(_dialogsProcess->single->slice.has_value())"
  | Some slice =>
      let messages := MessagesSlice_list slice in
      let next := Single_fileIndex process + 1 in
      let rest :=
        if bool_decide (next < 0) then [] else drop (Z.to_nat next) messages in
      '(exit, s1) ← loadNextMessageFile_loop rest s;
      match exit with
      | LoopReturn => Ok s1
      | LoopBreak =>
          process1 ← the_single s1;
          match Single_slice process1 with
          | None => Fault "slice-> on an empty optional"
          | Some slice1 =>
              let process2 :=
                match last (MessagesSlice_list slice1) with
                | Some back =>
                    Single_set_offsetId process1
                      (to_int32 (Message_id back + 1))
                | None => process1
                end in
              s2 ← dialogs_set_single
                     (Some (Single_set_slice process2 None)) s1;
              let s3 := call (DialogsSliceOne slice1) s2 in
              if Single_lastSlice process2 then finishMessages s3
              else requestMessagesSlice s3
          end
      end
  end.

Definition loadMessagesFiles (slice : MessagesSlice) (s : State)
    : Result State :=
  process ← the_single s;
  _ ← Expects (bool_decide (Single_slice process = None))
        "Expects(!_dialogsProcess->single->slice.has_value())";
  let process1 :=
    if is_empty (MessagesSlice_list slice)
    then Single_set_lastSlice process true else process in
  s1 ← dialogs_set_single
         (Some (Single_set_fileIndex
                  (Single_set_slice process1 (Some slice)) (-1)))
         s;
  loadNextMessageFile s1.

Definition loadMessageFileDone (relativePath : string) (s : State)
    : Result State :=
  process ← the_single s;
  match Single_slice process with
  | None => Fault "Expects(_dialogsProcess->single->slice.has_value())"
  | Some slice =>
      let index := Single_fileIndex process in
      match
        (if bool_decide (0 <= index)
         then MessagesSlice_list slice !! Z.to_nat index else None)
      with
      | None => Fault "Expects(fileIndex >= 0 && fileIndex < size)"
      | Some message =>
          let file :=
            File_set_relativePath (Message_file (static_files s) message)
              relativePath in
          loadNextMessageFile (messages_store_file index file s)
      end
  end.

(** The handler of the answer to [requestMessagesSlice]. *)
Definition requestMessagesSlice_done (result : MTPmessages_Messages)
    (s : State) : Result State :=
  process ← the_single s;
  let load lastSlice messages users chats :=
    s1 ← dialogs_set_single
           (Some (if (lastSlice : bool)
                  then Single_set_lastSlice process true else process))
           s;
    loadMessagesFiles
      (ParseMessagesSlice messages users chats
         (DialogInfo_relativePath (Single_info process)))
      s1 in
  match result with
  | MTP_messages_messagesNotModified _ =>
      Ok (error_text "Unexpected messagesNotModified received." s)
  | MTP_messages_messages messages chats users =>
      load true messages users chats
  | MTP_messages_messagesSlice _ messages chats users =>
      load false messages users chats
  | MTP_messages_channelMessages _ _ messages chats users =>
      load false messages users chats
  end.

Definition requestDialogsSlice (s : State) : Result State :=
  match _dialogsProcess s with
  | None => Fault "Expects(_dialogsProcess != nullptr)"
  | Some process =>
      mainRequest
        (MTPmessages_GetDialogs (DialogsProcess_offsetDate process)
           (DialogsProcess_offsetId process)
           (DialogsProcess_offsetPeer process) kChatsSliceLimit)
        s
  end.

Definition appendDialogsSlice (info : DialogsInfo) (s : State)
    : Result State :=
  match _dialogsProcess s, _settings s with
  | None, _ => Fault "Expects(_dialogsProcess != nullptr)"
  | _, None => Fault "Expects(_settings != nullptr)"
  | Some process, Some settings =>
      let types :=
        Z.lor (Settings_types settings) (Settings_fullChats settings) in
      let filtered :=
        List.filter
          (fun info =>
             let bit :=
               default 0 (dialog_type_bit (DialogInfo_type info)) in
             negb (Z.land types bit =? 0))
          (DialogsInfo_list info) in
      Ok (set_dialogsProcess
            (Some (mkDialogsProcess
                     (mkDialogsInfo
                        (DialogsInfo_list (DialogsProcess_info process)
                         ++ filtered))
                     (DialogsProcess_offsetDate process)
                     (DialogsProcess_offsetId process)
                     (DialogsProcess_offsetPeer process)
                     (DialogsProcess_single process)
                     (DialogsProcess_singleIndex process)))
            s)
  end.

Definition fillDialogsPaths (s : State) : Result State :=
  match _dialogsProcess s with
  | None => Fault "Expects(_dialogsProcess != nullptr)"
  | Some process =>
      Ok (set_dialogsProcess
            (Some (mkDialogsProcess
                     (mkDialogsInfo
                        (fillDialogsPaths_list
                           (DialogsInfo_list (DialogsProcess_info process))))
                     (DialogsProcess_offsetDate process)
                     (DialogsProcess_offsetId process)
                     (DialogsProcess_offsetPeer process)
                     (DialogsProcess_single process)
                     (DialogsProcess_singleIndex process)))
            s)
  end.

Definition finishDialogsList (s : State) : Result State :=
  match _dialogsProcess s with
  | None => Fault "Expects(_dialogsProcess != nullptr)"
  | Some process =>
      let reversed :=
        mkDialogsProcess
          (mkDialogsInfo (rev (DialogsInfo_list (DialogsProcess_info process))))
          (DialogsProcess_offsetDate process)
          (DialogsProcess_offsetId process)
          (DialogsProcess_offsetPeer process)
          (DialogsProcess_single process)
          (DialogsProcess_singleIndex process) in
      s1 ← fillDialogsPaths (set_dialogsProcess (Some reversed) s);
      match _dialogsProcess s1 with
      | None => Fault "_dialogsProcess-> on a null pointer"
      | Some process1 =>
          requestNextDialog
            (call (DialogsStart (DialogsProcess_info process1)) s1)
      end
  end.

(** The handler of the answer to [requestDialogsSlice]. *)
Definition requestDialogsSlice_done (result : MTPmessages_Dialogs)
    (s : State) : Result State :=
  let '(finished, info) :=
    match result with
    | MTP_messages_dialogs dialogs messages chats users =>
        (true, ParseDialogsInfo dialogs messages chats users)
    | MTP_messages_dialogsSlice _ dialogs messages chats users =>
        (is_empty dialogs, ParseDialogsInfo dialogs messages chats users)
    end in
  if finished || is_empty (DialogsInfo_list info) then finishDialogsList s
  else
    match _dialogsProcess s, last (DialogsInfo_list info) with
    | None, _ => Fault "_dialogsProcess-> on a null pointer"
    | _, None => Fault "back() of an empty list"
    | Some process, Some back =>
        s1 ← appendDialogsSlice info
               (set_dialogsProcess
                  (Some (mkDialogsProcess (DialogsProcess_info process)
                           (DialogInfo_topMessageDate back)
                           (DialogInfo_topMessageId back)
                           (DialogInfo_input back)
                           (DialogsProcess_single process)
                           (DialogsProcess_singleIndex process)))
                  s);
        requestDialogsSlice s1
    end.

Definition requestDialogs (s : State) : Result State :=
  _ ← Expects (bool_decide (_dialogsProcess s = None))
        "Expects(_dialogsProcess == nullptr)";
  requestDialogsSlice
    (set_dialogsProcess
       (Some (mkDialogsProcess (mkDialogsInfo []) 0 0 MTP_inputPeerEmpty
                None (-1)))
       s).

(** *** The end of a chunk request *)

(** [i->bytes = data.vbytes.v] at the first request with this offset. *)
Fixpoint fill_request (offset : Z) (bytes : QByteArray)
    (requests : list Request) : option (list Request) :=
  match requests with
  | [] => None
  | request :: rest =>
      if decide (Request_offset request = offset)
      then Some (mkRequest (Request_offset request) bytes :: rest)
      else (request ::.) <$> fill_request offset bytes rest
  end.

(** The loop that writes the requests at the head of the queue whose
    bytes have arrived; the result says whether every write went
    through and what is left of the queue. *)
Fixpoint write_ready (path : string) (requests : list Request) (s : State)
    : bool * list Request * State :=
  match requests with
  | [] => (true, [], s)
  | front :: rest =>
      if is_empty (Request_bytes front) then (true, requests, s)
      else
        let '(success, s1) := writeBlock path (Request_bytes front) s in
        if (success : bool) then write_ready path rest s1
        else (false, requests, s1)
  end.

(** The tail of [filePartDone]: the transfer is complete. *)
Definition filePartDone_finish (s : State) : Result State :=
  match _fileProcess s with
  | None => Fault "_fileProcess-> on a null pointer"
  | Some process =>
      let relativePath := FileProcess_relativePath process in
      let s1 :=
        set_fileCache
          (save (_fileCache s) (FileProcess_location process) relativePath)
          (set_fileProcess None s) in
      match FileProcess_done process with
      | None => Fault "call of an empty FnMut"
      | Some DoneUserpic => loadUserpicDone relativePath s1
      | Some DoneMessageFile => loadMessageFileDone relativePath s1
      end
  end.

Definition filePartDone (offset : Z) (result : MTPupload_File) (s : State)
    : Result State :=
  match _fileProcess s with
  | None => Fault "Expects(_fileProcess != nullptr)"
  | Some process =>
      _ ← Expects (negb (is_empty (FileProcess_requests process)))
            "Expects(!_fileProcess->requests.empty())";
      match result with
      | MTP_upload_fileCdnRedirect =>
          Ok (error_text "Cdn redirect is not supported." s)
      | MTP_upload_file bytes =>
          if is_empty bytes then
            if bool_decide (FileProcess_size process > 0)
            then Ok (error_text "Empty bytes received in file part." s)
            else filePartDone_finish s
          else
            match fill_request offset bytes (FileProcess_requests process)
            with
            | None => Fault "Assert(i != end(requests))"
            | Some filled =>
                let '(success, requests, s1) :=
                  write_ready (FileProcess_file process) filled s in
                let process1 := FileProcess_set_requests process requests in
                let s2 := set_fileProcess (Some process1) s1 in
                if negb success then
                  Ok (error_text
                        ("Could not write bytes to '" +:+
                         FileProcess_relativePath process +:+ "'.")
                        s2)
                else if negb (is_empty requests)
                        || bool_decide (FileProcess_size process = 0)
                        || bool_decide (FileProcess_size process
                                        > FileProcess_offset process)
                then loadFilePart s2
                else filePartDone_finish s2
            end
      end
  end.

(** *** The session and the one-shot requests *)

Definition startMainSession (s : State) : Result State :=
  match _settings s with
  | None => Fault "_settings-> on a null _settings"
  | Some settings =>
      let sizeLimit := Settings_media_sizeLimit settings in
      let has bits :=
        negb (Z.land (Settings_types settings) bits =? 0) in
      let hasFiles :=
        negb (Settings_media_types settings =? 0)
        && bool_decide (sizeLimit > 0) in
      let flags :=
        mkTakeoutFlags
          (has SettingsType.Contacts)
          hasFiles
          (bool_decide (sizeLimit < kFileMaxSize))
          (has (Z.lor SettingsType.PersonalChats SettingsType.BotChats))
          (has SettingsType.PrivateGroups)
          (has SettingsType.PrivateGroups || has SettingsType.PublicGroups)
          (has (Z.lor SettingsType.PrivateChannels
                      SettingsType.PublicChannels)) in
      Ok (send (mkSent None 0 false
                  (MTPaccount_InitTakeoutSession flags sizeLimit))
               s)
  end.

Definition startExport (settings : Settings) (s : State) : Result State :=
  _ ← Expects (bool_decide (_settings s = None))
        "Expects(_settings == nullptr)";
  startMainSession (set_settings (Some settings) s).

Definition startMainSession_done (takeoutId : Z) (s : State)
    : Result State :=
  Ok (call StartExportDone (set_takeoutId (Some takeoutId) s)).

Definition requestPersonalInfo (s : State) : Result State :=
  mainRequest MTPusers_GetFullUser s.

(** The handler of [requestPersonalInfo]; all it asks of the answer is
    whether [full.vuser] is a [user]. *)
Definition requestPersonalInfo_done (vuser_is_user : bool) (s : State)
    : Result State :=
  if vuser_is_user then Ok (call PersonalInfoDone s)
  else Ok (error_text "Bad user type." s).

Definition requestContacts (s : State) : Result State :=
  mainRequest MTPcontacts_GetSaved s.

Definition requestSessions (s : State) : Result State :=
  mainRequest MTPaccount_GetAuthorizations s.

(** *** What can happen to the wrapper

    The caller calls a public method, or the network answers a request:
    its [done] handler runs, or its [fail] handler, which is [error]. *)
Inductive Event : Type :=
| CallStartExport (settings : Settings)
| CallRequestPersonalInfo
| CallRequestUserpics
| CallRequestContacts
| CallRequestSessions
| CallRequestDialogs
| TakeoutAnswer (takeoutId : Z)
| PersonalInfoAnswer (vuser_is_user : bool)
| FirstUserpicsAnswer (result : MTPphotos_Photos)
| NextUserpicsAnswer (result : MTPphotos_Photos)
| ContactsAnswer
| SessionsAnswer
| DialogsAnswer (result : MTPmessages_Dialogs)
| MessagesAnswer (result : MTPmessages_Messages)
| FilePartAnswer (offset : Z) (result : MTPupload_File)
| RequestFailed (e : RPCError).

Definition step (e : Event) (s : State) : Result State :=
  match e with
  | CallStartExport settings => startExport settings s
  | CallRequestPersonalInfo => requestPersonalInfo s
  | CallRequestUserpics => requestUserpics s
  | CallRequestContacts => requestContacts s
  | CallRequestSessions => requestSessions s
  | CallRequestDialogs => requestDialogs s
  | TakeoutAnswer takeoutId => startMainSession_done takeoutId s
  | PersonalInfoAnswer vuser_is_user =>
      requestPersonalInfo_done vuser_is_user s
  | FirstUserpicsAnswer result => requestUserpics_done result s
  | NextUserpicsAnswer result => handleUserpicsSlice result s
  | ContactsAnswer => Ok (call ContactsDone s)
  | SessionsAnswer => Ok (call SessionsDone s)
  | DialogsAnswer result => requestDialogsSlice_done result s
  | MessagesAnswer result => requestMessagesSlice_done result s
  | FilePartAnswer offset result => filePartDone offset result s
  | RequestFailed e => Ok (error e s)
  end.

(** The states the wrapper can be in: the fresh one and whatever a
    step that returns leads to. *)
Inductive reachable : State -> Prop :=
| reachable_new : reachable ApiWrap_new
| reachable_step (e : Event) (s s' : State) :
    reachable s -> step e s = Ok s' -> reachable s'.

(** Running a list of events from a state. *)
Fixpoint run (events : list Event) (s : State) : Result State :=
  match events with
  | [] => Ok s
  | e :: rest => s' ← step e s; run rest s'
  end.

End Wrapper.

End ApiWrap.

(* ===================================================================== *)
(** ** Vocabulary of the statements *)
(* ===================================================================== *)

Module Spec.
Import Ints Data ApiWrap.
Local Open Scope Z_scope.

(** What a caller can do with the cache.  [find] is a [const] method:
    it yields a result and leaves the cache as it was. *)
Inductive CacheOp : Type :=
| OpSave (location : FileLocation) (relativePath : string)
| OpFind (location : FileLocation).

Definition run_op (c : LoadedFileCache) (op : CacheOp) : LoadedFileCache :=
  match op with
  | OpSave location relativePath => save c location relativePath
  | OpFind location => let _ := find c location in c
  end.

Definition run_ops (c : LoadedFileCache) (ops : list CacheOp)
    : LoadedFileCache :=
  fold_left run_op ops c.

(** The [save] calls among a sequence of operations, in order. *)
Fixpoint saved (ops : list CacheOp) : list (FileLocation * string) :=
  match ops with
  | [] => []
  | OpSave location relativePath :: ops' =>
      (location, relativePath) :: saved ops'
  | OpFind _ :: ops' => saved ops'
  end.

Definition save_all (c : LoadedFileCache)
    (l : list (FileLocation * string)) : LoadedFileCache :=
  fold_left (fun c e => save c e.1 e.2) l c.

Definition keys (l : list (FileLocation * string)) : list LocationKey :=
  map (fun e => ComputeLocationKey e.1) l.

(** A document location, for examples. *)
Definition loc_doc (n : Z) : FileLocation :=
  mkFileLocation 2 (MTP_inputDocumentFileLocation n 0 0).

(** A number padded with zeros on the left to [width] digits, and the
    folder of the dialog numbered [k]. *)
Definition zero_padded (width : nat) (digits : string) : string :=
  repeat_char (width - String.length digits) "0" +:+ digits.

Definition chat_folder (width : nat) (k : Z) : string :=
  "Chats/chat_" +:+ zero_padded width (pretty k) +:+ "/".

(** The identifier a wire photo carries. *)
Definition MTPPhoto_id (photo : MTPPhoto) : Z :=
  match photo with
  | MTP_photoEmpty id => id
  | MTP_photo id _ _ => id
  end.

(** The dangerous extensions of a platform: the check exists in the
    Windows branch only. *)
Definition badExtensions (os : Platform) : list QString :=
  match os with
  | Q_OS_WIN => kBadExtensions
  | _ => []
  end.

(** What the replacement loop does to one code unit. *)
Definition cleaned_char (os : Platform) (c : QChar) : QChar :=
  if bool_decide (c ∈ controls os) then underscore else c.

(** The Unicode characters with the property Bidi_Control. *)
Definition Bidi_Control : list QChar :=
  [ 0x061C; 0x200E; 0x200F; 0x202A; 0x202B; 0x202C; 0x202D; 0x202E;
    0x2066; 0x2067; 0x2068; 0x2069 ].

(** The eight characters the source names: LTR/RTL mark, embedding,
    override and isolate. *)
Definition directional_marks : list QChar :=
  [ 0x200E; 0x200F; 0x202A; 0x202B; 0x202D; 0x202E; 0x2066; 0x2067 ].

(** Sample instances of what the parsers take from outside: the
    calendar is fixed, a wire message is its own parse. *)
Definition sample_externals : Externals :=
  {| fromTime_t := fun _ => mkQDateTime 2018 6 1 12 0 0;
     MTPMessage := Message;
     MTPUser := unit;
     MTPChat := unit;
     MTPDialog := DialogInfo;
     Peers := unit;
     ParseMessage := fun m _ => m;
     ParsePeersLists := fun _ _ => tt;
     ParseDialogsInfo := fun dialogs _ _ _ => mkDialogsInfo dialogs |}.

(** An ASCII-only stand-in for the two Qt string functions. *)
Definition ascii_isSpace (c : QChar) : bool :=
  bool_decide (c = 32 \/ 9 <= c <= 13).

Definition ascii_toLower (c : QChar) : QChar :=
  if decide (65 <= c <= 90) then c + 32 else c.

Fixpoint drop_spaces (s : QString) : QString :=
  match s with
  | c :: s' => if ascii_isSpace c then drop_spaces s' else s
  | [] => []
  end.

Definition sample_ops : QStringOps :=
  {| QString_trimmed := fun s => rev (drop_spaces (rev (drop_spaces s)));
     QString_toLower := map ascii_toLower |}.

(** A file system that takes every block and keeps suggested paths. *)
Definition sample_fs : FileSystem :=
  {| PrepareRelativePath := fun _ _ suggested => suggested;
     writeBlock_accepts := fun _ _ _ => true |}.

Definition sample_settings : Settings :=
  mkSettings "/export/" 0x3FF 0x3FF 0x7F 1000.

(** A file of the given size at a valid location, not yet resolved. *)
Definition sample_file (size : Z) : File :=
  mkFile size [] (mkFileLocation 2 (MTP_inputFileLocation 7 1 9))
    "Photos/photo.jpg" SkipReason.None "".

(** A sticker of 500 bytes at a valid location, and a message that
    holds it. *)
Definition sample_sticker : Document :=
  mkDocument 3 100
    (mkFile 500 [] (mkFileLocation 2 (MTP_inputFileLocation 7 1 9))
       "Stickers/sticker.webp" SkipReason.None "")
    "sticker.webp" "image/webp" true false false false false false.

Definition sticker_message : Message :=
  mkMessage 41 100 1 "" (mkMedia (ContentDocument sample_sticker) 0)
    ActionNone.

(** Settings that enable the media types [types] alone, for files
    below 1000 bytes. *)
Definition settings_with_media (types : Z) : Settings :=
  mkSettings "/export/" 0x3FF 0x3FF types 1000.

(** The events up to the first page of the only dialog; the page
    holds the sticker. *)
Definition sticker_page (types : Z) : list (@Event sample_externals) :=
  [CallStartExport (settings_with_media types); TakeoutAnswer 5;
   CallRequestDialogs;
   DialogsAnswer
     (@MTP_messages_dialogsSlice sample_externals 1
        [mkDialogInfo DialogType.Personal "a" MTP_inputPeerEmpty 7 70 ""]
        [] [] []);
   DialogsAnswer (@MTP_messages_dialogsSlice sample_externals 1 [] [] [] []);
   MessagesAnswer
     (@MTP_messages_messagesSlice sample_externals 1 [sticker_message]
        [] [])].

Section WrapperVocabulary.
Context `{Externals} `{FileSystem}.

(** The bytes written so far to the file at [path]. *)
Definition file_content (path : string) (s : State) : QByteArray :=
  default [] (disk s !! path).

(** Chunk answers for one file, delivered one after the other. *)
Fixpoint deliver (answers : list (Z * QByteArray)) (s : State)
    : Result State :=
  match answers with
  | [] => Ok s
  | (offset, bytes) :: rest =>
      s' ← filePartDone offset (MTP_upload_file bytes) s;
      deliver rest s'
  end.

(** The state [s] with the queue [q] for the transfer and the disk
    [d]. *)
Definition transfer_state (s : State) (process : FileProcess)
    (q : list Request) (d : gmap string QByteArray) : State :=
  set_fileProcess (Some (FileProcess_set_requests process q)) (set_disk d s).

(** The number of requests in the queue of the active transfer. *)
Definition in_flight (s : State) : nat :=
  match _fileProcess s with
  | Some process => length (FileProcess_requests process)
  | None => 0
  end.

(** At most one chunk request is in flight. *)
Definition safe (s : State) : Prop := (in_flight s <= 1)%nat.

(** Which chunks of [chunks], taken in order, are written once the
    offsets [delivered] have been answered: the longest run from the
    start whose offsets have all been answered. *)
Fixpoint written_prefix (delivered : list Z)
    (chunks : list (Z * QByteArray)) : QByteArray :=
  match chunks with
  | [] => []
  | (offset, bytes) :: rest =>
      if bool_decide (offset ∈ delivered)
      then bytes ++ written_prefix delivered rest
      else []
  end.

(** The queue once the offsets [delivered] have been answered: the
    chunks of that run are gone from it, and of the requests behind the
    run those that have been answered hold their bytes. *)
Fixpoint queue_after (delivered : list Z)
    (chunks : list (Z * QByteArray)) : list Request :=
  match chunks with
  | [] => []
  | (offset, bytes) :: rest =>
      if bool_decide (offset ∈ delivered)
      then queue_after delivered rest
      else
        map (fun chunk : Z * QByteArray =>
               mkRequest chunk.1
                 (if bool_decide (chunk.1 ∈ delivered) then chunk.2 else []))
            chunks
  end.

(** The number of paginated processes that are active. *)
Definition active_paginated (s : State) : nat :=
  (if _userpicsProcess s is Some _ then 1 else 0) +
  (if _dialogsProcess s is Some _ then 1 else 0).

(** A state with a session open and nothing under way. *)
Definition session_open (takeoutId : Z) : State :=
  set_takeoutId (Some takeoutId)
    (set_settings (Some sample_settings) ApiWrap_new).

(** A transfer of a file of [size] bytes with the chunks at the
    offsets 0, [kFileChunkSize] and [2 * kFileChunkSize] requested and
    none of them answered. *)
Definition three_in_flight (size : Z) : State :=
  set_fileProcess
    (Some (mkFileProcess "/export/Photos/photo.jpg" "Photos/photo.jpg"
             (Some DoneUserpic)
             (mkFileLocation 2 (MTP_inputFileLocation 7 1 9))
             (3 * kFileChunkSize) size
             [mkRequest 0 []; mkRequest kFileChunkSize [];
              mkRequest (2 * kFileChunkSize) []]))
    (set_userpicsProcess
       (Some (mkUserpicsProcess
                (Some (mkUserpicsSlice
                         [mkPhoto 1 100 (mkImage 10 10 (sample_file size))]))
                true 0))
       (session_open 5)).

End WrapperVocabulary.

End Spec.

(* ===================================================================== *)
(** ** export/data/export_data_types.cpp: users, chats and contacts *)
(* ===================================================================== *)

Module DataPeers.
Import Ints Data ApiWrap.
Local Open Scope Z_scope.

(** The wire records of users, chats and contacts with the fields the
    parsers read.  A field behind a flag ([has_username()] and the
    like) is an [option]. *)
Module Wire.

Inductive MTPUser : Type :=
| MTP_user (id : Z) (access_hash : option Z)
    (first_name last_name username phone : option Utf8String)
    (bot_info_version : option Z)
| MTP_userEmpty (id : Z).

Inductive MTPChat : Type :=
| MTP_chat (id : Z) (title : Utf8String)
| MTP_chatEmpty (id : Z)
| MTP_chatForbidden (id : Z) (title : Utf8String)
| MTP_channel (id : Z) (broadcast : bool) (access_hash : Z)
    (title : Utf8String) (username : option Utf8String)
| MTP_channelForbidden (id : Z) (broadcast : bool) (access_hash : Z)
    (title : Utf8String).

Inductive MTPContact : Type :=
| MTP_contact (user_id : Z) (mutual : bool).

Inductive MTPcontacts_Contacts : Type :=
| MTP_contacts_contactsNotModified
| MTP_contacts_contacts (contacts : list MTPContact) (saved_count : Z)
    (users : list MTPUser).

End Wire.

Inductive MTPInputUser : Type :=
| MTP_inputUserEmpty
| MTP_inputUserSelf
| MTP_inputUser (user_id access_hash : Z).

(** [Utf8String ParseString(const MTPstring &data) { return data.v; }] *)
Definition ParseString (data : Utf8String) : Utf8String := data.

(** The records of users and chats.  They are declared in
    export_data_types.h; the fields are the ones the parsers below
    assign, and a value-initialised record ([ContactInfo()], [User()],
    [Chat()]) has zeros and empty strings. *)
Record ContactInfo : Type := mkContactInfo {
  ContactInfo_userId : Z;
  ContactInfo_firstName : Utf8String;
  ContactInfo_lastName : Utf8String;
  ContactInfo_phoneNumber : Utf8String
}.

Definition ContactInfo_default : ContactInfo := mkContactInfo 0 "" "" "".

Record User : Type := mkUser {
  User_info : ContactInfo;
  User_username : Utf8String;
  User_isBot : bool;
  User_input : MTPInputUser
}.

Record Chat : Type := mkChat {
  Chat_id : Z;
  Chat_title : Utf8String;
  Chat_username : Utf8String;
  Chat_broadcast : bool;
  Chat_input : MTPInputPeer
}.

(** [struct Peer { base::variant<User, Chat> data; }] *)
Inductive Peer : Type :=
| PeerUser (data : User)
| PeerChat (data : Chat).

Record ContactsList : Type := mkContactsList {
  ContactsList_list : list ContactInfo
}.

(** [ContactInfo ParseContactInfo(const MTPUser &data)] *)
Definition ParseContactInfo (data : Wire.MTPUser) : ContactInfo :=
  match data with
  | Wire.MTP_user id _ first_name last_name _ phone _ =>
      mkContactInfo id
        (default "" (ParseString <$> first_name))
        (default "" (ParseString <$> last_name))
        (default "" (ParseString <$> phone))
  | Wire.MTP_userEmpty id => mkContactInfo id "" "" ""
  end.

Definition ParseUser (data : Wire.MTPUser) : User :=
  match data with
  | Wire.MTP_user id access_hash _ _ username _ bot_info_version =>
      mkUser (ParseContactInfo data)
        (default "" (ParseString <$> username))
        (if bot_info_version is Some _ then true else false)
        (MTP_inputUser id (default 0 access_hash))
  | Wire.MTP_userEmpty id =>
      mkUser (ParseContactInfo data) "" false (MTP_inputUser id 0)
  end.

(** [std::map::emplace]: the entry is added unless the key is there. *)
Definition emplace `{Countable K} {A} (key : K) (value : A)
    (m : gmap K A) : gmap K A :=
  match m !! key with
  | Some _ => m
  | None => <[key := value]> m
  end.

Definition ParseUsersList (data : list Wire.MTPUser) : gmap Z User :=
  fold_left
    (fun result user =>
       let parsed := ParseUser user in
       emplace (ContactInfo_userId (User_info parsed)) parsed result)
    data ∅.

Definition ParseChat (data : Wire.MTPChat) : Chat :=
  match data with
  | Wire.MTP_chat id title =>
      mkChat id (ParseString title) "" false (MTP_inputPeerChat id)
  | Wire.MTP_chatEmpty id =>
      mkChat id "" "" false (MTP_inputPeerChat id)
  | Wire.MTP_chatForbidden id title =>
      mkChat id (ParseString title) "" false (MTP_inputPeerChat id)
  | Wire.MTP_channel id broadcast access_hash title username =>
      mkChat id (ParseString title)
        (default "" (ParseString <$> username)) broadcast
        (MTP_inputPeerChannel id access_hash)
  | Wire.MTP_channelForbidden id broadcast access_hash title =>
      mkChat id (ParseString title) "" broadcast
        (MTP_inputPeerChannel id access_hash)
  end.

Definition ParseChatsList (data : list Wire.MTPChat) : gmap Z Chat :=
  fold_left
    (fun result chat =>
       let parsed := ParseChat chat in
       emplace (Chat_id parsed) parsed result)
    data ∅.

(** [Utf8String ContactInfo::name() const] *)
Definition ContactInfo_name (info : ContactInfo) : Utf8String :=
  if isEmpty (ContactInfo_firstName info) then
    if isEmpty (ContactInfo_lastName info) then ""
    else ContactInfo_lastName info
  else
    if isEmpty (ContactInfo_lastName info) then ContactInfo_firstName info
    else ContactInfo_firstName info +:+ " " +:+ ContactInfo_lastName info.

Definition User_name (user : User) : Utf8String :=
  ContactInfo_name (User_info user).

(** [PeerId Peer::id() const] *)
Definition Peer_id (peer : Peer) : PeerId :=
  match peer with
  | PeerUser user => UserPeerId (ContactInfo_userId (User_info user))
  | PeerChat chat => ChatPeerId (Chat_id chat)
  end.

Definition Peer_name (peer : Peer) : Utf8String :=
  match peer with
  | PeerUser user => User_name user
  | PeerChat chat => Chat_title chat
  end.

Definition Peer_input (peer : Peer) : MTPInputPeer :=
  match peer with
  | PeerUser user =>
      match User_input user with
      | MTP_inputUser user_id access_hash =>
          MTP_inputPeerUser user_id access_hash
      | _ => MTP_inputPeerEmpty
      end
  | PeerChat chat => Chat_input chat
  end.

Definition ParsePeersLists (users : list Wire.MTPUser)
    (chats : list Wire.MTPChat) : gmap PeerId Peer :=
  let result :=
    fold_left
      (fun result user =>
         let parsed := ParseUser user in
         emplace (UserPeerId (ContactInfo_userId (User_info parsed)))
           (PeerUser parsed) result)
      users ∅ in
  fold_left
    (fun result chat =>
       let parsed := ParseChat chat in
       emplace (ChatPeerId (Chat_id parsed)) (PeerChat parsed) result)
    chats result.

(** [ContactsList ParseContactsList(const MTPcontacts_Contacts &data)] *)
Definition ParseContactsList (data : Wire.MTPcontacts_Contacts)
    : Result ContactsList :=
  match data with
  | Wire.MTP_contacts_contactsNotModified =>
      Fault "Expects(data.type() == mtpc_contacts_contacts)"
  | Wire.MTP_contacts_contacts contacts _ users =>
      let map := ParseUsersList users in
      Ok (mkContactsList
            (List.map
               (fun contact =>
                  let 'Wire.MTP_contact userId _ := contact in
                  match map !! userId with
                  | Some user => User_info user
                  | None => ContactInfo_default
                  end)
               contacts))
  end.

End DataPeers.

(* ===================================================================== *)
(** ** export/output/export_output_text.cpp: the serializers *)
(* ===================================================================== *)

Module Output.
Import Ints Data ApiWrap.
Local Open Scope Z_scope.

#[global] Instance byte_eq_dec : EqDecision Byte.byte := Byte.byte_eq_dec.

Definition LF : Byte.byte := Byte.x0a.

(** [kLineBreak]: carriage return and line feed under [Q_OS_WIN], a
    line feed otherwise. *)
Definition kLineBreak (os : Platform) : QByteArray :=
  match os with
  | Q_OS_WIN => [Byte.x0d; Byte.x0a]
  | _ => [Byte.x0a]
  end.

(** [QByteArray::size], an [int]. *)
Definition QByteArray_size (value : QByteArray) : Z := Z.of_nat (length value).

Fixpoint indexOf_from (ch : Byte.byte) (value : QByteArray) (position : Z)
    : Z :=
  match value with
  | [] => -1
  | c :: rest =>
      if decide (c = ch) then position
      else indexOf_from ch rest (position + 1)
  end.

(** [QByteArray::indexOf(char ch, int from)]: the position of the first
    [ch] at or after [from], or -1; a negative [from] counts from the
    end. *)
Definition indexOf (value : QByteArray) (ch : Byte.byte) (from : Z) : Z :=
  let from :=
    if decide (from < 0) then Z.max (from + QByteArray_size value) 0
    else from in
  indexOf_from ch (drop (Z.to_nat from) value) from.

(** The bytes that [append(data + offset, len)] appends. *)
Definition mid (value : QByteArray) (offset len : Z) : QByteArray :=
  take (Z.to_nat len) (drop (Z.to_nat offset) value).

Lemma indexOf_from_bounds ch value : forall position,
  indexOf_from ch value position = -1 \/
  position <= indexOf_from ch value position
           < position + Z.of_nat (length value).
Proof.
  induction value as [|c rest IH]; intros position; cbn [indexOf_from].
  - now left.
  - case_decide.
    + right. cbn [length]. lia.
    + destruct (IH (position + 1)) as [->|Hin]; [now left|].
      right. cbn [length]. lia.
Qed.

Lemma indexOf_bounds value ch from :
  0 <= indexOf value ch from ->
  from <= indexOf value ch from < QByteArray_size value.
Proof.
  unfold indexOf, QByteArray_size. intros Hfound.
  set (start := if decide (from < 0) then _ else from) in *.
  assert (Hstart : 0 <= start /\ from <= start).
  { unfold start. case_decide; lia. }
  destruct (indexOf_from_bounds ch (drop (Z.to_nat start) value) start)
    as [Hnone|Hin]; [lia|].
  rewrite length_drop in Hin. lia.
Qed.

(** A value together with the equation that it is this value. *)
Definition inspect {A} (a : A) : {b : A | a = b} := exist _ a eq_refl.

Local Unset Equations With Funext.

(** The [do ... while (newline > 0)] of [SerializeMultiline]; the state
    is [appendTo], [offset] and [newline]. *)
Equations SerializeMultiline_loop (os : Platform)
    (appendTo value : QByteArray) (offset newline : Z) : QByteArray
    by wf (Z.to_nat (QByteArray_size value - newline)) lt :=
SerializeMultiline_loop os appendTo value offset newline
  with inspect (bool_decide (indexOf value LF (newline + 1) > 0)) := {
  | exist _ true Hmore =>
      SerializeMultiline_loop os
        (appendTo ++ [Byte.x3e; Byte.x20]
           ++ mid value offset (newline - offset) ++ kLineBreak os)
        value (newline + 1) (indexOf value LF (newline + 1))
  | exist _ false _ =>
      appendTo ++ [Byte.x3e; Byte.x20]
        ++ mid value offset (newline - offset) ++ kLineBreak os }.
Next Obligation.
  apply bool_decide_eq_true_1 in Hmore.
  pose proof (indexOf_bounds value LF (newline + 1)) as Hbounds.
  lia.
Qed.

(** [void SerializeMultiline(QByteArray &appendTo, const QByteArray
    &value, int newline)] *)
Definition SerializeMultiline (os : Platform) (appendTo value : QByteArray)
    (newline : Z) : QByteArray :=
  SerializeMultiline_loop os appendTo value 0 newline.

(** The loop of [JoinList]; [rest] is the list from [counter] on. *)
Fixpoint JoinList_loop (separator : QByteArray) (rest : list QByteArray)
    (result : QByteArray) : QByteArray :=
  match rest with
  | [] => result
  | value :: rest' =>
      let result := result ++ value in
      match rest' with
      | [] => result
      | _ => JoinList_loop separator rest' (result ++ separator)
      end
  end.

(** The size [JoinList] reserves for a list of two values or more
    ([result.reserve(size)]); the result does not depend on it. *)
Definition JoinList_size (separator : QByteArray) (list : list QByteArray)
    : Z :=
  fold_left (fun size value => size + Z.of_nat (length value)) list
    ((Z.of_nat (length list) - 1) * Z.of_nat (length separator)).

Definition JoinList (separator : QByteArray) (list : list QByteArray)
    : QByteArray :=
  match list with
  | [] => []
  | [value] => value
  | _ => JoinList_loop separator list []
  end.

(** [QByteArray SerializeKeyValue(std::vector<std::pair<QByteArray,
    QByteArray>> &&values)] *)
Definition SerializeKeyValue (os : Platform)
    (values : list (QByteArray * QByteArray)) : QByteArray :=
  fold_left
    (fun result pair =>
       let '(key, value) := pair in
       if is_empty value then result
       else
         let result := result ++ key in
         let newline := indexOf value LF 0 in
         if decide (newline >= 0) then
           SerializeMultiline os (result ++ [Byte.x3a] ++ kLineBreak os)
             value newline
         else result ++ [Byte.x3a; Byte.x20] ++ value ++ kLineBreak os)
    values [].

(** [Data::Utf8String FormatUsername(const Data::Utf8String &username)] *)
Definition FormatUsername (username : QByteArray) : QByteArray :=
  if is_empty username then username else Byte.x40 :: username.

End Output.

(* ===================================================================== *)
(** ** Vocabulary of the further properties *)
(* ===================================================================== *)

Module Behaviour.
Import Ints Data ApiWrap Spec DataPeers Output.
Local Open Scope Z_scope.

(** *** Locations and the cache *)

(** Two locations name the same stored file as far as a cache key can
    tell: the same variant, data center and identifiers.  The secret,
    the access hash and the version are not compared. *)
Definition same_resource (a b : FileLocation) : Prop :=
  dcId a = dcId b /\
  match data a, data b with
  | MTP_inputFileLocation volume_a local_a _,
    MTP_inputFileLocation volume_b local_b _ =>
      to_uint64 volume_a = to_uint64 volume_b /\
      to_uint32 local_a = to_uint32 local_b
  | MTP_inputDocumentFileLocation id_a _ _,
    MTP_inputDocumentFileLocation id_b _ _ => to_uint64 id_a = to_uint64 id_b
  | MTP_inputSecureFileLocation id_a _,
    MTP_inputSecureFileLocation id_b _ => to_uint64 id_a = to_uint64 id_b
  | MTP_inputEncryptedFileLocation id_a _,
    MTP_inputEncryptedFileLocation id_b _ => to_uint64 id_a = to_uint64 id_b
  | _, _ => False
  end.

(** The keys the map of a cache holds are all in its queue. *)
Definition queued (c : LoadedFileCache) : Prop :=
  forall k, is_Some (_map c !! k) -> k ∈ _list c.

(** The cache of the wrapper: its limit is the one it was made with,
    and its queue is within the limit and covers the map. *)
Definition cache_bounded (c : LoadedFileCache) : Prop :=
  _limit c = kLocationCacheSize /\
  queued c /\
  Z.of_nat (length (_list c)) <= kLocationCacheSize.

(** *** Photos *)

(** The area of a wire photo size, as [ParseMaxImage] computes it. *)
Definition MTPPhotoSize_area (size : MTPPhotoSize) : Z :=
  match size with
  | MTP_photoSizeEmpty => 0
  | MTP_photoSize _ w h _ => w * h
  | MTP_photoCachedSize _ w h _ => w * h
  end.

Definition Image_area (image : Image) : Z :=
  Image_width image * Image_height image.

(** The image that one wire size stands for. *)
Definition Image_of (size : MTPPhotoSize) (suggestedPath : string)
    : option Image :=
  let file location content fsize :=
    mkFile fsize content (ParseLocation location) suggestedPath
      SkipReason.None "" in
  match size with
  | MTP_photoSizeEmpty => None
  | MTP_photoSize location w h fsize =>
      Some (mkImage w h (file location [] fsize))
  | MTP_photoCachedSize location w h bytes =>
      Some (mkImage w h (file location bytes (Z.of_nat (length bytes))))
  end.

(** *** Users, chats and contacts *)

(** The identifier a wire user or chat carries. *)
Definition MTPUser_id (user : Wire.MTPUser) : Z :=
  match user with
  | Wire.MTP_user id _ _ _ _ _ _ => id
  | Wire.MTP_userEmpty id => id
  end.

Definition MTPChat_id (chat : Wire.MTPChat) : Z :=
  match chat with
  | Wire.MTP_chat id _ => id
  | Wire.MTP_chatEmpty id => id
  | Wire.MTP_chatForbidden id _ => id
  | Wire.MTP_channel id _ _ _ _ => id
  | Wire.MTP_channelForbidden id _ _ _ => id
  end.

(** The first element of a list with a given key. *)
Definition first_with {A K} `{EqDecision K} (key_of : A -> K) (key : K)
    (l : list A) : option A :=
  List.find (fun x => bool_decide (key_of x = key)) l.

(** *** Text output *)

(** The lines [lines], each followed by a line feed, and then [last]:
    a text of [length lines + 1] lines. *)
Definition text_of (lines : list QByteArray) (last : QByteArray)
    : QByteArray :=
  concat (map (fun line => line ++ [LF]) lines) ++ last.

(** The lines as [SerializeMultiline] quotes them. *)
Definition quoted (os : Platform) (lines : list QByteArray) : QByteArray :=
  concat (map (fun line => [Byte.x3e; Byte.x20] ++ line ++ kLineBreak os)
              lines).

(** The values with the separator between every two of them. *)
Definition separated (separator : QByteArray) (values : list QByteArray)
    : QByteArray :=
  match values with
  | [] => []
  | value :: rest =>
      value ++ concat (map (fun value => separator ++ value) rest)
  end.

(** *** The wrapper *)

(** A file that [processFileLoad] settles on the spot: it has a path
    already, or it has no valid location. *)
Definition settled (file : File) : Prop :=
  isEmpty (File_relativePath file) = false \/
  FileLocation_valid (File_location file) = false.

(** What [processFileLoad] leaves of such a file. *)
Definition File_skipped (file : File) : File :=
  if isEmpty (File_relativePath file) then
    File_set_skipReason file SkipReason.Unavailable
  else file.

Definition Photo_skipped (photo : Photo) : Photo :=
  Photo_set_file photo (File_skipped (Image_file (Photo_image photo))).

(** The messages of a page after [loadNextMessageFile] has gone over
    them without a transfer, and the static files after it: every file
    is written back through [Message::file()]. *)
Fixpoint skip_files (static_files : StaticFiles) (messages : list Message)
    : StaticFiles * list Message :=
  match messages with
  | [] => (static_files, [])
  | message :: rest =>
      let '(static1, message1) :=
        Message_set_file static_files message
          (File_skipped (Message_file static_files message)) in
      let '(static2, rest1) := skip_files static1 rest in
      (static2, message1 :: rest1)
  end.

Section WrapperBehaviour.
Context `{Externals} `{FileSystem}.

(** From [s0] to [s] nothing that the wrapper has shown to the outside
    was taken back: the errors fired, the requests sent and the calls
    into the closures of the caller are the old ones followed by new
    ones, the settings are the ones that were there, and every file
    holds what it held, followed by new bytes. *)
Definition grows (s0 s : State) : Prop :=
  _errors s0 `prefix_of` _errors s /\
  sent s0 `prefix_of` sent s /\
  callbacks s0 `prefix_of` callbacks s /\
  (forall settings, _settings s0 = Some settings ->
                    _settings s = Some settings) /\
  (forall path, file_content path s0 `prefix_of` file_content path s).

(** The public methods that send a request of the export. *)
Definition request_calls : list Event :=
  [CallRequestPersonalInfo; CallRequestUserpics; CallRequestContacts;
   CallRequestSessions; CallRequestDialogs].

(** The photos of an answer to [photos.getUserPhotos], and the number
    of photos that [requestUserpics] reports to [start]. *)
Definition photos_of (result : MTPphotos_Photos) : list MTPPhoto :=
  match result with
  | MTP_photos_photos photos => photos
  | MTP_photos_photosSlice _ photos => photos
  end.

Definition count_of (result : MTPphotos_Photos) : Z :=
  match result with
  | MTP_photos_photos photos => Z.of_nat (length photos)
  | MTP_photos_photosSlice count _ => count
  end.

(** The requests that go through [mainRequest], with the page sizes
    they ask for. *)
Definition main_request (request : MTPRequest) : Prop :=
  match request with
  | MTPaccount_InitTakeoutSession _ _ => False
  | MTPupload_GetFile _ _ _ => False
  | MTPphotos_GetUserPhotos offset _ limit =>
      offset = 0 /\ limit = kUserpicsSliceLimit
  | MTPmessages_GetDialogs _ _ _ limit => limit = kChatsSliceLimit
  | MTPmessages_Search _ _ add_offset limit =>
      add_offset = - kMessagesSliceLimit /\ limit = kMessagesSliceLimit
  | MTPmessages_GetHistory _ _ add_offset limit =>
      add_offset = - kMessagesSliceLimit /\ limit = kMessagesSliceLimit
  | _ => True
  end.

(** How a request is sent.  The request that opens the takeout goes out
    bare on the main route.  A chunk request is wrapped in a takeout
    and goes to the data center of the file on the media route; it asks
    for one chunk at a multiple of the chunk size.  Every other request
    is wrapped in a takeout and goes out on the main route. *)
Definition well_formed (r : Sent) : Prop :=
  match Sent_request r with
  | MTPaccount_InitTakeoutSession _ _ =>
      Sent_takeout r = None /\ Sent_dc r = 0 /\ Sent_media r = false
  | MTPupload_GetFile _ offset limit =>
      is_Some (Sent_takeout r) /\ Sent_dc r <> 0 /\ Sent_media r = true /\
      limit = kFileChunkSize /\ (kFileChunkSize | offset)
  | request =>
      is_Some (Sent_takeout r) /\ Sent_dc r = 0 /\ Sent_media r = false /\
      main_request request
  end.

(** The cursor of the active transfer is a multiple of the chunk
    size. *)
Definition aligned (s : State) : Prop :=
  forall process, _fileProcess s = Some process ->
    (kFileChunkSize | FileProcess_offset process).

Definition orderly (s : State) : Prop :=
  Forall well_formed (sent s) /\ aligned s /\ cache_bounded (_fileCache s).

(** A dialog is of a type that the settings select, for its own
    messages or in full. *)
Definition selected (settings : Settings) (info : DialogInfo) : Prop :=
  exists bit,
    dialog_type_bit (DialogInfo_type info) = Some bit /\
    Z.land (Z.lor (Settings_types settings) (Settings_fullChats settings))
           bit <> 0.

Definition acceptable (s : State) (info : DialogInfo) : Prop :=
  match _settings s with
  | Some settings => selected settings info
  | None => False
  end.

(** The dialogs that wait in the dialogs process, and the one that is
    being exported, are of selected types. *)
Definition dialogs_selected (s : State) : Prop :=
  forall process, _dialogsProcess s = Some process ->
    Forall (acceptable s) (DialogsInfo_list (DialogsProcess_info process)) /\
    forall single, DialogsProcess_single process = Some single ->
      acceptable s (Single_info single).

(** The chunks of a file with the offsets they are asked for at, one
    chunk size apart, from [offset] on. *)
Fixpoint in_order (offset : Z) (chunks : list QByteArray)
    : list (Z * QByteArray) :=
  match chunks with
  | [] => []
  | bytes :: rest => (offset, bytes) :: in_order (offset + kFileChunkSize) rest
  end.

(** The chunk request for the transfer [process] at [offset], as
    [fileRequest] sends it. *)
Definition chunk_request (takeoutId : Z) (process : FileProcess)
    (offset : Z) : Sent :=
  mkSent (Some takeoutId) (dcId (FileProcess_location process)) true
    (MTPupload_GetFile (data (FileProcess_location process)) offset
       kFileChunkSize).

(** The transfer [process] with [offset] as the only request in flight
    and the cursor one chunk behind it. *)
Definition waiting_for (process : FileProcess) (offset : Z) : FileProcess :=
  FileProcess_set_offset
    (FileProcess_set_requests process [mkRequest offset []])
    (offset + kFileChunkSize).

End WrapperBehaviour.

End Behaviour.

(* ===================================================================== *)
(** * Properties *)
(* ===================================================================== *)

Import Ints Data ApiWrap Spec.

(* --------------------------------------------------------------------- *)
(** ** Peer identifiers *)
(* --------------------------------------------------------------------- *)

Section PeerIds.
Local Open Scope Z_scope.

Lemma to_uint32_range z : 0 <= to_uint32 z < 2^32.
Proof. unfold to_uint32. apply Z.mod_pos_bound. lia. Qed.

Lemma to_uint32_to_int32 z : to_uint32 (to_int32 z) = to_uint32 z.
Proof.
  unfold to_uint32, to_int32.
  rewrite Zminus_mod_idemp_l.
  f_equal. lia.
Qed.

Lemma to_int32_id z : is_int32 z -> to_int32 z = z.
Proof.
  unfold is_int32, to_int32. intros H.
  rewrite Z.mod_small; lia.
Qed.

Lemma to_int32_to_uint32 z : to_int32 (to_uint32 z) = to_int32 z.
Proof.
  unfold to_uint32, to_int32.
  rewrite Zplus_mod_idemp_l. reflexivity.
Qed.

(** The low 32 bits of a tagged peer id are the converted argument. *)
Lemma low_bits_tagged (tag u : Z) :
  0 <= u < 2^32 ->
  Z.land (Z.lor (Z.shiftl tag 32) u) 4294967295 = u.
Proof.
  intros Hu.
  change 4294967295 with (Z.ones 32).
  rewrite Z.land_ones by lia.
  rewrite <- Z.land_ones by lia.
  rewrite Z.land_lor_distr_l.
  rewrite !Z.land_ones by lia.
  rewrite Z.shiftl_mul_pow2 by lia.
  rewrite Z.mod_mul by lia.
  rewrite Z.lor_0_l. apply Z.mod_small. lia.
Qed.

Lemma UserPeerId_bit33 x : Z.testbit (UserPeerId x) 33 = false.
Proof.
  unfold UserPeerId, kUserPeerIdShift, to_uint32.
  rewrite Z.lor_spec, Z.mod_pow2_bits_high by lia.
  reflexivity.
Qed.

Lemma ChatPeerId_bit33 x : Z.testbit (ChatPeerId x) 33 = true.
Proof.
  unfold ChatPeerId, kChatPeerIdShift.
  rewrite Z.lor_spec. reflexivity.
Qed.

(** C4 (as stated, refuted).  The claim quantifies over 64-bit
    non-negative user ids, but [UserPeerId] takes an [int32]: the id
    5000000000 is cut down to its low 32 bits on the way in, and
    [BarePeerId] returns 705032704, not the id. *)
Lemma C4_wide_id_not_recovered :
  0 <= 5000000000 < 2^63 /\ BarePeerId (UserPeerId 5000000000) <> 5000000000.
Proof. split; [lia | vm_compute; discriminate]. Qed.

(** C4 (amended).  For every user id [x] of the parameter type [int32]
    (negative ones included) [BarePeerId (UserPeerId x) = x], and for
    every [x] whatsoever [UserPeerId x] differs from [ChatPeerId x]:
    the two namespaces are disjoint. *)
Theorem C4_peer_id_roundtrip_and_disjoint (x : Z) :
  (is_int32 x -> BarePeerId (UserPeerId x) = x) /\
  (forall y : Z, UserPeerId x <> ChatPeerId y).
Proof.
  split.
  - intros Hx. unfold BarePeerId, UserPeerId, kUserPeerIdShift.
    rewrite low_bits_tagged by apply to_uint32_range.
    rewrite to_uint32_to_int32, to_int32_to_uint32.
    now apply to_int32_id.
  - intros y Heq.
    pose proof (UserPeerId_bit33 x) as Hu.
    rewrite Heq, ChatPeerId_bit33 in Hu. discriminate.
Qed.

Lemma C4_peer_id_roundtrip_witness :
  is_int32 (-7) /\ BarePeerId (UserPeerId (-7)) = -7.
Proof.
  split.
  - unfold is_int32. lia.
  - apply (C4_peer_id_roundtrip_and_disjoint (-7)). unfold is_int32. lia.
Defined.

End PeerIds.

(* --------------------------------------------------------------------- *)
(** ** The loaded-file cache *)
(* --------------------------------------------------------------------- *)

Section Cache.
Local Open Scope Z_scope.

Lemma run_ops_saved ops : forall c, run_ops c ops = save_all c (saved ops).
Proof.
  induction ops as [|[location relativePath|location] ops IH]; intros c.
  - reflexivity.
  - apply IH.
  - apply IH.
Qed.

Lemma save_limit c location relativePath :
  _limit (save c location relativePath) = _limit c.
Proof.
  unfold save. case_decide; [|reflexivity].
  destruct (_list c ++ _); reflexivity.
Qed.

(** Below the limit [save] only inserts and appends. *)
Lemma save_no_evict c location relativePath :
  0 <= _limit c < 2^64 ->
  Z.of_nat (length (_list c)) < _limit c ->
  save c location relativePath =
  mkLoadedFileCache (_limit c)
    (<[ComputeLocationKey location := relativePath]> (_map c))
    (_list c ++ [ComputeLocationKey location]).
Proof.
  intros Hl Hlen. unfold save.
  rewrite decide_False; [reflexivity|].
  rewrite length_app. simpl.
  unfold to_uint64. rewrite Z.mod_small by lia. lia.
Qed.

(** At the limit [save] inserts, appends and then drops the front key
    of the queue from both the queue and the map. *)
Lemma save_evict c location relativePath front rest :
  0 <= _limit c < 2^64 ->
  Z.of_nat (length (_list c)) = _limit c ->
  _list c ++ [ComputeLocationKey location] = front :: rest ->
  save c location relativePath =
  mkLoadedFileCache (_limit c)
    (delete front
       (<[ComputeLocationKey location := relativePath]> (_map c)))
    rest.
Proof.
  intros Hl Hlen Hfront. unfold save.
  rewrite decide_True.
  - rewrite Hfront. reflexivity.
  - rewrite length_app. simpl.
    unfold to_uint64. rewrite Z.mod_small by lia. lia.
Qed.

(** Saving at most [limit] entries into an empty cache evicts nothing. *)
Lemma save_all_below_limit l : forall c,
  0 <= _limit c < 2^64 ->
  Z.of_nat (length (_list c) + length l) <= _limit c ->
  _limit (save_all c l) = _limit c /\
  _list (save_all c l) = _list c ++ keys l /\
  (forall k, k ∉ keys l -> _map (save_all c l) !! k = _map c !! k) /\
  (forall k, k ∈ keys l -> is_Some (_map (save_all c l) !! k)).
Proof.
  induction l as [|[location relativePath] l IH]; intros c Hl Hlen.
  - simpl. rewrite app_nil_r. repeat split; try done.
    intros k Hk. inversion Hk.
  - simpl in *.
    assert (Hs := save_no_evict c location relativePath Hl ltac:(lia)).
    destruct (IH (save c location relativePath)) as (IH1 & IH2 & IH3 & IH4).
    + rewrite save_limit. exact Hl.
    + rewrite save_limit, Hs. simpl. rewrite length_app. simpl. lia.
    + rewrite save_limit in IH1.
      split; [exact IH1|]. split; [|split].
      * rewrite IH2, Hs. simpl. rewrite <- app_assoc. reflexivity.
      * intros k Hk. apply not_elem_of_cons in Hk as [Hne Hk].
        rewrite IH3 by exact Hk. rewrite Hs. simpl.
        rewrite lookup_insert_ne by congruence. reflexivity.
      * intros k Hk.
        destruct (decide (k ∈ keys l)) as [Hin|Hnin]; [now apply IH4|].
        apply elem_of_cons in Hk as [->|Hk]; [|contradiction].
        rewrite IH3 by exact Hnin. rewrite Hs. simpl.
        rewrite lookup_insert_eq. eauto.
Qed.

Lemma save_all_app c l1 l2 :
  save_all c (l1 ++ l2) = save_all (save_all c l1) l2.
Proof. unfold save_all. apply fold_left_app. Qed.

Lemma LoadedFileCache_new_inv L c0 :
  LoadedFileCache_new L = Some c0 ->
  0 <= L /\ c0 = mkLoadedFileCache L ∅ [].
Proof.
  unfold LoadedFileCache_new. case_decide; [|discriminate].
  intros [= <-]. split; [lia | reflexivity].
Qed.

Lemma keys_app l1 l2 : keys (l1 ++ l2) = keys l1 ++ keys l2.
Proof. unfold keys. apply map_app. Qed.

(** The [limit + 1]-st save into an empty cache evicts the first key. *)
Lemma save_all_overflow L c0 location_1 path_1 later :
  is_int32 L ->
  LoadedFileCache_new L = Some c0 ->
  Z.of_nat (length later) = L ->
  _map (save_all c0 ((location_1, path_1) :: later))
    !! ComputeLocationKey location_1 = None.
Proof.
  intros HL Hnew Hlen.
  apply LoadedFileCache_new_inv in Hnew as [HL0 ->].
  unfold is_int32 in HL.
  destruct (exists_last (l := (location_1, path_1) :: later))
    as (init & [location_n path_n] & Hsplit); [discriminate|].
  assert (Hinit : Z.of_nat (length init) = L).
  { apply (f_equal (@length _)) in Hsplit.
    rewrite length_app in Hsplit. simpl in Hsplit. lia. }
  rewrite Hsplit, save_all_app. simpl.
  destruct (save_all_below_limit init (mkLoadedFileCache L ∅ []))
    as (Hlim & Hlist & _); simpl; [lia | lia |].
  simpl in Hlim, Hlist.
  erewrite save_evict with (front := ComputeLocationKey location_1)
                           (rest := keys later).
  - simpl. apply lookup_delete_eq.
  - rewrite Hlim. lia.
  - rewrite Hlist, Hlim. simpl. unfold keys. rewrite length_map. lia.
  - rewrite Hlist.
    change [ComputeLocationKey location_n]
      with (keys [(location_n, path_n)]).
    rewrite <- keys_app, <- Hsplit. reflexivity.
Qed.



(** The first of several saves with pairwise distinct keys is still
    mapped once all of them have been saved below the limit. *)
Lemma save_all_first_kept L c0 location_1 path_1 later :
  is_int32 L ->
  LoadedFileCache_new L = Some c0 ->
  Z.of_nat (S (length later)) <= L ->
  NoDup (keys ((location_1, path_1) :: later)) ->
  _limit (save_all c0 ((location_1, path_1) :: later)) = L /\
  _list (save_all c0 ((location_1, path_1) :: later)) =
    keys ((location_1, path_1) :: later) /\
  _map (save_all c0 ((location_1, path_1) :: later))
    !! ComputeLocationKey location_1 = Some path_1.
Proof.
  intros HL Hnew Hlen Hnd.
  apply LoadedFileCache_new_inv in Hnew as [HL0 ->].
  unfold is_int32 in HL.
  destruct (save_all_below_limit ((location_1, path_1) :: later)
              (mkLoadedFileCache L ∅ []))
    as (Hlim & Hlist & _); simpl; [lia | lia |].
  split; [exact Hlim|]. split; [exact Hlist|].
  change (save_all (mkLoadedFileCache L ∅ []) ((location_1, path_1) :: later))
    with (save_all (save (mkLoadedFileCache L ∅ []) location_1 path_1) later).
  apply NoDup_cons in Hnd as [Hnotin _].
  rewrite save_no_evict by (simpl; lia). simpl.
  destruct (save_all_below_limit later
    (mkLoadedFileCache L
       (<[ComputeLocationKey location_1 := path_1]> ∅)
       ([] ++ [ComputeLocationKey location_1])))
    as (_ & _ & Hother & _); simpl; [lia | lia |].
  rewrite Hother by exact Hnotin. simpl.
  apply lookup_insert_eq.
Qed.

(** C3.  [save] appends the key to the queue whether or not the key is
    already mapped.  (1) Saving the same location twice into a fresh
    cache of limit at least 2 leaves the key twice in the queue and once
    in the map, so the queue is longer than the map.  (2) In a cache
    filled from empty with exactly [L = limit] locations of pairwise
    distinct keys, the oldest location is mapped, and saving it again
    erases its mapping at once: [find] on it is empty right after that
    save. *)
Theorem C3_cache_resave_anomaly :
  (forall (L : Z) (c0 : LoadedFileCache) (location : FileLocation)
          (p q : string),
     is_int32 L -> 2 <= L ->
     LoadedFileCache_new L = Some c0 ->
     let c := save (save c0 location p) location q in
     _list c = [ComputeLocationKey location; ComputeLocationKey location] /\
     _map c = {[ComputeLocationKey location := q]} /\
     (size (_map c) < length (_list c))%nat) /\
  (forall (L : Z) (c0 : LoadedFileCache) (location_1 : FileLocation)
          (path_1 : string) (later : list (FileLocation * string))
          (path : string),
     is_int32 L ->
     LoadedFileCache_new L = Some c0 ->
     Z.of_nat (S (length later)) = L ->
     NoDup (keys ((location_1, path_1) :: later)) ->
     let c := save_all c0 ((location_1, path_1) :: later) in
     find c location_1 = Some path_1 /\
     find (save c location_1 path) location_1 = None /\
     length (_list (save c location_1 path)) = length (_list c)).
Proof.
  split.
  - intros L c0 location p q HL HL2 Hnew.
    apply LoadedFileCache_new_inv in Hnew as [_ ->].
    unfold is_int32 in HL. simpl.
    rewrite (save_no_evict (mkLoadedFileCache L ∅ [])) by (simpl; lia).
    rewrite save_no_evict by (simpl; lia). simpl.
    rewrite insert_insert_eq, insert_empty, map_size_singleton.
    repeat split; lia.
  - intros L c0 location_1 path_1 later path HL Hnew Hlen Hnd.
    destruct (save_all_first_kept L c0 location_1 path_1 later)
      as (Hlim & Hlist & Hmap); [done | done | lia | done |].
    unfold is_int32 in HL. cbv zeta.
    set (c := save_all c0 _) in *.
    split; [exact Hmap|].
    rewrite (save_evict c location_1 path (ComputeLocationKey location_1)
               (keys later ++ [ComputeLocationKey location_1])).
    + unfold find. cbn [_map _list]. split; [apply lookup_delete_eq|].
      rewrite Hlist, length_app. simpl. lia.
    + rewrite Hlim. lia.
    + rewrite Hlist, Hlim. simpl. unfold keys. rewrite length_map. lia.
    + rewrite Hlist. reflexivity.
Qed.

Lemma C3_cache_resave_anomaly_witness :
  (let c := save (save (mkLoadedFileCache 2 ∅ []) (loc_doc 1) "a")
                 (loc_doc 1) "b" in
   (size (_map c) < length (_list c))%nat) /\
  (let c := save_all (mkLoadedFileCache 2 ∅ [])
                     [(loc_doc 1, "a"); (loc_doc 2, "b")] in
   find c (loc_doc 1) = Some "a" /\
   find (save c (loc_doc 1) "again") (loc_doc 1) = None).
Proof.
  destruct C3_cache_resave_anomaly as [Hdup Hresave]. split.
  - apply (Hdup 2 _ (loc_doc 1) "a" "b").
    + unfold is_int32. lia.
    + lia.
    + reflexivity.
  - destruct (Hresave 2 (mkLoadedFileCache 2 ∅ []) (loc_doc 1) "a"
                [(loc_doc 2, "b")] "again") as (H1 & H2 & _).
    + unfold is_int32. lia.
    + reflexivity.
    + reflexivity.
    + apply (bool_decide_unpack _). vm_compute. exact I.
    + split; [exact H1 | exact H2].
Defined.

End Cache.

(* --------------------------------------------------------------------- *)
(** ** Dialog folders *)
(* --------------------------------------------------------------------- *)

Section DialogPaths.
Local Open Scope Z_scope.

(** Padding with ['0'] through [NumberToString] is padding with zeros. *)
Lemma NumberToString_zero_padded (k : Z) (width : nat) :
  NumberToString k (Z.of_nat width) "0" = zero_padded width (pretty k).
Proof.
  unfold NumberToString, FillLeft, zero_padded, string_size.
  case_decide as Hle.
  - replace (width - String.length (pretty k))%nat with 0%nat by lia.
    reflexivity.
  - f_equal. f_equal. lia.
Qed.

Lemma fillDialogsPaths_loop_length digits dialogs : forall index,
  length (fillDialogsPaths_loop digits index dialogs) = length dialogs.
Proof.
  induction dialogs as [|dialog rest IH]; intros index; simpl.
  - reflexivity.
  - now rewrite IH.
Qed.

(** The dialog at position [i] of the rest of the list gets the number
    [index + i + 1], as long as the counter stays an [int]. *)
Lemma fillDialogsPaths_loop_lookup digits dialogs : forall index i dialog,
  0 <= index ->
  index + Z.of_nat (length dialogs) <= INT_MAX ->
  dialogs !! i = Some dialog ->
  fillDialogsPaths_loop digits index dialogs !! i =
  Some (DialogInfo_set_relativePath dialog
          ("Chats/chat_" +:+
           NumberToString (index + Z.of_nat i + 1) digits "0" +:+ "/")).
Proof.
  induction dialogs as [|first rest IH]; intros index i dialog H0 Hmax Hi.
  - discriminate.
  - simpl in Hmax.
    assert (Hnext : to_int32 (index + 1) = index + 1).
    { apply to_int32_id. unfold is_int32, INT_MAX in *. lia. }
    destruct i as [|i]; simpl in Hi |- *.
    + injection Hi as ->. rewrite Hnext.
      replace (index + Z.of_nat 0 + 1) with (index + 1) by lia. reflexivity.
    + rewrite Hnext.
      rewrite (IH (index + 1) i dialog) by (try assumption; lia).
      replace (index + 1 + Z.of_nat i + 1) with (index + Z.of_nat (S i) + 1)
        by lia.
      reflexivity.
Qed.

(** C6.  For a collected dialog list of size [N] (below the range of
    the [int] counter) the list keeps its length and its dialogs, and
    the dialog at position [i] gets the path [Chats/chat_<k>/] with
    [k = i + 1] printed in decimal and padded with zeros on the left to
    the number of digits of [N - 1]: counting starts at 1 and goes up
    by one along the list. *)
Theorem C6_dialog_folder_numbering (dialogs : list DialogInfo) :
  Z.of_nat (length dialogs) <= INT_MAX ->
  let N := length dialogs in
  let width := String.length (pretty (Z.of_nat N - 1)) in
  let result := fillDialogsPaths_list dialogs in
  length result = N /\
  forall (i : nat) (dialog : DialogInfo),
    dialogs !! i = Some dialog ->
    result !! i =
    Some (DialogInfo_set_relativePath dialog
            (chat_folder width (Z.of_nat i + 1))).
Proof.
  intros Hmax N width result. split.
  - apply fillDialogsPaths_loop_length.
  - intros i dialog Hi.
    assert (HN : (0 < N)%nat).
    { apply lookup_lt_Some in Hi. subst N. lia. }
    unfold result, fillDialogsPaths_list.
    rewrite (fillDialogsPaths_loop_lookup _ _ 0 i dialog)
      by (try assumption; lia).
    unfold chat_folder. rewrite <- NumberToString_zero_padded.
    unfold width, string_size, NumberToString at 2, FillLeft.
    rewrite decide_True by (unfold string_size; lia).
    unfold to_uint64. fold N.
    rewrite (Z.mod_small (Z.of_nat N - 1)) by (unfold INT_MAX in Hmax; lia).
    reflexivity.
Qed.

Lemma C6_dialog_folder_numbering_witness :
  let d := mkDialogInfo DialogType.Personal "n" MTP_inputPeerEmpty 0 0 "" in
  map DialogInfo_relativePath (fillDialogsPaths_list (replicate 12 d)) !! 8%nat
  = Some "Chats/chat_09/".
Proof.
  intros d.
  destruct (C6_dialog_folder_numbering (replicate 12 d)) as [_ Hpath].
  - vm_compute. discriminate.
  - rewrite list_lookup_fmap, (Hpath 8%nat d); reflexivity.
Defined.

End DialogPaths.

(* --------------------------------------------------------------------- *)
(** ** Slices *)
(* --------------------------------------------------------------------- *)

Section Slices.
Local Open Scope Z_scope.

Lemma rev_lookup {A} (l : list A) (i : nat) :
  (i < length l)%nat -> rev l !! i = l !! (length l - S i)%nat.
Proof.
  intros Hi. rewrite rev_alt.
  change (rev_append l []) with (reverse l).
  now apply reverse_lookup.
Qed.

Lemma ParseUserpicsSlice_ids `{Externals} (photos : list MTPPhoto) :
  map Photo_id (UserpicsSlice_list (ParseUserpicsSlice photos)) =
  map MTPPhoto_id photos.
Proof.
  unfold ParseUserpicsSlice. simpl.
  rewrite map_map. apply map_ext. intros [id|id date sizes]; reflexivity.
Qed.

(** C5 (as stated, refuted).  A batch of two user photos comes out of
    [ParseUserpicsSlice] in the order of the wire, not reversed. *)
Lemma C5_userpics_keep_wire_order :
  let wire := [MTP_photo 11 100 []; MTP_photo 12 200 []] in
  let parsed :=
    UserpicsSlice_list (@ParseUserpicsSlice sample_externals wire) in
  map Photo_id parsed = [11; 12] /\
  map Photo_id parsed <> rev (map MTPPhoto_id wire).
Proof. split; [reflexivity | discriminate]. Qed.

(** C5 (amended).  A batch of messages is reversed on arrival: the
    message at wire position [i] of [n] is parsed into position
    [n - 1 - i] of the slice.  A batch of user photos is not: the photo
    at wire position [i] is parsed into position [i] of the slice. *)
Theorem C5_slice_order `{Externals}
    (photos : list MTPPhoto) (messages : list MTPMessage)
    (users : list MTPUser) (chats : list MTPChat) (mediaFolder : string) :
  let slice := ParseMessagesSlice messages users chats mediaFolder in
  let userpics := ParseUserpicsSlice photos in
  MessagesSlice_list slice =
    rev (map (fun m => ParseMessage m mediaFolder) messages) /\
  length (MessagesSlice_list slice) = length messages /\
  (forall (i : nat) (m : MTPMessage),
     messages !! i = Some m ->
     MessagesSlice_list slice !! (length messages - 1 - i)%nat =
     Some (ParseMessage m mediaFolder)) /\
  length (UserpicsSlice_list userpics) = length photos /\
  (forall (i : nat) (photo : MTPPhoto),
     photos !! i = Some photo ->
     Photo_id <$> (UserpicsSlice_list userpics !! i) =
     Some (MTPPhoto_id photo)).
Proof.
  intros slice userpics. split; [reflexivity|]. split; [|split; [|split]].
  - unfold slice, ParseMessagesSlice. simpl.
    now rewrite length_rev, length_map.
  - intros i m Hi. unfold slice, ParseMessagesSlice. simpl.
    pose proof (lookup_lt_Some _ _ _ Hi) as Hlt.
    rewrite rev_lookup by (rewrite length_map; lia).
    rewrite length_map, list_lookup_fmap.
    replace (length messages - S (length messages - 1 - i))%nat with i by lia.
    now rewrite Hi.
  - unfold userpics, ParseUserpicsSlice. simpl. apply length_map.
  - intros i photo Hi.
    rewrite <- list_lookup_fmap.
    change (fmap Photo_id (UserpicsSlice_list userpics))
      with (map Photo_id (UserpicsSlice_list userpics)).
    unfold userpics. rewrite ParseUserpicsSlice_ids.
    change (map MTPPhoto_id photos) with (MTPPhoto_id <$> photos).
    now rewrite list_lookup_fmap, Hi.
Qed.

Lemma C5_slice_order_witness :
  let m1 := mkMessage 1 10 0 "old" (mkMedia ContentNone 0) ActionNone in
  let m2 := mkMessage 2 20 0 "new" (mkMedia ContentNone 0) ActionNone in
  MessagesSlice_list
    (@ParseMessagesSlice sample_externals [m2; m1] [] [] "") !! 0%nat
  = Some m1.
Proof.
  intros m1 m2.
  destruct (@C5_slice_order sample_externals [] [m2; m1] [] [] "")
    as (_ & _ & Hrev & _).
  apply (Hrev 1%nat m1). reflexivity.
Defined.

End Slices.

(* --------------------------------------------------------------------- *)
(** ** File names *)
(* --------------------------------------------------------------------- *)

Section FileNames.
Local Open Scope Z_scope.

Lemma fold_replace (l : list QChar) : forall name : QString,
  fold_left (fun name ch => QString_replace name ch underscore) l name =
  map (fun c => if bool_decide (c ∈ l) then underscore else c) name.
Proof.
  induction l as [|ch l IH]; intros name; simpl.
  - symmetry. erewrite map_ext; [apply map_id|]. intros c. reflexivity.
  - rewrite IH. unfold QString_replace. rewrite map_map.
    apply map_ext. intros c.
    destruct (decide (c = ch)) as [->|Hne].
    + rewrite (bool_decide_eq_true_2 (ch ∈ ch :: l)) by apply list_elem_of_here.
      now destruct (bool_decide _).
    + destruct (decide (c ∈ l)) as [Hin|Hnin].
      * rewrite !bool_decide_eq_true_2; [reflexivity | | assumption].
        now apply list_elem_of_further.
      * rewrite !bool_decide_eq_false_2; [reflexivity | | assumption].
        intros [?|?]%elem_of_cons; contradiction.
Qed.

Lemma replace_controls_map os name :
  replace_controls os name = map (cleaned_char os) name.
Proof. unfold replace_controls. apply fold_replace. Qed.

Lemma underscore_not_control os : underscore ∉ controls os.
Proof. destruct os; apply (bool_decide_unpack _); vm_compute; exact I. Qed.

Lemma mask_not_control os c :
  c ∈ controls os -> c ∉ kMaskExtension.
Proof.
  revert c. apply Forall_forall.
  destruct os; apply (bool_decide_unpack _); vm_compute; exact I.
Qed.

Lemma cleaned_char_not_control os c x :
  c ∈ controls os -> cleaned_char os x <> c.
Proof.
  intros Hc Heq. unfold cleaned_char in Heq.
  case_bool_decide as Hx.
  - subst c. now apply (underscore_not_control os).
  - subst c. contradiction.
Qed.

Lemma replace_controls_clean os name c :
  c ∈ controls os -> c ∉ replace_controls os name.
Proof.
  intros Hc Hin. rewrite replace_controls_map in Hin.
  apply list_elem_of_fmap in Hin as (x & Hx & _).
  symmetry in Hx. now apply cleaned_char_not_control in Hx.
Qed.

(** A name that ends in [.download] ends in no bad extension. *)
Lemma masked_not_bad (name ext : QString) :
  ext ∈ kBadExtensions ->
  QString_endsWith (name ++ kMaskExtension) ext = false.
Proof.
  intros Hext. unfold QString_endsWith.
  apply bool_decide_eq_false_2. intros Hsuf.
  assert (Hlen : (length ext <= length kMaskExtension)%nat).
  { apply elem_of_cons in Hext as [->|Hext]; [vm_compute; lia|].
    apply elem_of_cons in Hext as [->|Hext]; [vm_compute; lia|].
    inversion Hext. }
  assert (Hsuf' : ext `suffix_of` kMaskExtension).
  { destruct Hsuf as [k Hk].
    apply app_eq_app in Hk as [l [[-> Hl]|[-> Hl]]].
    - assert (l = []) as ->.
      { apply (f_equal (@length _)) in Hl. rewrite length_app in Hl.
        destruct l as [|c l]; [reflexivity|].
        rewrite length_cons in Hl. lia. }
      simpl in Hl. subst ext. reflexivity.
    - exists l. exact Hl. }
  revert Hsuf'.
  apply elem_of_cons in Hext as [->|Hext];
    [apply (bool_decide_unpack _); vm_compute; exact I|].
  apply elem_of_cons in Hext as [->|Hext];
    [apply (bool_decide_unpack _); vm_compute; exact I|].
  inversion Hext.
Qed.

Lemma mask_bad_extension_cases (extensions : list QString)
    (lower name : QString) :
  ((exists ext, ext ∈ extensions /\ QString_endsWith lower ext = true) /\
   mask_bad_extension extensions lower name = name ++ kMaskExtension) \/
  ((forall ext, ext ∈ extensions -> QString_endsWith lower ext = false) /\
   mask_bad_extension extensions lower name = name).
Proof.
  induction extensions as [|extension rest IH]; simpl.
  - right. split; [|reflexivity]. intros ext Hext. inversion Hext.
  - destruct (QString_endsWith lower extension) eqn:Hends.
    + left. split; [|reflexivity]. exists extension.
      split; [apply list_elem_of_here | exact Hends].
    + destruct IH as [[(ext & Hext & Hm) Hres]|[Hnone Hres]].
      * left. split; [|exact Hres]. exists ext.
        split; [now apply list_elem_of_further | exact Hm].
      * right. split; [|exact Hres].
        intros ext [->|Hext]%elem_of_cons; [exact Hends | now apply Hnone].
Qed.

(** The cleaned name is the name with its controls replaced, followed
    by the mask extension exactly when the lowered, trimmed name ends in
    a dangerous extension of the platform. *)
Lemma CleanDocumentName_cases `{QStringOps} (os : Platform) (name : QString) :
  let replaced := replace_controls os name in
  let lower := QString_toLower (QString_trimmed replaced) in
  ((exists ext, ext ∈ badExtensions os /\ QString_endsWith lower ext = true) /\
   CleanDocumentName os name = replaced ++ kMaskExtension) \/
  ((forall ext, ext ∈ badExtensions os -> QString_endsWith lower ext = false) /\
   CleanDocumentName os name = replaced).
Proof.
  intros replaced lower. unfold CleanDocumentName.
  fold replaced. fold lower.
  destruct os; cbn [badExtensions];
    try (right; split; [intros ext Hext; inversion Hext | reflexivity]).
  apply mask_bad_extension_cases.
Qed.

(** The characters of a dangerous extension are not replaced. *)
Lemma bad_extension_kept os ext :
  ext ∈ kBadExtensions -> map (cleaned_char os) ext = ext.
Proof.
  intros [->|[->|Hext]%elem_of_cons]%elem_of_cons;
    [destruct os; vm_compute; reflexivity ..|inversion Hext].
Qed.

(** A name that ends in a dangerous extension still does after the
    replacement of the controls. *)
Lemma replace_controls_keeps_extension os (name ext : QString) :
  ext ∈ kBadExtensions ->
  ext `suffix_of` name -> ext `suffix_of` replace_controls os name.
Proof.
  intros Hext [k ->]. rewrite replace_controls_map, map_app.
  rewrite (bad_extension_kept os ext Hext). now exists (map (cleaned_char os) k).
Qed.

(** C10 (as stated, refuted).  U+202C, POP DIRECTIONAL FORMATTING, is a
    bidirectional control character, and a name that contains it comes
    out of [CleanDocumentName] unchanged on every platform. *)
Lemma C10_pop_directional_formatting_kept :
  let name := qstr "a" ++ [0x202C] ++ qstr "b.txt" in
  0x202C ∈ Bidi_Control /\
  @CleanDocumentName sample_ops Q_OS_WIN name = name /\
  @CleanDocumentName sample_ops Q_OS_MAC name = name /\
  @CleanDocumentName sample_ops Q_OS_LINUX name = name /\
  @CleanDocumentName sample_ops Q_OS_OTHER name = name.
Proof.
  split; [apply (bool_decide_unpack _); vm_compute; exact I|].
  repeat split; vm_compute; reflexivity.
Qed.

(** C10 (amended).  On every platform the cleaned name carries, at each
    position of the name, an underscore where the name has one of the
    characters of [controls] and the character of the name otherwise;
    the eight characters LTR/RTL mark, embedding, override and isolate
    are among [controls], and no character of [controls] is left in the
    cleaned name.  If the lowered, trimmed name ends in a dangerous
    extension of the platform, the cleaned name is the replaced name
    followed by [.download] and ends in no dangerous extension; if it
    ends in none, nothing is appended.  In particular, when Qt's
    [trimmed] and [toLower] keep a dangerous extension at the end of a
    string, every name that ends in such an extension is masked. *)
Theorem C10_clean_document_name `{QStringOps}
    (os : Platform) (name : QString) :
  let replaced := replace_controls os name in
  let lower := QString_toLower (QString_trimmed replaced) in
  let cleaned := CleanDocumentName os name in
  (forall (i : nat) (c : QChar),
     name !! i = Some c -> cleaned !! i = Some (cleaned_char os c)) /\
  (forall c : QChar, c ∈ directional_marks -> c ∈ controls os) /\
  (forall c : QChar, c ∈ controls os -> c ∉ cleaned) /\
  (forall ext : QString,
     ext ∈ badExtensions os ->
     QString_endsWith lower ext = true ->
     cleaned = replaced ++ kMaskExtension /\
     forall ext' : QString,
       ext' ∈ badExtensions os -> QString_endsWith cleaned ext' = false) /\
  ((forall ext : QString,
      ext ∈ badExtensions os -> QString_endsWith lower ext = false) ->
   cleaned = replaced) /\
  ((forall t ext : QString,
      ext ∈ badExtensions os -> ext `suffix_of` t ->
      QString_endsWith (QString_toLower (QString_trimmed t)) ext = true) ->
   forall ext : QString,
     ext ∈ badExtensions os -> ext `suffix_of` name ->
     cleaned = replaced ++ kMaskExtension /\
     forall ext' : QString,
       ext' ∈ badExtensions os -> QString_endsWith cleaned ext' = false).
Proof.
  cbv zeta.
  pose proof (CleanDocumentName_cases os name) as Hcases.
  cbv zeta in Hcases.
  set (replaced := replace_controls os name) in *.
  set (lower := QString_toLower (QString_trimmed replaced)) in *.
  set (cleaned := CleanDocumentName os name) in *.
  assert (Hshape : exists tail,
             cleaned = replaced ++ tail /\ (tail = [] \/ tail = kMaskExtension)).
  { destruct Hcases as [[_ ->]|[_ ->]].
    - exists kMaskExtension. auto.
    - exists []. rewrite app_nil_r. auto. }
  destruct Hshape as (tail & Hcleaned & Htail).
  assert (Hmask : forall ext : QString,
     ext ∈ badExtensions os ->
     QString_endsWith lower ext = true ->
     cleaned = replaced ++ kMaskExtension /\
     forall ext' : QString,
       ext' ∈ badExtensions os -> QString_endsWith cleaned ext' = false).
  { intros ext Hext Hends.
    destruct Hcases as [[_ Hres]|[Hnone _]].
    + split; [exact Hres|]. intros ext' Hext'. rewrite Hres.
      apply masked_not_bad. destruct os; try (inversion Hext'; fail).
      exact Hext'.
    + rewrite (Hnone ext Hext) in Hends. discriminate. }
  split; [|split; [|split; [|split; [|split]]]].
  - intros i c Hi. rewrite Hcleaned.
    rewrite lookup_app_l.
    + unfold replaced. rewrite replace_controls_map.
      change (map (cleaned_char os) name) with (cleaned_char os <$> name).
      now rewrite list_lookup_fmap, Hi.
    + unfold replaced. rewrite replace_controls_map, length_map.
      now apply lookup_lt_Some in Hi.
  - intros c Hc. unfold controls. apply elem_of_app. now left.
  - intros c Hc. rewrite Hcleaned. intros [Hin|Hin]%elem_of_app.
    + now apply (replace_controls_clean os name c).
    + destruct Htail as [->| ->]; [inversion Hin|].
      now apply (mask_not_control os c).
  - exact Hmask.
  - intros Hnone. destruct Hcases as [[(ext & Hext & Hends) _]|[_ Hres]].
    + rewrite (Hnone ext Hext) in Hends. discriminate.
    + exact Hres.
  - intros Hqt ext Hext Hsuffix. apply (Hmask ext Hext).
    apply (Hqt replaced ext Hext).
    apply replace_controls_keeps_extension; [|exact Hsuffix].
    destruct os; try (inversion Hext; fail). exact Hext.
Qed.

Lemma C10_clean_document_name_witness :
  let name := qstr "Fil" ++ [0x202E] ++ qstr "gepj.LNK  " in
  @CleanDocumentName sample_ops Q_OS_WIN name =
  qstr "Fil_gepj.LNK  .download".
Proof.
  intros name.
  destruct (@C10_clean_document_name sample_ops Q_OS_WIN name)
    as (_ & _ & _ & Hmask & _ & _).
  destruct (Hmask (qstr ".lnk")) as [Hcleaned _].
  - apply (bool_decide_unpack _). vm_compute. exact I.
  - vm_compute. reflexivity.
  - rewrite Hcleaned. vm_compute. reflexivity.
Defined.

End FileNames.

(* --------------------------------------------------------------------- *)
(** ** One file: resolution and chunk answers *)
(* --------------------------------------------------------------------- *)

Section FileTransfer.
Context `{Externals} `{FileSystem}.
Local Open Scope Z_scope.

Lemma bind_Ok {A B} (m : Result A) (f : A -> Result B) (b : B) :
  m ≫= f = Ok b -> exists a, m = Ok a /\ f a = Ok b.
Proof. destruct m as [a|what]; [eauto | discriminate]. Qed.

Lemma Expects_Ok (condition : bool) (what : string) :
  Expects condition what = Ok tt -> condition = true.
Proof. destruct condition; [reflexivity | discriminate]. Qed.

(** [loadFilePart] on a transfer whose queue is below the bound and
    that has bytes left to ask for. *)
Lemma loadFilePart_sends (s : State) (process : FileProcess) (takeoutId : Z) :
  _fileProcess s = Some process ->
  _takeoutId s = Some takeoutId ->
  dcId (FileProcess_location process) <> 0 ->
  (length (FileProcess_requests process) < 2)%nat ->
  (FileProcess_size process > 0 ->
   FileProcess_offset process < FileProcess_size process) ->
  loadFilePart s =
  Ok (set_fileProcess
        (Some (FileProcess_set_offset
                 (FileProcess_set_requests process
                    (FileProcess_requests process ++
                     [mkRequest (FileProcess_offset process) []]))
                 (to_int32 (FileProcess_offset process + kFileChunkSize))))
        (send (mkSent (Some takeoutId)
                 (dcId (FileProcess_location process)) true
                 (MTPupload_GetFile (data (FileProcess_location process))
                    (FileProcess_offset process) kFileChunkSize))
              (set_fileProcess
                 (Some (FileProcess_set_requests process
                          (FileProcess_requests process ++
                           [mkRequest (FileProcess_offset process) []])))
                 s))).
Proof.
  intros Hp Ht Hdc Hlen Hsize.
  unfold loadFilePart. rewrite Hp.
  rewrite (bool_decide_eq_false_2 (_ >= kFileRequestsCount))
    by (unfold kFileRequestsCount; lia).
  rewrite orb_false_l.
  assert (Hcond : bool_decide (FileProcess_size process > 0)
                  && bool_decide (FileProcess_offset process
                                  >= FileProcess_size process) = false).
  { case_bool_decide as Hs; [|reflexivity].
    rewrite bool_decide_eq_false_2; [reflexivity | specialize (Hsize Hs); lia]. }
  rewrite Hcond.
  unfold fileRequest. cbn [FileProcess_location FileProcess_set_requests].
  apply Z.eqb_neq in Hdc. rewrite Hdc.
  cbn [negb Expects mbind Result_bind _takeoutId set_fileProcess].
  rewrite Ht. reflexivity.
Qed.

(** [loadFilePart] does nothing when the queue is full or everything
    has been asked for. *)
Lemma loadFilePart_idle (s : State) (process : FileProcess) :
  _fileProcess s = Some process ->
  (2 <= length (FileProcess_requests process))%nat \/
  0 < FileProcess_size process <= FileProcess_offset process ->
  loadFilePart s = Ok s.
Proof.
  intros Hp Hcond. unfold loadFilePart. rewrite Hp.
  destruct Hcond as [Hlen|Hsize].
  - rewrite (bool_decide_eq_true_2 (_ >= kFileRequestsCount))
      by (unfold kFileRequestsCount; lia).
    reflexivity.
  - rewrite (bool_decide_eq_true_2 (FileProcess_size process > 0)) by lia.
    rewrite (bool_decide_eq_true_2 (_ >= FileProcess_size process)) by lia.
    rewrite orb_true_r. reflexivity.
Qed.

Lemma loadFile_starts (file : File) (done : FileDone) (s : State)
    (settings : Settings) (takeoutId : Z) :
  _settings s = Some settings ->
  _takeoutId s = Some takeoutId ->
  _fileProcess s = None ->
  FileLocation_valid (File_location file) = true ->
  exists s', loadFile file done s = Ok s' /\
             in_flight s' = 1%nat /\
             _errors s' = _errors s /\
             callbacks s' = callbacks s.
Proof.
  intros Hsettings Htakeout Hnone Hvalid.
  unfold loadFile, prepareFileProcess. rewrite Hnone, Hsettings.
  unfold FileLocation_valid in Hvalid. rewrite Hvalid.
  rewrite bool_decide_eq_true_2 by reflexivity.
  cbn [Expects mbind Result_bind].
  set (process := FileProcess_set_done _ done).
  rewrite (loadFilePart_sends _ process takeoutId).
  - eexists. split; [reflexivity|]. repeat split; reflexivity.
  - reflexivity.
  - exact Htakeout.
  - apply negb_true_iff, Z.eqb_neq in Hvalid. exact Hvalid.
  - cbn. lia.
  - cbn. lia.
Qed.

Lemma isEmpty_true (t : string) : isEmpty t = true <-> t = "".
Proof. destruct t; simpl; split; congruence. Qed.

(** [writePreloadedFile] on a file without inline content. *)
Lemma writePreloadedFile_plain (file : File) (s : State)
    (settings : Settings) :
  _settings s = Some settings ->
  File_content file = [] ->
  writePreloadedFile file s =
  match find (_fileCache s) (File_location file) with
  | Some path => Ok (true, File_set_relativePath file path, s)
  | None => Ok (false, file, s)
  end.
Proof.
  intros Hsettings Hcontent. unfold writePreloadedFile.
  rewrite Hsettings, Hcontent.
  rewrite bool_decide_eq_true_2 by discriminate.
  cbn [Expects mbind Result_bind].
  destruct (find _ _); reflexivity.
Qed.

Lemma writePreloadedFile_cached (file : File) (s : State)
    (settings : Settings) (path : string) :
  _settings s = Some settings ->
  find (_fileCache s) (File_location file) = Some path ->
  writePreloadedFile file s = Ok (true, File_set_relativePath file path, s).
Proof.
  intros Hsettings Hfind. unfold writePreloadedFile.
  rewrite Hsettings, Hfind.
  rewrite bool_decide_eq_true_2 by discriminate.
  reflexivity.
Qed.

(** [processFileLoad] past the cache, on a file without inline
    content. *)
Lemma processFileLoad_plain (file : File) (done : FileDone)
    (message : option Message) (s : State) (settings : Settings) :
  _settings s = Some settings ->
  File_relativePath file = "" ->
  FileLocation_valid (File_location file) = true ->
  find (_fileCache s) (File_location file) = None ->
  File_content file = [] ->
  let type := MediaType.flag (media_type message) in
  processFileLoad file done message s =
  if bool_decide (Z.land (Settings_media_types settings) type <> type)
  then Ok (true, File_set_skipReason file SkipReason.FileType, s)
  else if bool_decide (File_size file >= Settings_media_sizeLimit settings)
  then Ok (true, File_set_skipReason file SkipReason.FileSize, s)
  else s' ← loadFile file done s; Ok (false, file, s').
Proof.
  intros Hsettings Hpath Hvalid Hcached Hcontent type.
  unfold processFileLoad.
  rewrite (proj2 (isEmpty_true _) Hpath), Hvalid.
  cbn [negb].
  rewrite (writePreloadedFile_plain file s settings) by assumption.
  rewrite Hcached.
  cbn [mbind Result_bind]. rewrite Hsettings. reflexivity.
Qed.

Lemma in_flight_messages_store_file (index : Z) (file : File) (s : State) :
  in_flight (messages_store_file index file s) = in_flight s.
Proof.
  unfold messages_store_file, in_flight.
  destruct (_dialogsProcess s) as [process|]; [|reflexivity].
  destruct (DialogsProcess_single process) as [single|]; [|reflexivity].
  destruct (Single_slice single) as [slice|]; [|reflexivity].
  destruct (MessagesSlice_list slice !! Z.to_nat index); [|reflexivity].
  destruct (Message_set_file _ _ _). reflexivity.
Qed.

(** With a size limit of 1000 bytes and photos enabled, a photo of
    exactly 1000 bytes at a valid location does not exceed the limit
    and is skipped all the same, with the reason [FileSize]. *)
Lemma C9_file_at_the_limit_is_skipped :
  let file := sample_file 1000 in
  let s := @session_open sample_externals 5 in
  _settings s = Some sample_settings /\
  ~ (File_size file > Settings_media_sizeLimit sample_settings) /\
  Z.land (Settings_media_types sample_settings)
         (MediaType.flag (media_type None)) =
    MediaType.flag (media_type None) /\
  FileLocation_valid (File_location file) = true /\
  @processFileLoad sample_externals sample_fs file DoneUserpic None s =
    Ok (true, File_set_skipReason file SkipReason.FileSize, s).
Proof.
  repeat split; try reflexivity.
  vm_compute. discriminate.
Qed.


End FileTransfer.

Section FileTransferExamples.
Local Open Scope Z_scope.



End FileTransferExamples.

(* --------------------------------------------------------------------- *)
(** ** Bounds on what is under way *)
(* --------------------------------------------------------------------- *)

Section Bounds.
Context `{Externals} `{FileSystem}.
Local Open Scope Z_scope.

Create HintDb safe discriminated.

(** Inversion of an equation [... = Ok _] along the shape of the
    left-hand side. *)
Ltac invert_ok :=
  repeat match goal with
  | H : Ok _ = Ok _ |- _ => injection H as H; subst
  | H : Fault _ = Ok _ |- _ => discriminate H
  | H : Expects ?c _ ≫= _ = Ok _ |- _ =>
      destruct c eqn:?; cbn [Expects mbind Result_bind] in H
  | H : _ ≫= _ = Ok _ |- _ =>
      let a := fresh "a" in
      let Ha := fresh "Ha" in
      apply bind_Ok in H as (a & Ha & H)
  | H : (match ?x with _ => _ end) = Ok _ |- _ => destruct x eqn:?
  | H : (_, _) = (_, _) |- _ => injection H as ? ?; subst
  end.

Lemma safe_set_settings v s : safe s -> safe (set_settings v s).
Proof. exact id. Qed.
Lemma safe_set_takeoutId v s : safe s -> safe (set_takeoutId v s).
Proof. exact id. Qed.
Lemma safe_set_userpicsProcess v s : safe s -> safe (set_userpicsProcess v s).
Proof. exact id. Qed.
Lemma safe_set_dialogsProcess v s : safe s -> safe (set_dialogsProcess v s).
Proof. exact id. Qed.
Lemma safe_set_fileCache v s : safe s -> safe (set_fileCache v s).
Proof. exact id. Qed.
Lemma safe_set_disk v s : safe s -> safe (set_disk v s).
Proof. exact id. Qed.
Lemma safe_set_static_files v s : safe s -> safe (set_static_files v s).
Proof. exact id. Qed.
Lemma safe_error e s : safe s -> safe (error e s).
Proof. exact id. Qed.
Lemma safe_error_text t s : safe s -> safe (error_text t s).
Proof. exact id. Qed.
Lemma safe_send r s : safe s -> safe (send r s).
Proof. exact id. Qed.
Lemma safe_call c s : safe s -> safe (call c s).
Proof. exact id. Qed.
Lemma safe_no_transfer s : safe (set_fileProcess None s).
Proof. unfold safe, in_flight. cbn. lia. Qed.

Hint Resolve safe_set_settings safe_set_takeoutId safe_set_userpicsProcess
  safe_set_dialogsProcess safe_set_fileCache safe_set_disk
  safe_set_static_files safe_error safe_error_text safe_send safe_call
  safe_no_transfer : safe.

Ltac keeps := invert_ok; eauto 12 with safe.

Lemma mainRequest_safe request s s' :
  mainRequest request s = Ok s' -> safe s -> safe s'.
Proof. unfold mainRequest. intros. keeps. Qed.
Hint Resolve mainRequest_safe : safe.

Lemma writeBlock_frame path block s success s' :
  writeBlock path block s = (success, s') ->
  _fileProcess s' = _fileProcess s.
Proof.
  unfold writeBlock. destruct (writeBlock_accepts _ _ _);
    intros [= <- <-]; reflexivity.
Qed.

Lemma writeBlock_safe path block s success s' :
  writeBlock path block s = (success, s') -> safe s -> safe s'.
Proof.
  intros Hw%writeBlock_frame. unfold safe, in_flight. now rewrite Hw.
Qed.
Hint Resolve writeBlock_safe : safe.

Lemma fileRequest_safe location offset s s' :
  fileRequest location offset s = Ok s' -> safe s -> safe s'.
Proof. unfold fileRequest. intros. keeps. Qed.
Hint Resolve fileRequest_safe : safe.

Lemma fileRequest_frame location offset s s' :
  fileRequest location offset s = Ok s' -> _fileProcess s' = _fileProcess s.
Proof. unfold fileRequest. intros. invert_ok. reflexivity. Qed.

(** [loadFilePart] leaves the queue alone or adds one request to a
    queue of fewer than two. *)
Lemma loadFilePart_in_flight s s' :
  loadFilePart s = Ok s' ->
  in_flight s' = in_flight s \/
  ((in_flight s < 2)%nat /\ in_flight s' = S (in_flight s)).
Proof.
  unfold loadFilePart. intros Hload.
  destruct (_fileProcess s) as [process|] eqn:Hprocess.
  - destruct (bool_decide (_ >= kFileRequestsCount)) eqn:Hfull.
    + cbn in Hload. invert_ok. now left.
    + rewrite orb_false_l in Hload.
      destruct (_ && _); invert_ok; [now left|].
      right. apply fileRequest_frame in Ha.
      unfold in_flight. cbn [_fileProcess set_fileProcess].
      rewrite Hprocess. cbn. rewrite length_app. cbn.
      apply bool_decide_eq_false_1 in Hfull.
      unfold kFileRequestsCount in Hfull. lia.
  - invert_ok. now left.
Qed.

Lemma loadFile_safe file done s s' :
  loadFile file done s = Ok s' -> safe s'.
Proof.
  unfold loadFile, prepareFileProcess. intros Hload. invert_ok.
  apply loadFilePart_in_flight in Hload. unfold safe.
  cbn in Hload. lia.
Qed.
Hint Resolve loadFile_safe : safe.

Lemma writePreloadedFile_safe file s ready file' s' :
  writePreloadedFile file s = Ok (ready, file', s') -> safe s -> safe s'.
Proof.
  unfold writePreloadedFile. intros Hw Hs. invert_ok; eauto with safe.
Qed.
Hint Resolve writePreloadedFile_safe : safe.

Lemma processFileLoad_safe file done message s ready file' s' :
  processFileLoad file done message s = Ok (ready, file', s') ->
  safe s -> safe s'.
Proof.
  unfold processFileLoad. intros Hp Hs.
  destruct (negb (isEmpty _)); [invert_ok; assumption|].
  destruct (negb (FileLocation_valid _)); [invert_ok; assumption|].
  apply bind_Ok in Hp as ([[preloaded file1] s1] & Hw & Hp).
  apply writePreloadedFile_safe in Hw; [|assumption].
  destruct preloaded; [invert_ok; assumption|].
  destruct (_settings s1); [|discriminate].
  destruct (bool_decide _); [invert_ok; assumption|].
  destruct (bool_decide _); [invert_ok; assumption|].
  invert_ok. eauto with safe.
Qed.
Hint Resolve processFileLoad_safe : safe.

Lemma userpics_set_fileIndex_safe index s s' :
  userpics_set_fileIndex index s = Ok s' -> safe s -> safe s'.
Proof. unfold userpics_set_fileIndex. intros. keeps. Qed.

Lemma userpics_store_file_safe index file s :
  safe s -> safe (userpics_store_file index file s).
Proof.
  unfold userpics_store_file. intros.
  repeat case_match; eauto with safe.
Qed.
Hint Resolve userpics_set_fileIndex_safe userpics_store_file_safe : safe.

Lemma loadNextUserpic_loop_safe rest : forall s exit s',
  loadNextUserpic_loop rest s = Ok (exit, s') -> safe s -> safe s'.
Proof.
  induction rest as [|photo rest IH]; intros s exit s' Hloop Hs;
    cbn [loadNextUserpic_loop] in Hloop.
  - invert_ok. eauto with safe.
  - destruct (_userpicsProcess s); [|discriminate].
    apply bind_Ok in Hloop as (s0 & Hs0 & Hloop).
    apply bind_Ok in Hloop as ([[ready file] s1] & Hload & Hloop).
    destruct ready.
    + eapply IH; [exact Hloop|]. eauto with safe.
    + invert_ok. eauto with safe.
Qed.
Hint Resolve loadNextUserpic_loop_safe : safe.

Lemma finishUserpics_safe s s' :
  finishUserpics s = Ok s' -> safe s -> safe s'.
Proof. unfold finishUserpics. intros. keeps. Qed.
Hint Resolve finishUserpics_safe : safe.

Lemma loadNextUserpic_safe s s' :
  loadNextUserpic s = Ok s' -> safe s -> safe s'.
Proof. unfold loadNextUserpic. intros. keeps. Qed.
Hint Resolve loadNextUserpic_safe : safe.

Lemma loadUserpicsFiles_safe slice s s' :
  loadUserpicsFiles slice s = Ok s' -> safe s -> safe s'.
Proof. unfold loadUserpicsFiles. intros. keeps. Qed.
Hint Resolve loadUserpicsFiles_safe : safe.

Lemma handleUserpicsSlice_safe result s s' :
  handleUserpicsSlice result s = Ok s' -> safe s -> safe s'.
Proof. unfold handleUserpicsSlice. intros. keeps. Qed.
Hint Resolve handleUserpicsSlice_safe : safe.

Lemma loadUserpicDone_safe relativePath s s' :
  loadUserpicDone relativePath s = Ok s' -> safe s -> safe s'.
Proof. unfold loadUserpicDone. intros. keeps. Qed.
Hint Resolve loadUserpicDone_safe : safe.

Lemma requestUserpics_safe s s' :
  requestUserpics s = Ok s' -> safe s -> safe s'.
Proof. unfold requestUserpics. intros. keeps. Qed.

Lemma requestUserpics_done_safe result s s' :
  requestUserpics_done result s = Ok s' -> safe s -> safe s'.
Proof. unfold requestUserpics_done. intros. keeps. Qed.
Hint Resolve requestUserpics_safe requestUserpics_done_safe : safe.

Lemma dialogs_set_single_safe single s s' :
  dialogs_set_single single s = Ok s' -> safe s -> safe s'.
Proof. unfold dialogs_set_single. intros. keeps. Qed.
Hint Resolve dialogs_set_single_safe : safe.

Lemma requestMessagesSlice_safe s s' :
  requestMessagesSlice s = Ok s' -> safe s -> safe s'.
Proof. unfold requestMessagesSlice. intros. keeps. Qed.
Hint Resolve requestMessagesSlice_safe : safe.

Lemma finishDialogs_safe s s' :
  finishDialogs s = Ok s' -> safe s -> safe s'.
Proof. unfold finishDialogs. intros. keeps. Qed.
Hint Resolve finishDialogs_safe : safe.

Lemma requestNextDialog_safe s s' :
  requestNextDialog s = Ok s' -> safe s -> safe s'.
Proof. unfold requestNextDialog. intros. keeps. Qed.
Hint Resolve requestNextDialog_safe : safe.

Lemma finishMessages_safe s s' :
  finishMessages s = Ok s' -> safe s -> safe s'.
Proof. unfold finishMessages. intros. keeps. Qed.
Hint Resolve finishMessages_safe : safe.

Lemma messages_store_file_safe index file s :
  safe s -> safe (messages_store_file index file s).
Proof.
  unfold messages_store_file. intros.
  repeat case_match; eauto with safe.
Qed.
Hint Resolve messages_store_file_safe : safe.

Lemma loadNextMessageFile_loop_safe rest : forall s exit s',
  loadNextMessageFile_loop rest s = Ok (exit, s') -> safe s -> safe s'.
Proof.
  induction rest as [|message rest IH]; intros s exit s' Hloop Hs;
    cbn [loadNextMessageFile_loop] in Hloop.
  - invert_ok. eauto with safe.
  - apply bind_Ok in Hloop as (process & Hprocess & Hloop).
    apply bind_Ok in Hloop as (s0 & Hs0 & Hloop).
    apply bind_Ok in Hloop as ([[ready file] s1] & Hload & Hloop).
    destruct ready.
    + eapply IH; [exact Hloop|]. eauto with safe.
    + invert_ok. eauto with safe.
Qed.
Hint Resolve loadNextMessageFile_loop_safe : safe.

Lemma loadNextMessageFile_safe s s' :
  loadNextMessageFile s = Ok s' -> safe s -> safe s'.
Proof. unfold loadNextMessageFile. intros. keeps. Qed.
Hint Resolve loadNextMessageFile_safe : safe.

Lemma loadMessagesFiles_safe slice s s' :
  loadMessagesFiles slice s = Ok s' -> safe s -> safe s'.
Proof. unfold loadMessagesFiles. intros. keeps. Qed.
Hint Resolve loadMessagesFiles_safe : safe.

Lemma loadMessageFileDone_safe relativePath s s' :
  loadMessageFileDone relativePath s = Ok s' -> safe s -> safe s'.
Proof. unfold loadMessageFileDone. intros. keeps. Qed.
Hint Resolve loadMessageFileDone_safe : safe.

Lemma requestMessagesSlice_done_safe result s s' :
  requestMessagesSlice_done result s = Ok s' -> safe s -> safe s'.
Proof. unfold requestMessagesSlice_done. intros. keeps. Qed.
Hint Resolve requestMessagesSlice_done_safe : safe.

Lemma requestDialogsSlice_safe s s' :
  requestDialogsSlice s = Ok s' -> safe s -> safe s'.
Proof. unfold requestDialogsSlice. intros. keeps. Qed.

Lemma appendDialogsSlice_safe info s s' :
  appendDialogsSlice info s = Ok s' -> safe s -> safe s'.
Proof. unfold appendDialogsSlice. intros. keeps. Qed.

Lemma fillDialogsPaths_safe s s' :
  fillDialogsPaths s = Ok s' -> safe s -> safe s'.
Proof. unfold fillDialogsPaths. intros. keeps. Qed.
Hint Resolve requestDialogsSlice_safe appendDialogsSlice_safe
  fillDialogsPaths_safe : safe.

Lemma finishDialogsList_safe s s' :
  finishDialogsList s = Ok s' -> safe s -> safe s'.
Proof. unfold finishDialogsList. intros. keeps. Qed.
Hint Resolve finishDialogsList_safe : safe.

Lemma requestDialogsSlice_done_safe result s s' :
  requestDialogsSlice_done result s = Ok s' -> safe s -> safe s'.
Proof.
  unfold requestDialogsSlice_done. intros Hdone Hs.
  destruct result; destruct (_ || _); keeps.
Qed.

Lemma requestDialogs_safe s s' :
  requestDialogs s = Ok s' -> safe s -> safe s'.
Proof. unfold requestDialogs. intros. keeps. Qed.
Hint Resolve requestDialogsSlice_done_safe requestDialogs_safe : safe.

Lemma filePartDone_finish_safe s s' :
  filePartDone_finish s = Ok s' -> safe s'.
Proof. unfold filePartDone_finish. intros. keeps. Qed.
Hint Resolve filePartDone_finish_safe : safe.

(** Filling the only request of a queue puts the bytes there. *)
Lemma fill_request_single offset bytes request filled :
  fill_request offset bytes [request] = Some filled ->
  filled = [mkRequest (Request_offset request) bytes].
Proof. cbn. case_decide; [now intros [= <-] | discriminate]. Qed.

Lemma write_ready_spec path requests : forall s success rest s',
  write_ready path requests s = (success, rest, s') ->
  _fileProcess s' = _fileProcess s /\
  (length rest <= length requests)%nat.
Proof.
  induction requests as [|front requests IH]; intros s success rest s';
    cbn [write_ready].
  - intros [= <- <- <-]. split; [reflexivity | lia].
  - destruct (is_empty (Request_bytes front)).
    + intros [= <- <- <-]. split; [reflexivity | lia].
    + destruct (writeBlock _ _ _) as [written s1] eqn:Hwrite.
      apply writeBlock_frame in Hwrite.
      destruct written.
      * intros Hrest. apply IH in Hrest as [Hframe Hlen].
        split; [congruence | cbn; lia].
      * intros [= <- <- <-]. split; [assumption | lia].
Qed.

(** A queue of one request whose bytes have arrived is empty after a
    write that went through. *)
Lemma write_ready_single path request s rest s' :
  is_empty (Request_bytes request) = false ->
  write_ready path [request] s = (true, rest, s') ->
  rest = [].
Proof.
  intros Hbytes. cbn [write_ready]. rewrite Hbytes.
  destruct (writeBlock _ _ _) as [[|] s1]; [|discriminate].
  now intros [= <- <-].
Qed.

Lemma filePartDone_safe offset result s s' :
  filePartDone offset result s = Ok s' -> safe s -> safe s'.
Proof.
  unfold filePartDone. intros Hdone Hs.
  destruct (_fileProcess s) as [process|] eqn:Hprocess; [|discriminate].
  destruct (is_empty (FileProcess_requests process)) eqn:Hqueue;
    [discriminate|].
  cbn [negb Expects mbind Result_bind] in Hdone.
  destruct result as [bytes|]; [|invert_ok; eauto with safe].
  destruct (is_empty bytes) eqn:Hbytes.
  { destruct (bool_decide _); invert_ok; eauto with safe. }
  destruct (fill_request offset bytes _) as [filled|] eqn:Hfill;
    [|discriminate].
  destruct (write_ready _ filled s) as [[success rest] s1] eqn:Hwrite.
  assert (Hone : exists request, FileProcess_requests process = [request]).
  { unfold safe, in_flight in Hs. rewrite Hprocess in Hs.
    destruct (FileProcess_requests process) as [|request [|? ?]];
      [discriminate | eauto | cbn in Hs; lia]. }
  destruct Hone as [request Hone]. rewrite Hone in Hfill.
  apply fill_request_single in Hfill. subst filled.
  destruct success; cbn [negb] in Hdone.
  - apply write_ready_single in Hwrite; [|exact Hbytes]. subst rest.
    cbn [is_empty negb orb] in Hdone.
    destruct (_ || _).
    + apply loadFilePart_in_flight in Hdone.
      unfold safe. cbn in Hdone. lia.
    + eauto with safe.
  - apply write_ready_spec in Hwrite as [_ Hlen].
    invert_ok. apply safe_error_text.
    unfold safe, in_flight. cbn in *. lia.
Qed.
Hint Resolve filePartDone_safe : safe.

Lemma step_safe e s s' : step e s = Ok s' -> safe s -> safe s'.
Proof.
  destruct e; cbn [step]; intros Hstep Hs;
    unfold startExport, startMainSession, requestPersonalInfo,
      requestContacts, requestSessions, startMainSession_done,
      requestPersonalInfo_done in Hstep;
    keeps.
Qed.

(** In every reachable state at most one chunk request is in flight. *)
Lemma reachable_safe s : reachable s -> safe s.
Proof.
  induction 1 as [|e s s' _ IH Hstep].
  - unfold safe. cbn. lia.
  - eapply step_safe; eassumption.
Qed.

Lemma run_reachable events : forall s s',
  reachable s -> run events s = Ok s' -> reachable s'.
Proof.
  induction events as [|e events IH]; intros s s' Hs Hrun; cbn in Hrun.
  - now invert_ok.
  - apply bind_Ok in Hrun as (s1 & Hstep & Hrun).
    eapply IH; [|exact Hrun]. eapply reachable_step; eassumption.
Qed.

End Bounds.

Section BoundsClaims.
Context `{Externals} `{FileSystem}.
Local Open Scope Z_scope.

(** C8 (amended).  In every reachable state at most one chunk request
    of the active file transfer is in flight, which is within the bound
    [kFileRequestsCount = 2].  There is one slot for a file transfer,
    and starting a transfer while one is active fails its precondition.
    There is one slot for the user-photo process and one for the dialogs
    process; asking for either while it is active fails its
    precondition; nothing keeps the two from being active together. *)
Theorem C8_concurrency_bounds :
  (forall s : State,
     reachable s ->
     (in_flight s <= 1)%nat /\ Z.of_nat (in_flight s) <= kFileRequestsCount) /\
  (forall (s : State) (file : File) (done : FileDone) (process : FileProcess),
     _fileProcess s = Some process ->
     loadFile file done s = Fault "Expects(_fileProcess == nullptr)") /\
  (forall (s : State) (process : UserpicsProcess),
     _userpicsProcess s = Some process ->
     requestUserpics s = Fault "Expects(_userpicsProcess == nullptr)") /\
  (forall (s : State) (process : DialogsProcess),
     _dialogsProcess s = Some process ->
     requestDialogs s = Fault "Expects(_dialogsProcess == nullptr)") /\
  (forall s : State, (active_paginated s <= 2)%nat).
Proof.
  split; [|split; [|split; [|split]]].
  - intros s Hs. apply reachable_safe in Hs. unfold safe in Hs.
    unfold kFileRequestsCount. lia.
  - intros s file done process Hactive. unfold loadFile.
    rewrite Hactive. reflexivity.
  - intros s process Hactive. unfold requestUserpics.
    rewrite Hactive. reflexivity.
  - intros s process Hactive. unfold requestDialogs.
    rewrite Hactive. reflexivity.
  - intros s. unfold active_paginated.
    destruct (_userpicsProcess s), (_dialogsProcess s); cbn; lia.
Qed.

(** C7.  With a transfer active and requests in flight, a chunk answer
    that is a CDN redirect fires exactly one error and changes nothing
    else: no request is sent, the transfer stays as it is (it does not
    complete, its closure is not called).  The same holds for an answer
    with empty bytes while the size of the transfer is known and not
    zero.  In a reachable state the answered request was the only one
    in flight, so that no answer is left that could carry the transfer
    on. *)
Theorem C7_redirect_and_empty_bytes (offset : Z) (s : State)
    (process : FileProcess) :
  _fileProcess s = Some process ->
  FileProcess_requests process <> [] ->
  let changes_only_errors (e : RPCError) (s' : State) :=
    s' = error e s /\
    _errors s' = _errors s ++ [e] /\
    sent s' = sent s /\
    callbacks s' = callbacks s /\
    _fileProcess s' = Some process /\
    _fileCache s' = _fileCache s /\
    disk s' = disk s in
  (exists s' : State,
     filePartDone offset MTP_upload_fileCdnRedirect s = Ok s' /\
     changes_only_errors
       (mkRPCError 0 "API_ERROR: Cdn redirect is not supported.") s') /\
  (FileProcess_size process > 0 ->
   exists s' : State,
     filePartDone offset (MTP_upload_file []) s = Ok s' /\
     changes_only_errors
       (mkRPCError 0 "API_ERROR: Empty bytes received in file part.") s') /\
  (reachable s -> length (FileProcess_requests process) = 1%nat).
Proof.
  intros Hprocess Hrequests changes_only_errors.
  assert (Hexpects :
    Expects (negb (is_empty (FileProcess_requests process)))
      "Expects(!_fileProcess->requests.empty())" = Ok tt).
  { destruct (FileProcess_requests process); [contradiction | reflexivity]. }
  split; [|split].
  - eexists. split.
    + unfold filePartDone. rewrite Hprocess, Hexpects. reflexivity.
    + unfold changes_only_errors. repeat split; try reflexivity.
      exact Hprocess.
  - intros Hsize. eexists. split.
    + unfold filePartDone. rewrite Hprocess, Hexpects.
      cbn [mbind Result_bind is_empty].
      rewrite bool_decide_eq_true_2 by lia. reflexivity.
    + unfold changes_only_errors. repeat split; try reflexivity.
      exact Hprocess.
  - intros Hreach. apply reachable_safe in Hreach.
    unfold safe, in_flight in Hreach. rewrite Hprocess in Hreach.
    destruct (FileProcess_requests process); [contradiction|].
    cbn in *. lia.
Qed.

End BoundsClaims.

Section BoundsExamples.
Local Open Scope Z_scope.

(** C8 (as stated, refuted).  A caller that asks for the user photos
    and then, before they are through, for the dialogs gets both
    paginated processes active at once. *)
Lemma C8_two_paginated_processes_active :
  exists s : State,
    @run sample_externals sample_fs
      [CallStartExport sample_settings; TakeoutAnswer 5;
       CallRequestUserpics; CallRequestDialogs] ApiWrap_new = Ok s /\
    @reachable sample_externals sample_fs s /\
    active_paginated s = 2%nat.
Proof.
  eexists. split; [vm_compute; reflexivity|]. split.
  - apply (@run_reachable sample_externals sample_fs
             [CallStartExport sample_settings; TakeoutAnswer 5;
              CallRequestUserpics; CallRequestDialogs] ApiWrap_new);
      [apply reachable_new | vm_compute; reflexivity].
  - reflexivity.
Qed.

Lemma C8_concurrency_bounds_witness :
  exists s : State,
    @run sample_externals sample_fs
      [CallStartExport sample_settings; TakeoutAnswer 5;
       CallRequestUserpics;
       FirstUserpicsAnswer
         (MTP_photos_photos
            [MTP_photo 1 100
               [MTP_photoSize (MTP_fileLocation 2 7 1 9) 10 10 900]])]
      ApiWrap_new = Ok s /\
    in_flight s = 1%nat /\
    (in_flight s <= 1)%nat.
Proof.
  destruct (@C8_concurrency_bounds sample_externals sample_fs)
    as [Hbound _].
  eexists. split; [vm_compute; reflexivity|]. split; [reflexivity|].
  apply Hbound.
  apply (@run_reachable sample_externals sample_fs
           [CallStartExport sample_settings; TakeoutAnswer 5;
            CallRequestUserpics;
            FirstUserpicsAnswer
              (MTP_photos_photos
                 [MTP_photo 1 100
                    [MTP_photoSize (MTP_fileLocation 2 7 1 9) 10 10 900]])]
           ApiWrap_new);
    [apply reachable_new | vm_compute; reflexivity].
Defined.

Lemma C7_redirect_and_empty_bytes_witness :
  let s := @three_in_flight sample_externals 300000 in
  _errors s = [] /\
  exists s' : State,
    @filePartDone sample_externals sample_fs 0 MTP_upload_fileCdnRedirect s
      = Ok s' /\
    _errors s' = [mkRPCError 0 "API_ERROR: Cdn redirect is not supported."] /\
    sent s' = sent s.
Proof.
  intros s. split; [reflexivity|].
  destruct (@C7_redirect_and_empty_bytes sample_externals sample_fs 0 s
              (mkFileProcess "/export/Photos/photo.jpg" "Photos/photo.jpg"
                 (Some DoneUserpic)
                 (mkFileLocation 2 (MTP_inputFileLocation 7 1 9))
                 (3 * kFileChunkSize) 300000
                 [mkRequest 0 []; mkRequest kFileChunkSize [];
                  mkRequest (2 * kFileChunkSize) []]))
    as [(s' & Hs' & _ & Herrors & Hsent & _) _].
  - reflexivity.
  - discriminate.
  - exists s'. split; [exact Hs'|]. split; [exact Herrors | exact Hsent].
Defined.

End BoundsExamples.

(* --------------------------------------------------------------------- *)
(** ** Reassembly of a file from its chunks *)
(* --------------------------------------------------------------------- *)

Section Reassembly.
Context `{Externals} `{FileSystem}.
Local Open Scope Z_scope.

Lemma bind_Ok_r {A} (m : Result A) : m ≫= (fun a => Ok a) = m.
Proof. now destruct m. Qed.

Lemma is_empty_false {A} (l : list A) : l <> [] -> is_empty l = false.
Proof. destruct l; [contradiction | reflexivity]. Qed.

Lemma file_content_set_disk path content d s :
  file_content path (set_disk (<[path := content]> d) s) = content.
Proof. unfold file_content. cbn. now rewrite lookup_insert_eq. Qed.

(** The head of the queue has its bytes and the file system takes
    them: they are appended to the file and the loop goes on. *)
Lemma write_ready_write path front rest s :
  Request_bytes front <> [] ->
  writeBlock_accepts path (file_content path s) (Request_bytes front) = true ->
  write_ready path (front :: rest) s =
  write_ready path rest
    (set_disk (<[path := file_content path s ++ Request_bytes front]> (disk s))
       s).
Proof.
  intros Hbytes Haccepts. cbn [write_ready].
  rewrite (is_empty_false _ Hbytes).
  unfold writeBlock. fold (file_content path s). rewrite Haccepts.
  reflexivity.
Qed.

(** The head of the queue still waits for its bytes: the loop stops
    and nothing is written, whatever follows it in the queue. *)
Lemma write_ready_wait path front rest s :
  Request_bytes front = [] ->
  write_ready path (front :: rest) s = (true, front :: rest, s).
Proof. intros Hbytes. cbn [write_ready]. now rewrite Hbytes. Qed.

(** One chunk answer for a transfer all of whose chunks have been
    requested, when every write it triggers goes through. *)
Lemma filePartDone_chunk (s : State) (process : FileProcess)
    (offset : Z) (bytes : QByteArray)
    (filled rest : list Request) (s1 : State) :
  _fileProcess s = Some process ->
  0 < FileProcess_size process <= FileProcess_offset process ->
  bytes <> [] ->
  fill_request offset bytes (FileProcess_requests process) = Some filled ->
  write_ready (FileProcess_file process) filled s = (true, rest, s1) ->
  filePartDone offset (MTP_upload_file bytes) s =
  let s2 :=
    set_fileProcess (Some (FileProcess_set_requests process rest)) s1 in
  if is_empty rest then filePartDone_finish s2 else Ok s2.
Proof.
  intros Hprocess Hsize Hbytes Hfill Hwrite.
  unfold filePartDone. rewrite Hprocess.
  assert (Hqueue : is_empty (FileProcess_requests process) = false).
  { destruct (FileProcess_requests process); [discriminate | reflexivity]. }
  rewrite Hqueue. cbn [negb Expects mbind Result_bind].
  rewrite (is_empty_false _ Hbytes), Hfill, Hwrite.
  cbn [negb]. cbv zeta.
  destruct (is_empty rest) eqn:Hrest; cbn [negb orb].
  - rewrite (bool_decide_eq_false_2 (FileProcess_size process = 0)) by lia.
    rewrite (bool_decide_eq_false_2 (FileProcess_size process > _)) by lia.
    reflexivity.
  - apply (loadFilePart_idle _ (FileProcess_set_requests process rest));
      [reflexivity|]. right. exact Hsize.
Qed.

Lemma transfer_state_init (s : State) (process : FileProcess) :
  _fileProcess s = Some process ->
  s = transfer_state s process (FileProcess_requests process) (disk s).
Proof.
  intros Hprocess. destruct s; cbn in *. subst.
  destruct process; reflexivity.
Qed.

Section ThreeChunks.
Variables (s : State) (process : FileProcess) (b0 b1 b2 : QByteArray).
Let path := FileProcess_file process.
Let before := file_content path s.
Let in_order : list (Z * QByteArray) :=
  [(0, b0); (kFileChunkSize, b1); (2 * kFileChunkSize, b2)].
Hypothesis Hprocess : _fileProcess s = Some process.
Hypothesis Hqueue :
  FileProcess_requests process =
  [mkRequest 0 []; mkRequest kFileChunkSize [];
   mkRequest (2 * kFileChunkSize) []].
Hypothesis Hsize : 0 < FileProcess_size process <= FileProcess_offset process.
Hypothesis Hb0 : b0 <> [].
Hypothesis Hb1 : b1 <> [].
Hypothesis Hb2 : b2 <> [].
Hypothesis Hw0 : writeBlock_accepts path before b0 = true.
Hypothesis Hw1 : writeBlock_accepts path (before ++ b0) b1 = true.
Hypothesis Hw2 : writeBlock_accepts path (before ++ b0 ++ b1) b2 = true.

Local Abbreviation st := (transfer_state s process).

Lemma write_ready_st_write q d front rest :
  Request_bytes front <> [] ->
  writeBlock_accepts path (default [] (d !! path)) (Request_bytes front)
    = true ->
  write_ready path (front :: rest) (st q d) =
  write_ready path rest
    (st q (<[path := default [] (d !! path) ++ Request_bytes front]> d)).
Proof.
  intros Hbytes Haccepts.
  rewrite write_ready_write; [reflexivity | assumption | exact Haccepts].
Qed.

Lemma filePartDone_st q d offset bytes filled rest d' :
  bytes <> [] ->
  fill_request offset bytes q = Some filled ->
  write_ready path filled (st q d) = (true, rest, st q d') ->
  filePartDone offset (MTP_upload_file bytes) (st q d) =
  if is_empty rest then filePartDone_finish (st rest d') else Ok (st rest d').
Proof.
  intros Hbytes Hfill Hwrite.
  rewrite (filePartDone_chunk (st q d) (FileProcess_set_requests process q)
             offset bytes filled rest (st q d'));
    try assumption; reflexivity.
Qed.

(** The side conditions of a write: the block is not empty and the file
    system takes it after what has been written so far. *)
Ltac write_side :=
  cbn [Request_bytes]; rewrite ?lookup_insert_eq; cbn [default from_option];
  unfold id; rewrite <- ?app_assoc;
  first [assumption | exact Hw0 | exact Hw1 | exact Hw2].

(** The loop of writes on a queue with known contents. *)
Ltac write_loop :=
  repeat (rewrite write_ready_st_write by write_side);
  first [rewrite write_ready_wait by reflexivity | cbn [write_ready]];
  reflexivity.

(** One chunk answer on a state of the shape [st q d]. *)
Ltac chunk_answer :=
  erewrite filePartDone_st;
    [ | assumption | cbn; reflexivity | write_loop ];
  cbn [is_empty mbind Result_bind deliver].

Ltac tidy :=
  cbn [Request_bytes];
  repeat first
    [ rewrite insert_insert_eq
    | rewrite lookup_insert_eq
    | progress (cbn [default from_option])
    | progress (unfold id) ];
  rewrite <- ?app_assoc.

Ltac chunk_answers := repeat (chunk_answer; tidy).

Lemma st_content q d : file_content path (st q d) = default [] (d !! path).
Proof. reflexivity. Qed.

(** What the prefixes of one order of the three answers lead to. *)
Let trace_of (answers : list (Z * QByteArray)) : Prop :=
  deliver answers s =
    filePartDone_finish
      (st [] (<[path := before ++ b0 ++ b1 ++ b2]> (disk s))) /\
  forall pre suf : list (Z * QByteArray),
    answers = pre ++ suf -> suf <> [] ->
    exists s1 : State,
      deliver pre s = Ok s1 /\
      file_content path s1 = before ++ written_prefix (pre.*1) in_order /\
      FileProcess_requests <$> _fileProcess s1 =
        Some (queue_after (pre.*1) in_order) /\
      sent s1 = sent s /\ _errors s1 = _errors s /\
      callbacks s1 = callbacks s.

(** Membership of an offset among the offsets answered so far. *)
Ltac offsets :=
  unfold written_prefix, queue_after, in_order;
  cbn [fmap list_fmap option_fmap option_map fst snd map _fileProcess
       transfer_state set_fileProcess FileProcess_requests
       FileProcess_set_requests];
  repeat case_bool_decide;
  repeat match goal with
  | Hin : _ ∈ _ |- _ =>
      rewrite ?elem_of_cons, ?elem_of_nil in Hin;
      unfold kFileChunkSize in Hin
  | Hnin : _ ∉ _ |- _ =>
      rewrite ?not_elem_of_cons, ?elem_of_nil in Hnin;
      unfold kFileChunkSize in Hnin
  end;
  try (exfalso; lia);
  rewrite ?app_nil_r, <- ?app_assoc; try reflexivity.

(** Every run starts from [s] seen as a state of the shape [st q d]. *)
Lemma deliver_init answers :
  deliver answers s =
  deliver answers
    (st [mkRequest 0 []; mkRequest kFileChunkSize [];
         mkRequest (2 * kFileChunkSize) []]
        (disk s)).
Proof.
  rewrite <- Hqueue. now rewrite <- (transfer_state_init s process Hprocess).
Qed.

Ltac trace :=
  split;
  [ rewrite deliver_init;
    cbn [deliver]; chunk_answers; rewrite ?bind_Ok_r; reflexivity
  | intros pre suf Hsplit Hsuf;
    destruct pre as [|x [|y [|z pre]]]; cbn [app] in Hsplit;
    [ subst suf
    | injection Hsplit as <- <-
    | injection Hsplit as <- <- <-
    | apply (f_equal length) in Hsplit; cbn in Hsplit;
      rewrite length_app in Hsplit;
      destruct suf; [contradiction | cbn in Hsplit; lia] ];
    rewrite deliver_init;
    cbn [deliver]; chunk_answers;
    (eexists; split; [reflexivity|]);
    (split; [rewrite st_content; tidy; offsets|]);
    (split; [offsets|]);
    repeat split ].

Lemma trace_012 : trace_of [(0, b0); (kFileChunkSize, b1); (2 * kFileChunkSize, b2)].
Proof. trace. Qed.

Lemma trace_021 : trace_of [(0, b0); (2 * kFileChunkSize, b2); (kFileChunkSize, b1)].
Proof. trace. Qed.

Lemma trace_102 : trace_of [(kFileChunkSize, b1); (0, b0); (2 * kFileChunkSize, b2)].
Proof. trace. Qed.

Lemma trace_120 : trace_of [(kFileChunkSize, b1); (2 * kFileChunkSize, b2); (0, b0)].
Proof. trace. Qed.

Lemma trace_201 : trace_of [(2 * kFileChunkSize, b2); (0, b0); (kFileChunkSize, b1)].
Proof. trace. Qed.

Lemma trace_210 : trace_of [(2 * kFileChunkSize, b2); (kFileChunkSize, b1); (0, b0)].
Proof. trace. Qed.


End ThreeChunks.

End Reassembly.

Section ReassemblyExample.
Local Open Scope Z_scope.


End ReassemblyExample.

(* ===================================================================== *)
(** * Further properties *)
(* ===================================================================== *)

Import DataPeers Output Behaviour.

(* --------------------------------------------------------------------- *)
(** ** Padding and photo sizes *)
(* --------------------------------------------------------------------- *)

Section Padding.
Local Open Scope Z_scope.

Lemma length_append (a b : string) :
  String.length (a +:+ b) = (String.length a + String.length b)%nat.
Proof.
  induction a as [|c a IH]; [reflexivity | simpl; now rewrite IH].
Qed.

Lemma length_repeat_char n filler : String.length (repeat_char n filler) = n.
Proof. induction n as [|n IH]; [reflexivity | simpl; now rewrite IH]. Qed.

(** X1.  [FillLeft data length filler] is [data] with copies of
    [filler] in front of it; its size is the larger of [length] and the
    size of [data] (a [length] that is too small, zero or negative
    leaves [data] as it is), and padding once more to the same length
    changes nothing. *)
Theorem FillLeft_pads (data : Utf8String) (length : Z) (filler : ascii) :
  string_size (FillLeft data length filler) = Z.max length (string_size data)
  /\ FillLeft (FillLeft data length filler) length filler
     = FillLeft data length filler
  /\ exists n : nat,
       FillLeft data length filler = repeat_char n filler +:+ data.
Proof.
  assert (Hsize :
    string_size (FillLeft data length filler)
    = Z.max length (string_size data)).
  { unfold FillLeft. case_decide as Hle; [lia|].
    unfold string_size in *.
    rewrite length_append, length_repeat_char. lia. }
  split; [exact Hsize|]. split.
  - unfold FillLeft at 1. rewrite decide_True; [reflexivity|].
    rewrite Hsize. lia.
  - unfold FillLeft. case_decide.
    + exists 0%nat. reflexivity.
    + eexists. reflexivity.
Qed.

End Padding.

Section Images.
Local Open Scope Z_scope.

(** What the loop of [ParseMaxImage] keeps true: [maxArea] is the area
    of the result so far, every size seen is at most that large, and
    the result is the start value or the image of a size that was
    larger than everything before it. *)
Lemma ParseMaxImage_fold (data : list MTPPhotoSize) (path : string) :
  forall (acc : Image * Z),
    snd acc = Image_area (fst acc) -> 0 <= snd acc ->
    File_suggestedPath (Image_file (fst acc)) = path ->
    File_skipReason (Image_file (fst acc)) = SkipReason.None ->
    File_relativePath (Image_file (fst acc)) = "" ->
    let result := fold_left ParseMaxImage_step data acc in
    snd result = Image_area (fst result) /\
    snd acc <= snd result /\
    Forall (fun size => MTPPhotoSize_area size <= snd result) data /\
    (fst result = fst acc \/
     exists size, size ∈ data /\ Image_of size path = Some (fst result)
                  /\ snd acc < MTPPhotoSize_area size).
Proof.
  induction data as [|size data IH]; intros [image area] Harea Hpos Hpath
    Hskip Hrel; cbn [fst snd] in *.
  - cbn. repeat split; auto; lia.
  - cbn [fold_left].
    assert (Hstep :
      exists image' area',
        ParseMaxImage_step (image, area) size = (image', area') /\
        area' = Image_area image' /\
        area <= area' /\ MTPPhotoSize_area size <= area' /\
        File_suggestedPath (Image_file image') = path /\
        File_skipReason (Image_file image') = SkipReason.None /\
        File_relativePath (Image_file image') = "" /\
        (image' = image \/
         (Image_of size path = Some image' /\
          area < MTPPhotoSize_area size))).
    { unfold ParseMaxImage_step.
      destruct size as [|location w h fsize|location w h bytes];
        cbn [MTPPhotoSize_area].
      - exists image, area. repeat split; auto; lia.
      - case_decide as Hgt.
        + eexists _, _. split; [reflexivity|].
          unfold Image_area, Image_of. cbn.
          rewrite Hpath, Hskip, Hrel. repeat split; auto; try lia.
          right. split; [reflexivity | lia].
        + exists image, area. repeat split; auto; lia.
      - case_decide as Hgt.
        + eexists _, _. split; [reflexivity|].
          unfold Image_area, Image_of. cbn.
          rewrite Hpath, Hskip, Hrel. repeat split; auto; try lia.
          right. split; [reflexivity | lia].
        + exists image, area. repeat split; auto; lia. }
    destruct Hstep as (image' & area' & -> & Harea' & Hle & Hsize & Hpath'
                       & Hskip' & Hrel' & Hfrom).
    destruct (IH (image', area')) as (IH1 & IH2 & IH3 & IH4);
      cbn [fst snd]; try assumption; try lia.
    cbn [fst snd] in *.
    split; [exact IH1|]. split; [lia|]. split.
    + constructor; [lia | exact IH3].
    + destruct IH4 as [Hsame|(size' & Hin & Hof & Hlt)].
      * destruct Hfrom as [->|[Hof Hlt]]; [left; exact Hsame|].
        right. exists size. rewrite Hsame.
        split; [apply list_elem_of_here|]. split; [exact Hof | exact Hlt].
      * right. exists size'.
        split; [apply list_elem_of_further, Hin|]. split; [exact Hof | lia].
Qed.

(** X2.  [ParseMaxImage] returns an image at least as large in area as
    every size of the wire photo, with the suggested path it was given.
    The image is that of one of the sizes, one of positive area, with
    the location [ParseLocation] gives it; or, when no size has a
    positive area, it is the empty image, whose file has no valid
    location. *)
Theorem ParseMaxImage_takes_the_largest (data : list MTPPhotoSize)
    (suggestedPath : string) :
  let image := ParseMaxImage data suggestedPath in
  Forall (fun size => MTPPhotoSize_area size <= Image_area image) data /\
  File_suggestedPath (Image_file image) = suggestedPath /\
  ((Image_area image = 0 /\
    FileLocation_valid (File_location (Image_file image)) = false) \/
   exists size, size ∈ data /\ Image_of size suggestedPath = Some image /\
                0 < MTPPhotoSize_area size).
Proof.
  intros image. unfold image, ParseMaxImage.
  set (acc := (mkImage 0 0 _, 0)).
  destruct (ParseMaxImage_fold data suggestedPath acc)
    as (Harea & _ & Hall & Hfrom); try reflexivity.
  cbn [snd acc] in *.
  rewrite <- Harea. split; [exact Hall|]. split.
  - destruct Hfrom as [->|(size & _ & Hof & _)]; [reflexivity|].
    rewrite Harea in *.
    destruct size; cbn in Hof; try discriminate;
      injection Hof as <-; reflexivity.
  - destruct Hfrom as [Hsame|(size & Hin & Hof & Hlt)].
    + left. rewrite Harea, Hsame. split; reflexivity.
    + right. exists size. auto.
Qed.

End Images.

(* --------------------------------------------------------------------- *)
(** ** Users, chats and contacts *)
(* --------------------------------------------------------------------- *)

Section PeersLists.
Local Open Scope Z_scope.

(** A map filled by [emplace] holds, for every key, the first element
    of the list with that key, unless the key was there before. *)
Lemma fold_emplace_lookup {A K V} `{Countable K}
    (key_of : A -> K) (value_of : A -> V) (l : list A) :
  forall (m : gmap K V) (key : K),
    fold_left (fun result x => emplace (key_of x) (value_of x) result) l m
      !! key =
    match m !! key with
    | Some value => Some value
    | None => value_of <$> first_with key_of key l
    end.
Proof.
  induction l as [|x l IH]; intros m key; cbn [fold_left].
  - destruct (m !! key); reflexivity.
  - rewrite IH. unfold emplace, first_with. cbn [List.find].
    destruct (m !! key_of x) as [old|] eqn:Hold.
    + case_bool_decide as Hkey; [|reflexivity].
      subst key. rewrite Hold. reflexivity.
    + case_bool_decide as Hkey.
      * subst key. rewrite lookup_insert_eq, Hold. reflexivity.
      * rewrite lookup_insert_ne by congruence. reflexivity.
Qed.

Lemma to_int32_range z : is_int32 (to_int32 z).
Proof.
  unfold is_int32, to_int32.
  pose proof (Z.mod_pos_bound (z + 2^31) (2^32) ltac:(lia)). lia.
Qed.

Lemma BarePeerId_UserPeerId x : BarePeerId (UserPeerId x) = to_int32 x.
Proof.
  unfold BarePeerId, UserPeerId, kUserPeerIdShift.
  rewrite low_bits_tagged by apply to_uint32_range.
  rewrite to_int32_to_uint32. apply to_int32_id, to_int32_range.
Qed.

Lemma BarePeerId_ChatPeerId x : BarePeerId (ChatPeerId x) = to_int32 x.
Proof.
  unfold BarePeerId, ChatPeerId, kChatPeerIdShift.
  rewrite low_bits_tagged by apply to_uint32_range.
  rewrite to_int32_to_uint32. apply to_int32_id, to_int32_range.
Qed.

Lemma UserPeerId_eq a b :
  UserPeerId a = UserPeerId b <-> to_int32 a = to_int32 b.
Proof.
  split.
  - intros Heq. rewrite <- !BarePeerId_UserPeerId. now rewrite Heq.
  - intros Heq. unfold UserPeerId. now rewrite Heq.
Qed.

Lemma ChatPeerId_eq a b :
  ChatPeerId a = ChatPeerId b <-> to_int32 a = to_int32 b.
Proof.
  split.
  - intros Heq. rewrite <- !BarePeerId_ChatPeerId. now rewrite Heq.
  - intros Heq. unfold ChatPeerId. now rewrite Heq.
Qed.

Lemma UserPeerId_not_ChatPeerId a b : UserPeerId a <> ChatPeerId b.
Proof.
  intros Heq. pose proof (UserPeerId_bit33 a) as Ha.
  rewrite Heq, ChatPeerId_bit33 in Ha. discriminate.
Qed.

Lemma ParseUser_id user :
  ContactInfo_userId (User_info (ParseUser user)) = MTPUser_id user.
Proof. destruct user; reflexivity. Qed.

Lemma ParseChat_id chat : Chat_id (ParseChat chat) = MTPChat_id chat.
Proof. destruct chat; reflexivity. Qed.

Lemma find_ext {A} (f g : A -> bool) (l : list A) :
  (forall x, f x = g x) -> List.find f l = List.find g l.
Proof.
  intros Hfg. induction l as [|x l IH]; cbn; [reflexivity|].
  rewrite Hfg, IH. reflexivity.
Qed.

Lemma find_none {A} (f : A -> bool) (l : list A) :
  (forall x, f x = false) -> List.find f l = None.
Proof.
  intros Hf. induction l as [|x l IH]; cbn; [reflexivity|].
  now rewrite Hf.
Qed.

(** X4.  In the map [ParsePeersLists] builds, the user with id [id] is
    found under [UserPeerId id] and the chat with id [id] under
    [ChatPeerId id]: a user and a chat with the same id do not shadow
    one another.  Of several wire records with the same id (as
    [int32]) the first one in the vector is kept.  Every peer is stored
    under its own [Peer::id()]. *)
Theorem ParsePeersLists_first_record_wins
    (users : list Wire.MTPUser) (chats : list Wire.MTPChat) (id : Z) :
  let peers := ParsePeersLists users chats in
  peers !! UserPeerId id =
    (fun user => PeerUser (ParseUser user)) <$>
    first_with (fun user => to_int32 (MTPUser_id user)) (to_int32 id) users
  /\
  peers !! ChatPeerId id =
    (fun chat => PeerChat (ParseChat chat)) <$>
    first_with (fun chat => to_int32 (MTPChat_id chat)) (to_int32 id) chats
  /\
  forall key peer, peers !! key = Some peer -> Peer_id peer = key.
Proof.
  intros peers. unfold peers, ParsePeersLists.
  set (user_key := fun user : Wire.MTPUser =>
         UserPeerId (ContactInfo_userId (User_info (ParseUser user)))).
  set (chat_key := fun chat : Wire.MTPChat =>
         ChatPeerId (Chat_id (ParseChat chat))).
  assert (Husers : forall key,
    fold_left
      (fun result user =>
         emplace (user_key user) (PeerUser (ParseUser user)) result)
      users ∅ !! key =
    (fun user => PeerUser (ParseUser user)) <$> first_with user_key key users).
  { intros key.
    rewrite (fold_emplace_lookup user_key
               (fun user => PeerUser (ParseUser user))).
    rewrite lookup_empty. reflexivity. }
  assert (Hall : forall key,
    fold_left
      (fun result chat =>
         emplace (chat_key chat) (PeerChat (ParseChat chat)) result)
      chats
      (fold_left
         (fun result user =>
            emplace (user_key user) (PeerUser (ParseUser user)) result)
         users ∅) !! key =
    match first_with user_key key users with
    | Some user => Some (PeerUser (ParseUser user))
    | None =>
        (fun chat => PeerChat (ParseChat chat)) <$>
        first_with chat_key key chats
    end).
  { intros key.
    rewrite (fold_emplace_lookup chat_key
               (fun chat => PeerChat (ParseChat chat))).
    rewrite Husers. destruct (first_with user_key key users); reflexivity. }
  change (fold_left _ chats _) with
    (fold_left
      (fun result chat =>
         emplace (chat_key chat) (PeerChat (ParseChat chat)) result)
      chats
      (fold_left
         (fun result user =>
            emplace (user_key user) (PeerUser (ParseUser user)) result)
         users ∅)).
  split; [|split].
  - rewrite Hall. unfold first_with.
    rewrite (find_ext _
      (fun user => bool_decide (to_int32 (MTPUser_id user) = to_int32 id))).
    + destruct (List.find _ users); [reflexivity|].
      rewrite (find_none _ chats); [reflexivity|].
      intros chat. apply bool_decide_eq_false_2. intros Heq.
      symmetry in Heq. exact (UserPeerId_not_ChatPeerId _ _ Heq).
    + intros user. unfold user_key. rewrite ParseUser_id.
      apply bool_decide_ext, UserPeerId_eq.
  - rewrite Hall. unfold first_with.
    rewrite (find_none _ users).
    + rewrite (find_ext _
        (fun chat => bool_decide (to_int32 (MTPChat_id chat) = to_int32 id)));
        [reflexivity|].
      intros chat. unfold chat_key. rewrite ParseChat_id.
      apply bool_decide_ext, ChatPeerId_eq.
    + intros user. apply bool_decide_eq_false_2, UserPeerId_not_ChatPeerId.
  - intros key peer. rewrite Hall. unfold first_with.
    destruct (List.find _ users) as [user|] eqn:Huser.
    + intros [= <-]. apply find_some in Huser as [_ Hkey].
      apply bool_decide_eq_true_1 in Hkey. exact Hkey.
    + destruct (List.find _ chats) as [chat|] eqn:Hchat; [|discriminate].
      intros [= <-]. apply find_some in Hchat as [_ Hkey].
      apply bool_decide_eq_true_1 in Hkey. exact Hkey.
Qed.

(** X5.  [ParseContactsList] returns one entry per contact of the
    answer, in the order of the answer.  The entry is the info of the
    first user record with the id of the contact; a contact without a
    user record gets a value-initialised info, whose [userId] is 0 and
    not the id of the contact. *)
Theorem ParseContactsList_keeps_the_order
    (contacts : list Wire.MTPContact) (saved_count : Z)
    (users : list Wire.MTPUser) :
  exists list,
    ParseContactsList (Wire.MTP_contacts_contacts contacts saved_count users)
    = Ok (mkContactsList list) /\
    length list = length contacts /\
    forall (i : nat) (userId : Z) (mutual : bool),
      contacts !! i = Some (Wire.MTP_contact userId mutual) ->
      list !! i =
      Some match first_with MTPUser_id userId users with
           | Some user => ParseContactInfo user
           | None => ContactInfo_default
           end.
Proof.
  eexists. split; [reflexivity|]. split.
  - apply length_map.
  - intros i userId mutual Hi.
    change (List.map ?f ?l) with (f <$> l).
    rewrite list_lookup_fmap, Hi. cbn [fmap option_fmap option_map].
    f_equal. unfold ParseUsersList.
    rewrite (fold_emplace_lookup
               (fun user => ContactInfo_userId (User_info (ParseUser user)))
               ParseUser).
    rewrite lookup_empty. unfold first_with.
    rewrite (find_ext _ (fun user => bool_decide (MTPUser_id user = userId)))
      by (intros user; now rewrite ParseUser_id).
    destruct (List.find _ users) as [user|]; [|reflexivity].
    cbn. destruct user; reflexivity.
Qed.

End PeersLists.

(* --------------------------------------------------------------------- *)
(** ** Cache keys and the bound of the cache *)
(* --------------------------------------------------------------------- *)

Section LocationKeys.
Local Open Scope Z_scope.

Lemma lor_shiftl_add (a b n : Z) :
  0 <= n -> 0 <= a < 2^n -> Z.lor a (Z.shiftl b n) = a + b * 2^n.
Proof.
  intros Hn Ha.
  rewrite <- Z.shiftl_mul_pow2 by lia.
  rewrite <- Z.lxor_lor, <- Z.add_nocarry_lxor; try reflexivity.
  all: apply Z.bits_inj'; intros i Hi; rewrite Z.land_spec, Z.bits_0.
  all: destruct (Z.lt_ge_cases i n).
  all: try (rewrite Z.shiftl_spec_low by lia; apply andb_false_r).
  all: rewrite <- (Z.mod_small a (2^n)) by lia.
  all: rewrite Z.mod_pow2_bits_high by lia; reflexivity.
Qed.

Lemma to_uint64_range z : 0 <= to_uint64 z < 2^64.
Proof. unfold to_uint64. apply Z.mod_pos_bound. lia. Qed.

Lemma key_type_file dc volume_id local_id secret :
  0 <= dc < 2^24 ->
  ComputeLocationKey
    (mkFileLocation dc (MTP_inputFileLocation volume_id local_id secret)) =
  mkLocationKey (dc + 2^24 + to_uint32 local_id * 2^32) (to_uint64 volume_id).
Proof.
  intros Hdc. unfold ComputeLocationKey. simpl.
  pose proof (to_uint32_range local_id) as Hl.
  f_equal.
  assert (Hdc' : to_uint64 dc = dc) by (unfold to_uint64; apply Z.mod_small; lia).
  assert (Hsh : to_uint64 (Z.shiftl (to_uint32 local_id) 32)
                = Z.shiftl (to_uint32 local_id) 32).
  { unfold to_uint64. apply Z.mod_small.
    rewrite Z.shiftl_mul_pow2 by lia. lia. }
  rewrite Hdc', Hsh.
  rewrite (lor_shiftl_add dc 1 24) by lia.
  rewrite lor_shiftl_add by lia. lia.
Qed.

Lemma key_type_tagged dc tag :
  0 <= dc < 2^24 ->
  Z.lor (to_uint64 dc) (Z.shiftl tag 24) = dc + tag * 2^24.
Proof.
  intros Hdc. unfold to_uint64. rewrite Z.mod_small by lia.
  apply lor_shiftl_add; lia.
Qed.

(** X6.  For data centers below [2^24] two locations get the same
    cache key exactly when they are of the same variant, in the same
    data center, and agree on the identifiers the key is made of
    (volume and local id of a file, id of a document, a secure or an
    encrypted file, as [uint64] and [uint32]).  So the keys of
    different files do not collide, while the secret, the access hash
    and the version of a location play no part: locations that differ
    in them only share a key and a cache entry. *)
Theorem ComputeLocationKey_identifies (a b : FileLocation) :
  0 <= dcId a < 2^24 -> 0 <= dcId b < 2^24 ->
  ComputeLocationKey a = ComputeLocationKey b <-> same_resource a b.
Proof.
  intros Ha Hb. destruct a as [dca da], b as [dcb db]. simpl in Ha, Hb.
  unfold same_resource. simpl.
  destruct da as [va la sa|ia ha ra|ia ha|ia ha],
           db as [vb lb sb|ib hb rb|ib hb|ib hb];
    rewrite ?key_type_file by assumption;
    unfold ComputeLocationKey; simpl;
    rewrite ?key_type_tagged by assumption;
    try pose proof (to_uint32_range la);
    try pose proof (to_uint32_range lb);
    (split; [intros [= ]; try lia; repeat split; try congruence; lia
            | intros (-> & Hrest);
              lazymatch type of Hrest with
              | False => contradiction
              | _ /\ _ =>
                  destruct Hrest as [Hv Hl]; rewrite Hv, Hl; reflexivity
              | _ => rewrite Hrest; reflexivity
              end]).
Qed.

End LocationKeys.


Section CacheBounds.
Local Open Scope Z_scope.

Lemma save_queued c location relativePath :
  queued c -> queued (save c location relativePath).
Proof.
  intros Hq k. unfold save.
  assert (Hin : forall k, is_Some (<[ComputeLocationKey location := relativePath]> (_map c) !! k) ->
                k ∈ _list c ++ [ComputeLocationKey location]).
  { intros k' Hk'. rewrite elem_of_app.
    destruct (decide (k' = ComputeLocationKey location)) as [->|Hne].
    - right. apply list_elem_of_here.
    - left. apply Hq. rewrite lookup_insert_ne in Hk' by congruence. exact Hk'. }
  case_decide; [|apply Hin].
  destruct (_list c ++ [ComputeLocationKey location]) as [|front rest] eqn:Hl.
  - apply Hin.
  - simpl. intros Hk.
    destruct (decide (k = front)) as [->|Hne].
    + rewrite lookup_delete_eq in Hk. destruct Hk as [? [=]].
    + rewrite lookup_delete_ne in Hk by congruence.
      apply Hin in Hk. apply elem_of_cons in Hk as [?|?]; [congruence|assumption].
Qed.

Lemma save_length c location relativePath :
  Z.of_nat (length (_list c)) <= to_uint64 (_limit c) ->
  Z.of_nat (length (_list (save c location relativePath)))
    <= to_uint64 (_limit c).
Proof.
  intros Hlen. unfold save.
  case_decide as Hover.
  - destruct (_list c ++ [ComputeLocationKey location]) as [|front rest] eqn:Hl.
    + simpl. pose proof (to_uint64_range (_limit c)). lia.
    + simpl. apply (f_equal length) in Hl. rewrite length_app in Hl.
      simpl in Hl. lia.
  - simpl. lia.
Qed.

Lemma size_list_to_set_le (l : list LocationKey) :
  (size (list_to_set l : gset LocationKey) <= length l)%nat.
Proof.
  induction l as [|k l IH].
  - rewrite list_to_set_nil, size_empty. reflexivity.
  - rewrite list_to_set_cons, size_union_alt, size_singleton. simpl.
    assert (Hsub : (list_to_set l : gset LocationKey) ∖ {[k]} ⊆ list_to_set l).
    { intros x Hx. apply elem_of_difference in Hx as [Hx _]. exact Hx. }
    apply subseteq_size in Hsub. lia.
Qed.

Lemma queued_size c :
  queued c -> (size (_map c) <= length (_list c))%nat.
Proof.
  intros Hq.
  rewrite <- size_dom.
  etransitivity; [|apply size_list_to_set_le].
  apply subseteq_size. intros k Hk.
  apply elem_of_dom in Hk. apply elem_of_list_to_set. apply Hq, Hk.
Qed.

(** X7.  A cache made with the limit [L] never holds more than [L]
    entries, whatever is saved and looked up, with keys repeated or
    not: the queue of keys has at most [L] elements and the map at most
    [L] paths.  A cache with the limit 0 stays empty. *)
Theorem cache_never_exceeds_limit
    (L : Z) (c0 : LoadedFileCache) (ops : list CacheOp) :
  L <= INT_MAX ->
  LoadedFileCache_new L = Some c0 ->
  Z.of_nat (length (_list (run_ops c0 ops))) <= L /\
  Z.of_nat (size (_map (run_ops c0 ops))) <= L.
Proof.
  intros HL Hnew.
  unfold LoadedFileCache_new in Hnew. case_decide as Hpos; [|discriminate].
  injection Hnew as <-.
  assert (Hu : to_uint64 L = L).
  { unfold to_uint64, INT_MAX in *. apply Z.mod_small. lia. }
  rewrite run_ops_saved.
  assert (Hinv : forall l c, _limit c = L -> queued c ->
            Z.of_nat (length (_list c)) <= L ->
            queued (save_all c l) /\
  Z.of_nat (length (_list (save_all c l))) <= L).
  { induction l as [|[location relativePath] l IH]; intros c Hlim Hq Hlen.
    - split; assumption.
    - simpl. apply IH.
      + rewrite save_limit. exact Hlim.
      + apply save_queued, Hq.
      + rewrite <- Hu, <- Hlim. apply save_length. rewrite Hlim, Hu. exact Hlen. }
  destruct (Hinv (saved ops) (mkLoadedFileCache L ∅ [])) as [Hq Hlen].
  - reflexivity.
  - intros k Hk. simpl in Hk. rewrite lookup_empty in Hk. destruct Hk as [? [=]].
  - simpl. lia.
  - split; [exact Hlen|].
    apply queued_size in Hq. lia.
Qed.

(** X8.  What [find] returns for a location right after it was saved.
    Below the limit it is the saved path.  At the limit the save evicts
    the oldest key of the queue, so that the path is found unless that
    key is the key of the location itself (for an empty queue, with
    the limit 0, it is). *)
Theorem save_then_find (c : LoadedFileCache) (location : FileLocation)
    (relativePath : string) :
  let key := ComputeLocationKey location in
  let below := Z.of_nat (length (_list c)) < to_uint64 (_limit c) in
  let oldest := head (_list c ++ [key]) in
  (below -> find (save c location relativePath) location = Some relativePath)
  /\ (~ below -> oldest <> Some key ->
      find (save c location relativePath) location = Some relativePath)
  /\ (~ below -> oldest = Some key ->
      find (save c location relativePath) location = None).
Proof.
  intros key below oldest. unfold find, save, below, oldest. fold key.
  split; [|split].
  - intros Hbelow.
    rewrite decide_False by (rewrite length_app; simpl; lia).
    apply lookup_insert_eq.
  - intros Hfull Holdest.
    rewrite decide_True by (rewrite length_app; simpl; lia).
    destruct (_list c ++ [key]) as [|front rest]; [apply lookup_insert_eq|].
    cbn [_map]. rewrite lookup_delete_ne by (cbn in Holdest; congruence).
    apply lookup_insert_eq.
  - intros Hfull Holdest.
    rewrite decide_True by (rewrite length_app; simpl; lia).
    destruct (_list c ++ [key]) as [|front rest]; [discriminate|].
    injection Holdest as ->. cbn [_map]. apply lookup_delete_eq.
Qed.

End CacheBounds.

(* --------------------------------------------------------------------- *)
(** ** What the wrapper never takes back *)
(* --------------------------------------------------------------------- *)

(** Inversion of an equation [... = Ok _] along the shape of the
    left-hand side. *)
Ltac invert_ok :=
  repeat match goal with
  | H : Ok _ = Ok _ |- _ => injection H as H; subst
  | H : Fault _ = Ok _ |- _ => discriminate H
  | H : Expects ?c _ ≫= _ = Ok _ |- _ =>
      destruct c eqn:?; cbn [Expects mbind Result_bind] in H
  | H : _ ≫= _ = Ok _ |- _ =>
      let a := fresh "a" in
      let Ha := fresh "Ha" in
      apply bind_Ok in H as (a & Ha & H)
  | H : (match ?x with _ => _ end) = Ok _ |- _ => destruct x eqn:?
  | H : (_, _) = (_, _) |- _ => injection H as ? ?; subst
  end.

Section Growth.
Context `{Externals} `{FileSystem}.
Local Open Scope Z_scope.

Create HintDb grows discriminated.

(** The state to compare with. *)
Variable s0 : State.

Lemma grows_refl s : grows s s.
Proof. unfold grows. repeat split; intros; try reflexivity; assumption. Qed.

Lemma grows_set_settings v s :
  bool_decide (_settings s = None) = true ->
  grows s0 s -> grows s0 (set_settings v s).
Proof.
  intros Hnone%bool_decide_eq_true_1 (He & Hs & Hc & Hset & Hd).
  repeat split; try assumption.
  intros settings Hsettings. apply Hset in Hsettings. congruence.
Qed.
Lemma grows_set_takeoutId v s : grows s0 s -> grows s0 (set_takeoutId v s).
Proof. exact id. Qed.
Lemma grows_set_userpicsProcess v s :
  grows s0 s -> grows s0 (set_userpicsProcess v s).
Proof. exact id. Qed.
Lemma grows_set_fileProcess v s : grows s0 s -> grows s0 (set_fileProcess v s).
Proof. exact id. Qed.
Lemma grows_set_dialogsProcess v s :
  grows s0 s -> grows s0 (set_dialogsProcess v s).
Proof. exact id. Qed.
Lemma grows_set_fileCache v s : grows s0 s -> grows s0 (set_fileCache v s).
Proof. exact id. Qed.
Lemma grows_set_static_files v s :
  grows s0 s -> grows s0 (set_static_files v s).
Proof. exact id. Qed.
Lemma grows_error e s : grows s0 s -> grows s0 (error e s).
Proof.
  intros (He & Hs & Hc & Hset & Hd). repeat split; try assumption.
  cbn. etransitivity; [exact He | apply prefix_app_r; reflexivity].
Qed.
Lemma grows_error_text t s : grows s0 s -> grows s0 (error_text t s).
Proof. apply grows_error. Qed.
Lemma grows_send r s : grows s0 s -> grows s0 (send r s).
Proof.
  intros (He & Hs & Hc & Hset & Hd). repeat split; try assumption.
  cbn. etransitivity; [exact Hs | apply prefix_app_r; reflexivity].
Qed.
Lemma grows_call c s : grows s0 s -> grows s0 (call c s).
Proof.
  intros (He & Hs & Hc & Hset & Hd). repeat split; try assumption.
  cbn. etransitivity; [exact Hc | apply prefix_app_r; reflexivity].
Qed.

Lemma writeBlock_grows path block s success s' :
  writeBlock path block s = (success, s') -> grows s0 s -> grows s0 s'.
Proof.
  unfold writeBlock. destruct (writeBlock_accepts _ _ _);
    intros [= <- <-]; [|exact id].
  intros (He & Hs & Hc & Hset & Hd). repeat split; try assumption.
  intros path'. etransitivity; [apply Hd|].
  unfold file_content. cbn.
  destruct (decide (path' = path)) as [->|Hne].
  - rewrite lookup_insert_eq. cbn. apply prefix_app_r. reflexivity.
  - rewrite lookup_insert_ne by congruence. reflexivity.
Qed.

Hint Resolve grows_set_settings grows_set_takeoutId grows_set_userpicsProcess
  grows_set_fileProcess grows_set_dialogsProcess grows_set_fileCache
  grows_set_static_files grows_error grows_error_text grows_send grows_call
  writeBlock_grows : grows.

Ltac keeps := invert_ok; eauto 12 with grows.

Lemma mainRequest_grows request s s' :
  mainRequest request s = Ok s' -> grows s0 s -> grows s0 s'.
Proof. unfold mainRequest. intros. keeps. Qed.
Lemma fileRequest_grows location offset s s' :
  fileRequest location offset s = Ok s' -> grows s0 s -> grows s0 s'.
Proof. unfold fileRequest. intros. keeps. Qed.
Hint Resolve mainRequest_grows fileRequest_grows : grows.

Lemma loadFilePart_grows s s' :
  loadFilePart s = Ok s' -> grows s0 s -> grows s0 s'.
Proof. unfold loadFilePart. intros. keeps. Qed.
Hint Resolve loadFilePart_grows : grows.

Lemma loadFile_grows file done s s' :
  loadFile file done s = Ok s' -> grows s0 s -> grows s0 s'.
Proof. unfold loadFile, prepareFileProcess. intros. keeps. Qed.
Hint Resolve loadFile_grows : grows.

Lemma writePreloadedFile_grows file s ready file' s' :
  writePreloadedFile file s = Ok (ready, file', s') ->
  grows s0 s -> grows s0 s'.
Proof. unfold writePreloadedFile. intros. keeps. Qed.
Hint Resolve writePreloadedFile_grows : grows.

Lemma processFileLoad_grows file done message s ready file' s' :
  processFileLoad file done message s = Ok (ready, file', s') ->
  grows s0 s -> grows s0 s'.
Proof.
  unfold processFileLoad. intros Hp Hs.
  destruct (negb (isEmpty _)); [invert_ok; assumption|].
  destruct (negb (FileLocation_valid _)); [invert_ok; assumption|].
  apply bind_Ok in Hp as ([[preloaded file1] s1] & Hw & Hp).
  apply writePreloadedFile_grows in Hw; [|assumption].
  destruct preloaded; [invert_ok; assumption|].
  destruct (_settings s1); [|discriminate].
  destruct (bool_decide _); [invert_ok; assumption|].
  destruct (bool_decide _); [invert_ok; assumption|].
  invert_ok. eauto with grows.
Qed.
Hint Resolve processFileLoad_grows : grows.

Lemma userpics_set_fileIndex_grows index s s' :
  userpics_set_fileIndex index s = Ok s' -> grows s0 s -> grows s0 s'.
Proof. unfold userpics_set_fileIndex. intros. keeps. Qed.
Lemma userpics_store_file_grows index file s :
  grows s0 s -> grows s0 (userpics_store_file index file s).
Proof. unfold userpics_store_file. intros. repeat case_match; eauto with grows. Qed.
Hint Resolve userpics_set_fileIndex_grows userpics_store_file_grows : grows.

Lemma loadNextUserpic_loop_grows rest : forall s exit s',
  loadNextUserpic_loop rest s = Ok (exit, s') -> grows s0 s -> grows s0 s'.
Proof.
  induction rest as [|photo rest IH]; intros s exit s' Hloop Hs;
    cbn [loadNextUserpic_loop] in Hloop.
  - invert_ok. eauto with grows.
  - destruct (_userpicsProcess s); [|discriminate].
    apply bind_Ok in Hloop as (s1 & Hs1 & Hloop).
    apply bind_Ok in Hloop as ([[ready file] s2] & Hload & Hloop).
    destruct ready.
    + eapply IH; [exact Hloop|]. eauto with grows.
    + invert_ok. eauto with grows.
Qed.
Hint Resolve loadNextUserpic_loop_grows : grows.

Lemma finishUserpics_grows s s' :
  finishUserpics s = Ok s' -> grows s0 s -> grows s0 s'.
Proof. unfold finishUserpics. intros. keeps. Qed.
Hint Resolve finishUserpics_grows : grows.
Lemma loadNextUserpic_grows s s' :
  loadNextUserpic s = Ok s' -> grows s0 s -> grows s0 s'.
Proof. unfold loadNextUserpic. intros. keeps. Qed.
Hint Resolve loadNextUserpic_grows : grows.
Lemma loadUserpicsFiles_grows slice s s' :
  loadUserpicsFiles slice s = Ok s' -> grows s0 s -> grows s0 s'.
Proof. unfold loadUserpicsFiles. intros. keeps. Qed.
Hint Resolve loadUserpicsFiles_grows : grows.
Lemma handleUserpicsSlice_grows result s s' :
  handleUserpicsSlice result s = Ok s' -> grows s0 s -> grows s0 s'.
Proof. unfold handleUserpicsSlice. intros. keeps. Qed.
Hint Resolve handleUserpicsSlice_grows : grows.
Lemma loadUserpicDone_grows relativePath s s' :
  loadUserpicDone relativePath s = Ok s' -> grows s0 s -> grows s0 s'.
Proof. unfold loadUserpicDone. intros. keeps. Qed.
Hint Resolve loadUserpicDone_grows : grows.
Lemma requestUserpics_grows s s' :
  requestUserpics s = Ok s' -> grows s0 s -> grows s0 s'.
Proof. unfold requestUserpics. intros. keeps. Qed.
Lemma requestUserpics_done_grows result s s' :
  requestUserpics_done result s = Ok s' -> grows s0 s -> grows s0 s'.
Proof. unfold requestUserpics_done. intros. keeps. Qed.
Hint Resolve requestUserpics_grows requestUserpics_done_grows : grows.

Lemma dialogs_set_single_grows single s s' :
  dialogs_set_single single s = Ok s' -> grows s0 s -> grows s0 s'.
Proof. unfold dialogs_set_single. intros. keeps. Qed.
Hint Resolve dialogs_set_single_grows : grows.
Lemma requestMessagesSlice_grows s s' :
  requestMessagesSlice s = Ok s' -> grows s0 s -> grows s0 s'.
Proof. unfold requestMessagesSlice. intros. keeps. Qed.
Hint Resolve requestMessagesSlice_grows : grows.
Lemma finishDialogs_grows s s' :
  finishDialogs s = Ok s' -> grows s0 s -> grows s0 s'.
Proof. unfold finishDialogs. intros. keeps. Qed.
Hint Resolve finishDialogs_grows : grows.
Lemma requestNextDialog_grows s s' :
  requestNextDialog s = Ok s' -> grows s0 s -> grows s0 s'.
Proof. unfold requestNextDialog. intros. keeps. Qed.
Hint Resolve requestNextDialog_grows : grows.
Lemma finishMessages_grows s s' :
  finishMessages s = Ok s' -> grows s0 s -> grows s0 s'.
Proof. unfold finishMessages. intros. keeps. Qed.
Hint Resolve finishMessages_grows : grows.
Lemma messages_store_file_grows index file s :
  grows s0 s -> grows s0 (messages_store_file index file s).
Proof. unfold messages_store_file. intros. repeat case_match; eauto with grows. Qed.
Hint Resolve messages_store_file_grows : grows.

Lemma loadNextMessageFile_loop_grows rest : forall s exit s',
  loadNextMessageFile_loop rest s = Ok (exit, s') -> grows s0 s -> grows s0 s'.
Proof.
  induction rest as [|message rest IH]; intros s exit s' Hloop Hs;
    cbn [loadNextMessageFile_loop] in Hloop.
  - invert_ok. eauto with grows.
  - apply bind_Ok in Hloop as (process & Hprocess & Hloop).
    apply bind_Ok in Hloop as (s1 & Hs1 & Hloop).
    apply bind_Ok in Hloop as ([[ready file] s2] & Hload & Hloop).
    destruct ready.
    + eapply IH; [exact Hloop|]. eauto with grows.
    + invert_ok. eauto with grows.
Qed.
Hint Resolve loadNextMessageFile_loop_grows : grows.

Lemma loadNextMessageFile_grows s s' :
  loadNextMessageFile s = Ok s' -> grows s0 s -> grows s0 s'.
Proof. unfold loadNextMessageFile. intros. keeps. Qed.
Hint Resolve loadNextMessageFile_grows : grows.
Lemma loadMessagesFiles_grows slice s s' :
  loadMessagesFiles slice s = Ok s' -> grows s0 s -> grows s0 s'.
Proof. unfold loadMessagesFiles. intros. keeps. Qed.
Hint Resolve loadMessagesFiles_grows : grows.
Lemma loadMessageFileDone_grows relativePath s s' :
  loadMessageFileDone relativePath s = Ok s' -> grows s0 s -> grows s0 s'.
Proof. unfold loadMessageFileDone. intros. keeps. Qed.
Hint Resolve loadMessageFileDone_grows : grows.
Lemma requestMessagesSlice_done_grows result s s' :
  requestMessagesSlice_done result s = Ok s' -> grows s0 s -> grows s0 s'.
Proof. unfold requestMessagesSlice_done. intros. keeps. Qed.
Hint Resolve requestMessagesSlice_done_grows : grows.
Lemma requestDialogsSlice_grows s s' :
  requestDialogsSlice s = Ok s' -> grows s0 s -> grows s0 s'.
Proof. unfold requestDialogsSlice. intros. keeps. Qed.
Lemma appendDialogsSlice_grows info s s' :
  appendDialogsSlice info s = Ok s' -> grows s0 s -> grows s0 s'.
Proof. unfold appendDialogsSlice. intros. keeps. Qed.
Lemma fillDialogsPaths_grows s s' :
  fillDialogsPaths s = Ok s' -> grows s0 s -> grows s0 s'.
Proof. unfold fillDialogsPaths. intros. keeps. Qed.
Hint Resolve requestDialogsSlice_grows appendDialogsSlice_grows
  fillDialogsPaths_grows : grows.
Lemma finishDialogsList_grows s s' :
  finishDialogsList s = Ok s' -> grows s0 s -> grows s0 s'.
Proof. unfold finishDialogsList. intros. keeps. Qed.
Hint Resolve finishDialogsList_grows : grows.
Lemma requestDialogsSlice_done_grows result s s' :
  requestDialogsSlice_done result s = Ok s' -> grows s0 s -> grows s0 s'.
Proof.
  unfold requestDialogsSlice_done. intros Hdone Hs.
  destruct result; destruct (_ || _); keeps.
Qed.
Lemma requestDialogs_grows s s' :
  requestDialogs s = Ok s' -> grows s0 s -> grows s0 s'.
Proof. unfold requestDialogs. intros. keeps. Qed.
Hint Resolve requestDialogsSlice_done_grows requestDialogs_grows : grows.

Lemma filePartDone_finish_grows s s' :
  filePartDone_finish s = Ok s' -> grows s0 s -> grows s0 s'.
Proof. unfold filePartDone_finish. intros. keeps. Qed.
Hint Resolve filePartDone_finish_grows : grows.

Lemma write_ready_grows path requests : forall s success rest s',
  write_ready path requests s = (success, rest, s') ->
  grows s0 s -> grows s0 s'.
Proof.
  induction requests as [|front requests IH]; intros s success rest s';
    cbn [write_ready].
  - intros [= <- <- <-]. exact id.
  - destruct (is_empty (Request_bytes front)).
    + intros [= <- <- <-]. exact id.
    + destruct (writeBlock _ _ _) as [written s1] eqn:Hwrite.
      destruct written.
      * intros Hrest Hs. eapply IH; [exact Hrest|]. eauto with grows.
      * intros [= <- <- <-]. eauto with grows.
Qed.
Hint Resolve write_ready_grows : grows.

Lemma filePartDone_grows offset result s s' :
  filePartDone offset result s = Ok s' -> grows s0 s -> grows s0 s'.
Proof.
  unfold filePartDone. intros Hdone Hs.
  destruct (_fileProcess s) as [process|] eqn:Hprocess; [|discriminate].
  destruct (is_empty (FileProcess_requests process)) eqn:Hqueue;
    [discriminate|].
  cbn [negb Expects mbind Result_bind] in Hdone.
  destruct result as [bytes|]; [|invert_ok; eauto with grows].
  destruct (is_empty bytes) eqn:Hbytes.
  { destruct (bool_decide _); invert_ok; eauto with grows. }
  destruct (fill_request offset bytes _) as [filled|] eqn:Hfill;
    [|discriminate].
  destruct (write_ready _ filled s) as [[success rest] s1] eqn:Hwrite.
  apply write_ready_grows in Hwrite; [|assumption].
  destruct (negb success); [invert_ok; eauto with grows|].
  destruct (_ || _); eauto with grows.
Qed.
Hint Resolve filePartDone_grows : grows.

Lemma step_grows_from e s s' : step e s = Ok s' -> grows s0 s -> grows s0 s'.
Proof.
  destruct e; cbn [step]; intros Hstep Hs;
    unfold startExport, startMainSession, requestPersonalInfo,
      requestContacts, requestSessions, startMainSession_done,
      requestPersonalInfo_done in Hstep;
    keeps.
Qed.

Lemma run_grows_from events : forall s s',
  run events s = Ok s' -> grows s0 s -> grows s0 s'.
Proof.
  induction events as [|e events IH]; intros s s' Hrun Hs; cbn in Hrun.
  - now invert_ok.
  - apply bind_Ok in Hrun as (s1 & Hstep & Hrun).
    eapply IH; [exact Hrun|]. eapply step_grows_from; eassumption.
Qed.

End Growth.

Section GrowthClaims.
Context `{Externals} `{FileSystem}.

Lemma run_grows events s s' : run events s = Ok s' -> grows s s'.
Proof. intros Hrun. eapply run_grows_from; [exact Hrun | apply grows_refl]. Qed.

(** X14.  Once the settings are there they stay: no run of events
    changes them, and [startExport] refuses to be called again. *)
Theorem settings_are_set_once (events : list Event) (s s' : State)
    (settings other : Settings) :
  _settings s = Some settings ->
  run events s = Ok s' ->
  _settings s' = Some settings /\
  startExport other s' = Fault "Expects(_settings == nullptr)".
Proof.
  intros Hsettings (_ & _ & _ & Hset & _)%run_grows.
  apply Hset in Hsettings. split; [exact Hsettings|].
  unfold startExport. rewrite Hsettings. reflexivity.
Qed.

End GrowthClaims.

(* --------------------------------------------------------------------- *)
(** ** Preconditions and the ends of lists *)
(* --------------------------------------------------------------------- *)

Section Edges.
Context `{Externals} `{FileSystem}.
Local Open Scope Z_scope.

(** X9.  Without a takeout session none of the request methods goes
    through: each of them stops at a failed precondition. *)
Theorem requests_need_the_takeout (e : Event) (s : State) :
  e ∈ request_calls ->
  _takeoutId s = None ->
  exists what, step e s = Fault what.
Proof.
  intros He Hnone. unfold request_calls in He.
  repeat (apply elem_of_cons in He as [->|He]);
    [..|apply elem_of_nil in He; contradiction];
    cbn [step];
    unfold requestPersonalInfo, requestContacts, requestSessions,
      requestUserpics, requestDialogs, requestDialogsSlice, mainRequest;
    cbn [_takeoutId set_userpicsProcess set_dialogsProcess _dialogsProcess];
    rewrite ?Hnone; eauto.
  - destruct (bool_decide _); cbn [Expects mbind Result_bind]; eauto.
  - destruct (bool_decide _); cbn [Expects mbind Result_bind]; eauto.
Qed.

(** X16.  [requestNextDialog] compares the index of the next dialog
    with the constant 11 and not with the number of dialogs.  Past the
    end of a list of fewer than 11 dialogs it reads the list out of
    range; from the index 11 on it finishes the dialogs, however many
    of them are still waiting. *)
Theorem requestNextDialog_compares_with_11 (s : State)
    (process : DialogsProcess) :
  _dialogsProcess s = Some process ->
  DialogsProcess_single process = None ->
  let index := DialogsProcess_singleIndex process + 1 in
  let dialogs := DialogsInfo_list (DialogsProcess_info process) in
  0 <= index <= INT_MAX ->
  (index < 11 ->
   Z.of_nat (length dialogs) <= index ->
   requestNextDialog s =
   Fault "_dialogsProcess->info.list[index] out of range") /\
  (11 <= index ->
   requestNextDialog s = Ok (call DialogsFinish (set_dialogsProcess None s))).
Proof.
  intros Hprocess Hsingle index dialogs Hindex.
  assert (Hwrap : to_int32 index = index).
  { apply to_int32_id. unfold is_int32, INT_MAX in *. lia. }
  unfold requestNextDialog. rewrite Hprocess, Hsingle.
  rewrite (bool_decide_eq_true_2 (@None Single = None)) by reflexivity.
  cbn [Expects mbind Result_bind]. fold index. rewrite Hwrap.
  split.
  - intros Hlt Hshort.
    rewrite bool_decide_eq_true_2 by lia.
    rewrite bool_decide_eq_true_2 by lia.
    fold dialogs.
    rewrite (lookup_ge_None_2 dialogs) by lia. reflexivity.
  - intros Hge.
    rewrite bool_decide_eq_false_2 by lia.
    unfold finishDialogs. cbn [_dialogsProcess set_dialogsProcess
      DialogsProcess_single]. rewrite ?Hsingle.
    rewrite (bool_decide_eq_true_2 (@None Single = None)) by reflexivity.
    reflexivity.
Qed.

(** X17.  The dialogs of an answer of the variant [messages.dialogs],
    which holds the whole list, are not appended before the list is
    closed.  When it is the first answer the list is empty, and the
    call reads its first element out of range. *)
Theorem complete_dialogs_answer_is_dropped (s : State)
    (process : DialogsProcess)
    (dialogs : list MTPDialog) (messages : list MTPMessage)
    (chats : list MTPChat) (users : list MTPUser) :
  _dialogsProcess s = Some process ->
  DialogsInfo_list (DialogsProcess_info process) = [] ->
  DialogsProcess_single process = None ->
  DialogsProcess_singleIndex process = -1 ->
  requestDialogsSlice_done
    (MTP_messages_dialogs dialogs messages chats users) s =
  Fault "_dialogsProcess->info.list[index] out of range".
Proof.
  intros Hprocess Hlist Hsingle Hindex.
  unfold requestDialogsSlice_done. cbn [orb].
  unfold finishDialogsList. rewrite Hprocess, Hlist.
  unfold fillDialogsPaths.
  cbn [_dialogsProcess set_dialogsProcess mbind Result_bind rev app
       DialogsProcess_info DialogsInfo_list fillDialogsPaths_list
       fillDialogsPaths_loop].
  unfold requestNextDialog.
  cbn [_dialogsProcess call set_dialogsProcess DialogsProcess_single
       DialogsProcess_singleIndex DialogsProcess_info DialogsInfo_list].
  rewrite Hsingle, Hindex.
  rewrite (bool_decide_eq_true_2 (@None Single = None)) by reflexivity.
  reflexivity.
Qed.

(** X18.  A file that comes with its content (a cached photo size),
    has a valid location and is not in the cache cannot be stored
    while no transfer is active: [writePreloadedFile] writes through
    [_fileProcess], which is null then. *)
Theorem inline_content_needs_an_active_transfer (file : File)
    (done : FileDone) (message : option Message) (s : State) :
  File_relativePath file = "" ->
  FileLocation_valid (File_location file) = true ->
  File_content file <> [] ->
  _settings s <> None ->
  find (_fileCache s) (File_location file) = None ->
  _fileProcess s = None ->
  processFileLoad file done message s =
  Fault "_fileProcess->file on a null _fileProcess".
Proof.
  intros Hpath Hvalid Hcontent Hsettings Hfind Hnone.
  unfold processFileLoad. rewrite Hpath, Hvalid.
  cbn [isEmpty negb].
  unfold writePreloadedFile.
  rewrite bool_decide_eq_true_2 by assumption.
  cbn [Expects mbind Result_bind]. rewrite Hfind.
  rewrite is_empty_false by assumption. cbn [negb].
  unfold prepareFileProcess.
  destruct (_settings s) as [settings|]; [|contradiction].
  cbn [mbind Result_bind]. rewrite Hnone. reflexivity.
Qed.

(** X19.  An answer without photos ends the user photos, whatever
    count it reports: [start] is called with the count, the slice
    handler with an empty slice, then [finish]; the process is gone and
    nothing is requested. *)
Theorem empty_userpics_page_finishes (result : MTPphotos_Photos)
    (s : State) (process : UserpicsProcess) :
  _userpicsProcess s = Some process ->
  UserpicsProcess_slice process = None ->
  photos_of result = [] ->
  exists s',
    requestUserpics_done result s = Ok s' /\
    callbacks s' =
      callbacks s ++
      [UserpicsStart (mkUserpicsInfo (count_of result));
       UserpicsHandleSlice (mkUserpicsSlice []); UserpicsFinish] /\
    _userpicsProcess s' = None /\
    sent s' = sent s /\
    _errors s' = _errors s.
Proof.
  intros Hprocess Hslice Hphotos.
  unfold requestUserpics_done.
  rewrite bool_decide_eq_true_2 by (rewrite Hprocess; discriminate).
  cbn [Expects mbind Result_bind].
  unfold handleUserpicsSlice. cbn [_userpicsProcess call]. rewrite Hprocess.
  destruct result as [photos|count photos]; cbn [photos_of] in Hphotos;
    subst photos; cbn [ParseUserpicsSlice map count_of length];
    unfold loadUserpicsFiles;
    cbn [_userpicsProcess set_userpicsProcess call];
    rewrite ?Hprocess; cbn [UserpicsProcess_slice];
    rewrite Hslice;
    rewrite bool_decide_eq_true_2 by reflexivity;
    cbn [Expects mbind Result_bind is_empty UserpicsSlice_list];
    unfold loadNextUserpic;
    cbn -[app];
    (eexists; split; [reflexivity|]);
    cbn; rewrite <- !app_assoc; repeat split; reflexivity.
Qed.

End Edges.

(* --------------------------------------------------------------------- *)
(** ** The requests the wrapper sends *)
(* --------------------------------------------------------------------- *)

Section Orderly.
Context `{Externals} `{FileSystem}.
Local Open Scope Z_scope.

Create HintDb orderly discriminated.

Lemma to_int32_divide (z : Z) :
  (kFileChunkSize | z) -> (kFileChunkSize | to_int32 z).
Proof.
  intros [k ->]. unfold to_int32. rewrite Z.mod_eq by lia.
  exists (k - 2^15 * ((k * kFileChunkSize + 2^31) / 2^32)).
  unfold kFileChunkSize. lia.
Qed.

Lemma orderly_set_settings v s : orderly s -> orderly (set_settings v s).
Proof. exact id. Qed.
Lemma orderly_set_takeoutId v s : orderly s -> orderly (set_takeoutId v s).
Proof. exact id. Qed.
Lemma orderly_set_userpicsProcess v s :
  orderly s -> orderly (set_userpicsProcess v s).
Proof. exact id. Qed.
Lemma orderly_set_dialogsProcess v s :
  orderly s -> orderly (set_dialogsProcess v s).
Proof. exact id. Qed.
Lemma orderly_set_fileCache c s :
  cache_bounded c -> orderly s -> orderly (set_fileCache c s).
Proof. intros Hc (Hsent & Haligned & _). repeat split; assumption || apply Hc. Qed.
Lemma orderly_cache s : orderly s -> cache_bounded (_fileCache s).
Proof. intros (_ & _ & Hc). exact Hc. Qed.
Lemma cache_bounded_save c location relativePath :
  cache_bounded c -> cache_bounded (save c location relativePath).
Proof.
  intros (Hlimit & Hqueued & Hlength).
  assert (Hu : to_uint64 (_limit c) = kLocationCacheSize).
  { rewrite Hlimit. reflexivity. }
  split; [|split].
  - rewrite save_limit. exact Hlimit.
  - apply save_queued, Hqueued.
  - rewrite <- Hu. apply save_length. rewrite Hu. exact Hlength.
Qed.
Lemma orderly_set_disk v s : orderly s -> orderly (set_disk v s).
Proof. exact id. Qed.
Lemma orderly_set_static_files v s :
  orderly s -> orderly (set_static_files v s).
Proof. exact id. Qed.
Lemma orderly_error e s : orderly s -> orderly (error e s).
Proof. exact id. Qed.
Lemma orderly_error_text t s : orderly s -> orderly (error_text t s).
Proof. exact id. Qed.
Lemma orderly_call c s : orderly s -> orderly (call c s).
Proof. exact id. Qed.
Lemma orderly_no_transfer s : orderly s -> orderly (set_fileProcess None s).
Proof.
  intros (Hsent & _ & Hcache).
  split; [exact Hsent|]. split; [intros process [=] | exact Hcache].
Qed.

Lemma orderly_transfer process s :
  (kFileChunkSize | FileProcess_offset process) ->
  Forall well_formed (sent s) ->
  cache_bounded (_fileCache s) ->
  orderly (set_fileProcess (Some process) s).
Proof.
  intros Hoffset Hsent Hcache. split; [exact Hsent|].
  split; [|exact Hcache]. intros process' [= <-]. exact Hoffset.
Qed.

Lemma orderly_send r s : well_formed r -> orderly s -> orderly (send r s).
Proof.
  intros Hr (Hsent & Haligned & Hcache).
  split; [|split; [exact Haligned | exact Hcache]].
  cbn. apply Forall_app. split; [exact Hsent|].
  constructor; [exact Hr | constructor].
Qed.

Hint Resolve orderly_set_settings orderly_set_takeoutId
  orderly_set_userpicsProcess orderly_set_dialogsProcess
  orderly_set_fileCache orderly_set_disk orderly_set_static_files
  orderly_error orderly_error_text orderly_call orderly_no_transfer
  orderly_cache cache_bounded_save : orderly.

Hint Extern 1 (main_request _) =>
  (cbn; repeat split; reflexivity) : orderly.

Ltac keeps := invert_ok; eauto 12 with orderly.

Lemma mainRequest_orderly request s s' :
  mainRequest request s = Ok s' -> main_request request ->
  orderly s -> orderly s'.
Proof.
  unfold mainRequest. intros Hsend Hmain Hs. invert_ok.
  apply orderly_send; [|exact Hs].
  unfold well_formed. cbn.
  destruct request; cbn in Hmain |- *; try contradiction; eauto.
Qed.
Hint Resolve mainRequest_orderly : orderly.

Lemma writeBlock_orderly path block s success s' :
  writeBlock path block s = (success, s') -> orderly s -> orderly s'.
Proof.
  unfold writeBlock. destruct (writeBlock_accepts _ _ _);
    intros [= <- <-]; exact id.
Qed.
Hint Resolve writeBlock_orderly : orderly.

Lemma fileRequest_orderly location offset s s' :
  fileRequest location offset s = Ok s' ->
  (kFileChunkSize | offset) ->
  Forall well_formed (sent s) ->
  Forall well_formed (sent s') /\ _fileCache s' = _fileCache s.
Proof.
  unfold fileRequest. intros Hsend Hoffset Hs. invert_ok.
  split; [|reflexivity].
  cbn. apply Forall_app. split; [exact Hs|].
  constructor; [|constructor].
  unfold well_formed. cbn [Sent_request Sent_takeout Sent_dc Sent_media].
  refine (conj _ (conj _ (conj eq_refl (conj eq_refl Hoffset)))); [eauto|].
  intros Hdc.
  match goal with
  | Hd : negb (dcId location =? 0) = true |- _ =>
      rewrite Hdc in Hd; discriminate Hd
  end.
Qed.

Lemma loadFilePart_orderly s s' :
  loadFilePart s = Ok s' -> orderly s -> orderly s'.
Proof.
  unfold loadFilePart. intros Hload Hs.
  destruct (_fileProcess s) as [process|] eqn:Hprocess;
    [|invert_ok; exact Hs].
  destruct (_ || _); [invert_ok; exact Hs|].
  destruct Hs as (Hsent & Haligned & Hcache).
  specialize (Haligned process Hprocess).
  apply bind_Ok in Hload as (s1 & Hs1 & Hload).
  apply fileRequest_orderly in Hs1 as [Hsent1 Hcache1];
    [|exact Haligned|exact Hsent].
  invert_ok. apply orderly_transfer.
  - cbn. apply to_int32_divide. apply Z.divide_add_r; [exact Haligned|].
    reflexivity.
  - exact Hsent1.
  - rewrite Hcache1. exact Hcache.
Qed.
Hint Resolve loadFilePart_orderly : orderly.

Lemma loadFile_orderly file done s s' :
  loadFile file done s = Ok s' -> orderly s -> orderly s'.
Proof.
  unfold loadFile, prepareFileProcess. intros Hload Hs. invert_ok.
  eapply loadFilePart_orderly; [exact Hload|].
  apply orderly_transfer; [|apply Hs|apply Hs]. cbn. apply Z.divide_0_r.
Qed.
Hint Resolve loadFile_orderly : orderly.

Lemma writePreloadedFile_orderly file s ready file' s' :
  writePreloadedFile file s = Ok (ready, file', s') ->
  orderly s -> orderly s'.
Proof. unfold writePreloadedFile. intros. keeps. Qed.
Hint Resolve writePreloadedFile_orderly : orderly.

Lemma processFileLoad_orderly file done message s ready file' s' :
  processFileLoad file done message s = Ok (ready, file', s') ->
  orderly s -> orderly s'.
Proof.
  unfold processFileLoad. intros Hp Hs.
  destruct (negb (isEmpty _)); [invert_ok; assumption|].
  destruct (negb (FileLocation_valid _)); [invert_ok; assumption|].
  apply bind_Ok in Hp as ([[preloaded file1] s1] & Hw & Hp).
  apply writePreloadedFile_orderly in Hw; [|assumption].
  destruct preloaded; [invert_ok; assumption|].
  destruct (_settings s1); [|discriminate].
  destruct (bool_decide _); [invert_ok; assumption|].
  destruct (bool_decide _); [invert_ok; assumption|].
  invert_ok. eauto with orderly.
Qed.
Hint Resolve processFileLoad_orderly : orderly.

Lemma userpics_set_fileIndex_orderly index s s' :
  userpics_set_fileIndex index s = Ok s' -> orderly s -> orderly s'.
Proof. unfold userpics_set_fileIndex. intros. keeps. Qed.
Lemma userpics_store_file_orderly index file s :
  orderly s -> orderly (userpics_store_file index file s).
Proof. unfold userpics_store_file. intros. repeat case_match; eauto with orderly. Qed.
Hint Resolve userpics_set_fileIndex_orderly userpics_store_file_orderly : orderly.

Lemma loadNextUserpic_loop_orderly rest : forall s exit s',
  loadNextUserpic_loop rest s = Ok (exit, s') -> orderly s -> orderly s'.
Proof.
  induction rest as [|photo rest IH]; intros s exit s' Hloop Hs;
    cbn [loadNextUserpic_loop] in Hloop.
  - invert_ok. eauto with orderly.
  - destruct (_userpicsProcess s); [|discriminate].
    apply bind_Ok in Hloop as (s1 & Hs1 & Hloop).
    apply bind_Ok in Hloop as ([[ready file] s2] & Hload & Hloop).
    destruct ready.
    + eapply IH; [exact Hloop|]. eauto with orderly.
    + invert_ok. eauto with orderly.
Qed.
Hint Resolve loadNextUserpic_loop_orderly : orderly.

Lemma finishUserpics_orderly s s' :
  finishUserpics s = Ok s' -> orderly s -> orderly s'.
Proof. unfold finishUserpics. intros. keeps. Qed.
Hint Resolve finishUserpics_orderly : orderly.
Lemma loadNextUserpic_orderly s s' :
  loadNextUserpic s = Ok s' -> orderly s -> orderly s'.
Proof. unfold loadNextUserpic. intros. keeps. Qed.
Hint Resolve loadNextUserpic_orderly : orderly.
Lemma loadUserpicsFiles_orderly slice s s' :
  loadUserpicsFiles slice s = Ok s' -> orderly s -> orderly s'.
Proof. unfold loadUserpicsFiles. intros. keeps. Qed.
Hint Resolve loadUserpicsFiles_orderly : orderly.
Lemma handleUserpicsSlice_orderly result s s' :
  handleUserpicsSlice result s = Ok s' -> orderly s -> orderly s'.
Proof. unfold handleUserpicsSlice. intros. keeps. Qed.
Hint Resolve handleUserpicsSlice_orderly : orderly.
Lemma loadUserpicDone_orderly relativePath s s' :
  loadUserpicDone relativePath s = Ok s' -> orderly s -> orderly s'.
Proof. unfold loadUserpicDone. intros. keeps. Qed.
Hint Resolve loadUserpicDone_orderly : orderly.
Lemma requestUserpics_orderly s s' :
  requestUserpics s = Ok s' -> orderly s -> orderly s'.
Proof. unfold requestUserpics. intros. keeps. Qed.
Lemma requestUserpics_done_orderly result s s' :
  requestUserpics_done result s = Ok s' -> orderly s -> orderly s'.
Proof. unfold requestUserpics_done. intros. keeps. Qed.
Hint Resolve requestUserpics_orderly requestUserpics_done_orderly : orderly.

Lemma dialogs_set_single_orderly single s s' :
  dialogs_set_single single s = Ok s' -> orderly s -> orderly s'.
Proof. unfold dialogs_set_single. intros. keeps. Qed.
Hint Resolve dialogs_set_single_orderly : orderly.
Lemma requestMessagesSlice_orderly s s' :
  requestMessagesSlice s = Ok s' -> orderly s -> orderly s'.
Proof. unfold requestMessagesSlice. intros. keeps. Qed.
Hint Resolve requestMessagesSlice_orderly : orderly.
Lemma finishDialogs_orderly s s' :
  finishDialogs s = Ok s' -> orderly s -> orderly s'.
Proof. unfold finishDialogs. intros. keeps. Qed.
Hint Resolve finishDialogs_orderly : orderly.
Lemma requestNextDialog_orderly s s' :
  requestNextDialog s = Ok s' -> orderly s -> orderly s'.
Proof. unfold requestNextDialog. intros. keeps. Qed.
Hint Resolve requestNextDialog_orderly : orderly.
Lemma finishMessages_orderly s s' :
  finishMessages s = Ok s' -> orderly s -> orderly s'.
Proof. unfold finishMessages. intros. keeps. Qed.
Hint Resolve finishMessages_orderly : orderly.
Lemma messages_store_file_orderly index file s :
  orderly s -> orderly (messages_store_file index file s).
Proof. unfold messages_store_file. intros. repeat case_match; eauto with orderly. Qed.
Hint Resolve messages_store_file_orderly : orderly.

Lemma loadNextMessageFile_loop_orderly rest : forall s exit s',
  loadNextMessageFile_loop rest s = Ok (exit, s') -> orderly s -> orderly s'.
Proof.
  induction rest as [|message rest IH]; intros s exit s' Hloop Hs;
    cbn [loadNextMessageFile_loop] in Hloop.
  - invert_ok. eauto with orderly.
  - apply bind_Ok in Hloop as (process & Hprocess & Hloop).
    apply bind_Ok in Hloop as (s1 & Hs1 & Hloop).
    apply bind_Ok in Hloop as ([[ready file] s2] & Hload & Hloop).
    destruct ready.
    + eapply IH; [exact Hloop|]. eauto with orderly.
    + invert_ok. eauto with orderly.
Qed.
Hint Resolve loadNextMessageFile_loop_orderly : orderly.

Lemma loadNextMessageFile_orderly s s' :
  loadNextMessageFile s = Ok s' -> orderly s -> orderly s'.
Proof. unfold loadNextMessageFile. intros. keeps. Qed.
Hint Resolve loadNextMessageFile_orderly : orderly.
Lemma loadMessagesFiles_orderly slice s s' :
  loadMessagesFiles slice s = Ok s' -> orderly s -> orderly s'.
Proof. unfold loadMessagesFiles. intros. keeps. Qed.
Hint Resolve loadMessagesFiles_orderly : orderly.
Lemma loadMessageFileDone_orderly relativePath s s' :
  loadMessageFileDone relativePath s = Ok s' -> orderly s -> orderly s'.
Proof. unfold loadMessageFileDone. intros. keeps. Qed.
Hint Resolve loadMessageFileDone_orderly : orderly.
Lemma requestMessagesSlice_done_orderly result s s' :
  requestMessagesSlice_done result s = Ok s' -> orderly s -> orderly s'.
Proof. unfold requestMessagesSlice_done. intros. keeps. Qed.
Hint Resolve requestMessagesSlice_done_orderly : orderly.
Lemma requestDialogsSlice_orderly s s' :
  requestDialogsSlice s = Ok s' -> orderly s -> orderly s'.
Proof. unfold requestDialogsSlice. intros. keeps. Qed.
Lemma appendDialogsSlice_orderly info s s' :
  appendDialogsSlice info s = Ok s' -> orderly s -> orderly s'.
Proof. unfold appendDialogsSlice. intros. keeps. Qed.
Lemma fillDialogsPaths_orderly s s' :
  fillDialogsPaths s = Ok s' -> orderly s -> orderly s'.
Proof. unfold fillDialogsPaths. intros. keeps. Qed.
Hint Resolve requestDialogsSlice_orderly appendDialogsSlice_orderly
  fillDialogsPaths_orderly : orderly.
Lemma finishDialogsList_orderly s s' :
  finishDialogsList s = Ok s' -> orderly s -> orderly s'.
Proof. unfold finishDialogsList. intros. keeps. Qed.
Hint Resolve finishDialogsList_orderly : orderly.
Lemma requestDialogsSlice_done_orderly result s s' :
  requestDialogsSlice_done result s = Ok s' -> orderly s -> orderly s'.
Proof.
  unfold requestDialogsSlice_done. intros Hdone Hs.
  destruct result; destruct (_ || _); keeps.
Qed.
Lemma requestDialogs_orderly s s' :
  requestDialogs s = Ok s' -> orderly s -> orderly s'.
Proof. unfold requestDialogs. intros. keeps. Qed.
Hint Resolve requestDialogsSlice_done_orderly requestDialogs_orderly : orderly.

Lemma filePartDone_finish_orderly s s' :
  filePartDone_finish s = Ok s' -> orderly s -> orderly s'.
Proof. unfold filePartDone_finish. intros. keeps. Qed.
Hint Resolve filePartDone_finish_orderly : orderly.

Lemma write_ready_orderly path requests : forall s success rest s',
  write_ready path requests s = (success, rest, s') ->
  orderly s -> orderly s' /\ _fileProcess s' = _fileProcess s.
Proof.
  induction requests as [|front requests IH]; intros s success rest s';
    cbn [write_ready].
  - intros [= <- <- <-]. auto.
  - destruct (is_empty (Request_bytes front)).
    + intros [= <- <- <-]. auto.
    + destruct (writeBlock _ _ _) as [written s1] eqn:Hwrite.
      pose proof (writeBlock_frame _ _ _ _ _ Hwrite) as Hframe.
      destruct written.
      * intros Hrest Hs. apply IH in Hrest as [Hs' Hframe'];
          [|eauto with orderly].
        split; [exact Hs' | congruence].
      * intros [= <- <- <-]. eauto with orderly.
Qed.

Lemma filePartDone_orderly offset result s s' :
  filePartDone offset result s = Ok s' -> orderly s -> orderly s'.
Proof.
  unfold filePartDone. intros Hdone Hs.
  destruct (_fileProcess s) as [process|] eqn:Hprocess; [|discriminate].
  destruct (is_empty (FileProcess_requests process)) eqn:Hqueue;
    [discriminate|].
  cbn [negb Expects mbind Result_bind] in Hdone.
  destruct result as [bytes|]; [|invert_ok; eauto with orderly].
  destruct (is_empty bytes) eqn:Hbytes.
  { destruct (bool_decide _); invert_ok; eauto with orderly. }
  destruct (fill_request offset bytes _) as [filled|] eqn:Hfill;
    [|discriminate].
  destruct (write_ready _ filled s) as [[success rest] s1] eqn:Hwrite.
  assert (Haligned : (kFileChunkSize | FileProcess_offset process)).
  { destruct Hs as [_ Haligned]. apply Haligned, Hprocess. }
  apply write_ready_orderly in Hwrite as [Hs1 _]; [|assumption].
  assert (Hs2 : orderly
            (set_fileProcess
               (Some (FileProcess_set_requests process rest)) s1)).
  { apply orderly_transfer; [exact Haligned | apply Hs1 | apply Hs1]. }
  destruct (negb success); [invert_ok; eauto with orderly|].
  destruct (_ || _); eauto with orderly.
Qed.
Hint Resolve filePartDone_orderly : orderly.

Lemma step_orderly e s s' : step e s = Ok s' -> orderly s -> orderly s'.
Proof.
  destruct e; cbn [step]; intros Hstep Hs;
    unfold startExport, startMainSession, requestPersonalInfo,
      requestContacts, requestSessions, startMainSession_done,
      requestPersonalInfo_done in Hstep;
    keeps.
  apply orderly_send; [|eauto with orderly].
  unfold well_formed. cbn. auto.
Qed.

Lemma reachable_orderly s : reachable s -> orderly s.
Proof.
  induction 1 as [|e s s' _ IH Hstep].
  - split; [constructor|]. split; [intros process [=]|].
    split; [reflexivity|]. split; [|cbn; unfold kLocationCacheSize; lia].
    intros k Hk. cbn in Hk. rewrite lookup_empty in Hk.
    destruct Hk as [? [=]].
  - eapply step_orderly; eassumption.
Qed.

End Orderly.

Section OrderlyClaims.
Context `{Externals} `{FileSystem}.
Local Open Scope Z_scope.

(** X10.  Every request the wrapper has sent in a reachable state is
    well formed.  The request that opens the takeout goes out bare on
    the main route.  Every other request is wrapped in a takeout id;
    a chunk request goes to the data center of its file (never 0) on
    the media route and asks for [kFileChunkSize] bytes at an offset
    that is a multiple of [kFileChunkSize]; the others go out on the
    main route, and the page requests ask for pages of 100. *)
Theorem every_request_is_well_formed (s : State) (r : Sent) :
  reachable s -> r ∈ sent s -> well_formed r.
Proof.
  intros (Hsent & _)%reachable_orderly Hr.
  rewrite Forall_forall in Hsent. apply Hsent, Hr.
Qed.

(** X11.  In every reachable state the cache of the wrapper has the
    limit [kLocationCacheSize] it was made with and holds at most that
    many paths. *)
Theorem wrapper_cache_stays_bounded (s : State) :
  reachable s ->
  _limit (_fileCache s) = kLocationCacheSize /\
  Z.of_nat (length (_list (_fileCache s))) <= kLocationCacheSize /\
  Z.of_nat (size (_map (_fileCache s))) <= kLocationCacheSize.
Proof.
  intros (_ & _ & Hlimit & Hqueued & Hlength)%reachable_orderly.
  split; [exact Hlimit|]. split; [exact Hlength|].
  apply queued_size in Hqueued. lia.
Qed.

End OrderlyClaims.

(* --------------------------------------------------------------------- *)
(** ** The dialogs that are exported *)
(* --------------------------------------------------------------------- *)

Section Chosen.
Context `{Externals} `{FileSystem}.
Local Open Scope Z_scope.

Create HintDb chosen discriminated.

Lemma chosen_set_settings v s :
  bool_decide (_settings s = None) = true ->
  dialogs_selected s -> dialogs_selected (set_settings (Some v) s).
Proof.
  intros Hnone%bool_decide_eq_true_1 Hs process Hprocess.
  destruct (Hs process Hprocess) as [Hlist Hsingle].
  unfold acceptable in *. cbn [_settings set_settings].
  rewrite Hnone in Hlist, Hsingle. split.
  - destruct (DialogsInfo_list _) as [|info rest]; [constructor|].
    inversion Hlist; contradiction.
  - intros single Hs'. destruct (Hsingle single Hs').
Qed.
Lemma chosen_set_takeoutId v s : dialogs_selected s -> dialogs_selected (set_takeoutId v s).
Proof. exact id. Qed.
Lemma chosen_set_userpicsProcess v s :
  dialogs_selected s -> dialogs_selected (set_userpicsProcess v s).
Proof. exact id. Qed.
Lemma chosen_set_fileProcess v s : dialogs_selected s -> dialogs_selected (set_fileProcess v s).
Proof. exact id. Qed.
Lemma chosen_set_fileCache v s : dialogs_selected s -> dialogs_selected (set_fileCache v s).
Proof. exact id. Qed.
Lemma chosen_set_disk v s : dialogs_selected s -> dialogs_selected (set_disk v s).
Proof. exact id. Qed.
Lemma chosen_set_static_files v s : dialogs_selected s -> dialogs_selected (set_static_files v s).
Proof. exact id. Qed.
Lemma chosen_error e s : dialogs_selected s -> dialogs_selected (error e s).
Proof. exact id. Qed.
Lemma chosen_error_text t s : dialogs_selected s -> dialogs_selected (error_text t s).
Proof. exact id. Qed.
Lemma chosen_send r s : dialogs_selected s -> dialogs_selected (send r s).
Proof. exact id. Qed.
Lemma chosen_call c s : dialogs_selected s -> dialogs_selected (call c s).
Proof. exact id. Qed.
Lemma chosen_no_dialogs s : dialogs_selected (set_dialogsProcess None s).
Proof. intros process [=]. Qed.

(** The general way to change the dialogs process. *)
Lemma chosen_update process' s :
  Forall (acceptable s) (DialogsInfo_list (DialogsProcess_info process')) ->
  (forall single, DialogsProcess_single process' = Some single ->
                  acceptable s (Single_info single)) ->
  dialogs_selected (set_dialogsProcess (Some process') s).
Proof. intros Hlist Hsingle process [= <-]. split; assumption. Qed.

Hint Resolve chosen_set_settings chosen_set_takeoutId
  chosen_set_userpicsProcess chosen_set_fileProcess chosen_set_fileCache
  chosen_set_disk chosen_set_static_files chosen_error chosen_error_text
  chosen_send chosen_call chosen_no_dialogs : chosen.

Ltac keeps := invert_ok; eauto 12 with chosen.

Lemma writeBlock_chosen path block s success s' :
  writeBlock path block s = (success, s') -> dialogs_selected s -> dialogs_selected s'.
Proof.
  unfold writeBlock. destruct (writeBlock_accepts _ _ _);
    intros [= <- <-]; exact id.
Qed.
Hint Resolve writeBlock_chosen : chosen.

Lemma mainRequest_chosen request s s' :
  mainRequest request s = Ok s' -> dialogs_selected s -> dialogs_selected s'.
Proof. unfold mainRequest. intros. keeps. Qed.
Lemma fileRequest_chosen location offset s s' :
  fileRequest location offset s = Ok s' -> dialogs_selected s -> dialogs_selected s'.
Proof. unfold fileRequest. intros. keeps. Qed.
Hint Resolve mainRequest_chosen fileRequest_chosen : chosen.

Lemma loadFilePart_chosen s s' :
  loadFilePart s = Ok s' -> dialogs_selected s -> dialogs_selected s'.
Proof. unfold loadFilePart. intros. keeps. Qed.
Hint Resolve loadFilePart_chosen : chosen.

Lemma loadFile_chosen file done s s' :
  loadFile file done s = Ok s' -> dialogs_selected s -> dialogs_selected s'.
Proof. unfold loadFile, prepareFileProcess. intros. keeps. Qed.
Hint Resolve loadFile_chosen : chosen.

Lemma writePreloadedFile_chosen file s ready file' s' :
  writePreloadedFile file s = Ok (ready, file', s') ->
  dialogs_selected s -> dialogs_selected s'.
Proof. unfold writePreloadedFile. intros. keeps. Qed.
Hint Resolve writePreloadedFile_chosen : chosen.

Lemma processFileLoad_chosen file done message s ready file' s' :
  processFileLoad file done message s = Ok (ready, file', s') ->
  dialogs_selected s -> dialogs_selected s'.
Proof.
  unfold processFileLoad. intros Hp Hs.
  destruct (negb (isEmpty _)); [invert_ok; assumption|].
  destruct (negb (FileLocation_valid _)); [invert_ok; assumption|].
  apply bind_Ok in Hp as ([[preloaded file1] s1] & Hw & Hp).
  apply writePreloadedFile_chosen in Hw; [|assumption].
  destruct preloaded; [invert_ok; assumption|].
  destruct (_settings s1); [|discriminate].
  destruct (bool_decide _); [invert_ok; assumption|].
  destruct (bool_decide _); [invert_ok; assumption|].
  invert_ok. eauto with chosen.
Qed.
Hint Resolve processFileLoad_chosen : chosen.

Lemma userpics_set_fileIndex_chosen index s s' :
  userpics_set_fileIndex index s = Ok s' -> dialogs_selected s -> dialogs_selected s'.
Proof. unfold userpics_set_fileIndex. intros. keeps. Qed.
Lemma userpics_store_file_chosen index file s :
  dialogs_selected s -> dialogs_selected (userpics_store_file index file s).
Proof. unfold userpics_store_file. intros. repeat case_match; eauto with chosen. Qed.
Hint Resolve userpics_set_fileIndex_chosen userpics_store_file_chosen : chosen.

Lemma loadNextUserpic_loop_chosen rest : forall s exit s',
  loadNextUserpic_loop rest s = Ok (exit, s') -> dialogs_selected s -> dialogs_selected s'.
Proof.
  induction rest as [|photo rest IH]; intros s exit s' Hloop Hs;
    cbn [loadNextUserpic_loop] in Hloop.
  - invert_ok. eauto with chosen.
  - destruct (_userpicsProcess s); [|discriminate].
    apply bind_Ok in Hloop as (s1 & Hs1 & Hloop).
    apply bind_Ok in Hloop as ([[ready file] s2] & Hload & Hloop).
    destruct ready.
    + eapply IH; [exact Hloop|]. eauto with chosen.
    + invert_ok. eauto with chosen.
Qed.
Hint Resolve loadNextUserpic_loop_chosen : chosen.

Lemma finishUserpics_chosen s s' :
  finishUserpics s = Ok s' -> dialogs_selected s -> dialogs_selected s'.
Proof. unfold finishUserpics. intros. keeps. Qed.
Hint Resolve finishUserpics_chosen : chosen.
Lemma loadNextUserpic_chosen s s' :
  loadNextUserpic s = Ok s' -> dialogs_selected s -> dialogs_selected s'.
Proof. unfold loadNextUserpic. intros. keeps. Qed.
Hint Resolve loadNextUserpic_chosen : chosen.
Lemma loadUserpicsFiles_chosen slice s s' :
  loadUserpicsFiles slice s = Ok s' -> dialogs_selected s -> dialogs_selected s'.
Proof. unfold loadUserpicsFiles. intros. keeps. Qed.
Hint Resolve loadUserpicsFiles_chosen : chosen.
Lemma handleUserpicsSlice_chosen result s s' :
  handleUserpicsSlice result s = Ok s' -> dialogs_selected s -> dialogs_selected s'.
Proof. unfold handleUserpicsSlice. intros. keeps. Qed.
Hint Resolve handleUserpicsSlice_chosen : chosen.
Lemma loadUserpicDone_chosen relativePath s s' :
  loadUserpicDone relativePath s = Ok s' -> dialogs_selected s -> dialogs_selected s'.
Proof. unfold loadUserpicDone. intros. keeps. Qed.
Hint Resolve loadUserpicDone_chosen : chosen.
Lemma requestUserpics_chosen s s' :
  requestUserpics s = Ok s' -> dialogs_selected s -> dialogs_selected s'.
Proof. unfold requestUserpics. intros. keeps. Qed.
Lemma requestUserpics_done_chosen result s s' :
  requestUserpics_done result s = Ok s' -> dialogs_selected s -> dialogs_selected s'.
Proof. unfold requestUserpics_done. intros. keeps. Qed.
Hint Resolve requestUserpics_chosen requestUserpics_done_chosen : chosen.

Lemma dialogs_set_single_keep single' single s s' :
  dialogs_set_single (Some single') s = Ok s' ->
  the_single s = Ok single ->
  Single_info single' = Single_info single ->
  dialogs_selected s -> dialogs_selected s'.
Proof.
  unfold dialogs_set_single, the_single. intros Hset Hthe Hinfo Hs.
  destruct (_dialogsProcess s) as [process|] eqn:Hprocess; [|discriminate].
  destruct (DialogsProcess_single process) as [old|] eqn:Hold;
    [|discriminate].
  injection Hthe as ->. injection Hset as <-. destruct (Hs process Hprocess) as [Hlist Hsingle].
  apply chosen_update; [exact Hlist|].
  intros x [= <-]. rewrite Hinfo. apply Hsingle. exact Hold.
Qed.
Lemma dialogs_set_single_none s s' :
  dialogs_set_single None s = Ok s' -> dialogs_selected s -> dialogs_selected s'.
Proof.
  unfold dialogs_set_single. intros Hset Hs.
  destruct (_dialogsProcess s) as [process|] eqn:Hprocess; [|discriminate].
  invert_ok. destruct (Hs process Hprocess) as [Hlist _].
  apply chosen_update; [exact Hlist | intros x [=]].
Qed.
Hint Resolve dialogs_set_single_keep dialogs_set_single_none : chosen.

Lemma requestMessagesSlice_chosen s s' :
  requestMessagesSlice s = Ok s' -> dialogs_selected s -> dialogs_selected s'.
Proof. unfold requestMessagesSlice. intros. keeps. Qed.
Hint Resolve requestMessagesSlice_chosen : chosen.
Lemma finishDialogs_chosen s s' :
  finishDialogs s = Ok s' -> dialogs_selected s'.
Proof. unfold finishDialogs. intros. keeps. Qed.
Hint Resolve finishDialogs_chosen : chosen.
Lemma requestNextDialog_chosen s s' :
  requestNextDialog s = Ok s' -> dialogs_selected s -> dialogs_selected s'.
Proof.
  unfold requestNextDialog. intros Hnext Hs.
  destruct (_dialogsProcess s) as [process|] eqn:Hprocess; [|discriminate].
  destruct (Hs process Hprocess) as [Hlist Hsingle].
  destruct (bool_decide (DialogsProcess_single process = None)) eqn:Hnone;
    [|discriminate].
  cbn [Expects mbind Result_bind] in Hnext.
  destruct (bool_decide (_ < 11)); [|eauto with chosen].
  destruct (bool_decide (0 <= _)); [|discriminate].
  destruct (_ !! _) as [one|] eqn:Hone; [|discriminate].
  apply bind_Ok in Hnext as (s2 & Hs2 & Hnext).
  eapply requestMessagesSlice_chosen; [exact Hnext|].
  apply chosen_call.
  unfold dialogs_set_single in Hs2.
  cbn [_dialogsProcess set_dialogsProcess] in Hs2. invert_ok.
  apply chosen_update; [exact Hlist|].
  intros x [= <-]. cbn [Single_info].
  rewrite Forall_forall in Hlist. apply Hlist.
  eapply list_elem_of_lookup_2. exact Hone.
Qed.
Hint Resolve requestNextDialog_chosen : chosen.

Lemma finishMessages_chosen s s' :
  finishMessages s = Ok s' -> dialogs_selected s -> dialogs_selected s'.
Proof. unfold finishMessages. intros. keeps. Qed.
Hint Resolve finishMessages_chosen : chosen.
Lemma messages_store_file_chosen index file s :
  dialogs_selected s -> dialogs_selected (messages_store_file index file s).
Proof.
  unfold messages_store_file. intros Hs.
  destruct (_dialogsProcess s) as [process|] eqn:Hprocess; [|exact Hs].
  destruct (Hs process Hprocess) as [Hlist Hsingle].
  destruct (DialogsProcess_single process) as [single|] eqn:Hold;
    [|exact Hs].
  destruct (Single_slice single); [|exact Hs].
  destruct (_ !! _); [|exact Hs].
  destruct (Message_set_file _ _ _) as [static1 message1].
  apply chosen_set_static_files. apply chosen_update; [exact Hlist|].
  intros x [= <-]. apply (Hsingle single). reflexivity.
Qed.
Hint Resolve messages_store_file_chosen : chosen.

Lemma loadNextMessageFile_loop_chosen rest : forall s exit s',
  loadNextMessageFile_loop rest s = Ok (exit, s') -> dialogs_selected s -> dialogs_selected s'.
Proof.
  induction rest as [|message rest IH]; intros s exit s' Hloop Hs;
    cbn [loadNextMessageFile_loop] in Hloop.
  - invert_ok. eauto with chosen.
  - apply bind_Ok in Hloop as (process & Hprocess & Hloop).
    apply bind_Ok in Hloop as (s1 & Hs1 & Hloop).
    apply bind_Ok in Hloop as ([[ready file] s2] & Hload & Hloop).
    destruct ready.
    + eapply IH; [exact Hloop|]. eauto with chosen.
    + invert_ok. eauto with chosen.
Qed.
Hint Resolve loadNextMessageFile_loop_chosen : chosen.

Lemma loadNextMessageFile_chosen s s' :
  loadNextMessageFile s = Ok s' -> dialogs_selected s -> dialogs_selected s'.
Proof.
  unfold loadNextMessageFile. intros Hload Hs.
  apply bind_Ok in Hload as (process & Hprocess & Hload).
  destruct (Single_slice process); [|discriminate].
  apply bind_Ok in Hload as ([exit s1] & Hloop & Hload).
  apply loadNextMessageFile_loop_chosen in Hloop; [|exact Hs].
  destruct exit; [|invert_ok; assumption].
  apply bind_Ok in Hload as (process1 & Hprocess1 & Hload).
  destruct (Single_slice process1); [|discriminate].
  destruct (last _); keeps.
Qed.
Hint Resolve loadNextMessageFile_chosen : chosen.

Lemma loadMessagesFiles_chosen slice s s' :
  loadMessagesFiles slice s = Ok s' -> dialogs_selected s -> dialogs_selected s'.
Proof.
  unfold loadMessagesFiles. intros Hload Hs.
  destruct (is_empty (MessagesSlice_list slice)); keeps.
Qed.
Hint Resolve loadMessagesFiles_chosen : chosen.

Lemma loadMessageFileDone_chosen relativePath s s' :
  loadMessageFileDone relativePath s = Ok s' -> dialogs_selected s -> dialogs_selected s'.
Proof. unfold loadMessageFileDone. intros. keeps. Qed.
Hint Resolve loadMessageFileDone_chosen : chosen.
Lemma requestMessagesSlice_done_chosen result s s' :
  requestMessagesSlice_done result s = Ok s' -> dialogs_selected s -> dialogs_selected s'.
Proof. unfold requestMessagesSlice_done. intros. keeps. Qed.
Hint Resolve requestMessagesSlice_done_chosen : chosen.
Lemma requestDialogsSlice_chosen s s' :
  requestDialogsSlice s = Ok s' -> dialogs_selected s -> dialogs_selected s'.
Proof. unfold requestDialogsSlice. intros. keeps. Qed.
Lemma appendDialogsSlice_chosen info s s' :
  appendDialogsSlice info s = Ok s' -> dialogs_selected s -> dialogs_selected s'.
Proof.
  unfold appendDialogsSlice. intros Happend Hs.
  destruct (_dialogsProcess s) as [process|] eqn:Hprocess; [|discriminate].
  destruct (Hs process Hprocess) as [Hlist Hsingle].
  destruct (_settings s) as [settings|] eqn:Hsettings; [|discriminate].
  invert_ok. apply chosen_update; [|exact Hsingle].
  cbn [DialogsProcess_info DialogsInfo_list].
  apply Forall_app. split; [exact Hlist|].
  apply Forall_forall. intros dialog Hdialog.
  apply list_elem_of_In, filter_In in Hdialog as [_ Hbit].
  unfold acceptable, selected. rewrite Hsettings.
  destruct (dialog_type_bit (DialogInfo_type dialog)) as [bit|];
    cbn [default from_option] in Hbit.
  - exists bit. split; [reflexivity|].
    apply negb_true_iff, Z.eqb_neq in Hbit. exact Hbit.
  - rewrite Z.land_0_r in Hbit. discriminate.
Qed.
Lemma fillDialogsPaths_loop_types digits dialogs : forall index,
  map DialogInfo_type (fillDialogsPaths_loop digits index dialogs) =
  map DialogInfo_type dialogs.
Proof.
  induction dialogs as [|dialog rest IH]; intros index; cbn.
  - reflexivity.
  - now rewrite IH.
Qed.
Lemma acceptable_types s (l l' : list DialogInfo) :
  map DialogInfo_type l' = map DialogInfo_type l ->
  Forall (acceptable s) l -> Forall (acceptable s) l'.
Proof.
  revert l'. induction l as [|dialog rest IH]; intros [|dialog' rest'];
    cbn; intros Htypes Hl; try discriminate; [constructor|].
  injection Htypes as Htype Htypes. inversion Hl; subst.
  constructor; [|apply IH; assumption].
  unfold acceptable, selected in *. rewrite Htype. assumption.
Qed.
Lemma fillDialogsPaths_chosen s s' :
  fillDialogsPaths s = Ok s' -> dialogs_selected s -> dialogs_selected s'.
Proof.
  unfold fillDialogsPaths. intros Hfill Hs.
  destruct (_dialogsProcess s) as [process|] eqn:Hprocess; [|discriminate].
  destruct (Hs process Hprocess) as [Hlist Hsingle].
  invert_ok. apply chosen_update; [|exact Hsingle].
  cbn [DialogsProcess_info DialogsInfo_list].
  eapply acceptable_types; [|exact Hlist].
  apply fillDialogsPaths_loop_types.
Qed.
Hint Resolve requestDialogsSlice_chosen appendDialogsSlice_chosen
  fillDialogsPaths_chosen : chosen.

Lemma finishDialogsList_chosen s s' :
  finishDialogsList s = Ok s' -> dialogs_selected s -> dialogs_selected s'.
Proof.
  unfold finishDialogsList. intros Hfinish Hs.
  destruct (_dialogsProcess s) as [process|] eqn:Hprocess; [|discriminate].
  destruct (Hs process Hprocess) as [Hlist Hsingle].
  apply bind_Ok in Hfinish as (s1 & Hs1 & Hfinish).
  apply fillDialogsPaths_chosen in Hs1.
  - destruct (_dialogsProcess s1); [|discriminate]. eauto with chosen.
  - apply chosen_update; [|exact Hsingle].
    cbn [DialogsProcess_info DialogsInfo_list].
    rewrite rev_alt. apply Forall_reverse. exact Hlist.
Qed.
Hint Resolve finishDialogsList_chosen : chosen.

Lemma requestDialogsSlice_done_chosen result s s' :
  requestDialogsSlice_done result s = Ok s' -> dialogs_selected s -> dialogs_selected s'.
Proof.
  unfold requestDialogsSlice_done. intros Hdone Hs.
  assert (Hoffsets : forall process back,
    _dialogsProcess s = Some process ->
    dialogs_selected
      (set_dialogsProcess
         (Some (mkDialogsProcess (DialogsProcess_info process)
                  (DialogInfo_topMessageDate back)
                  (DialogInfo_topMessageId back)
                  (DialogInfo_input back)
                  (DialogsProcess_single process)
                  (DialogsProcess_singleIndex process)))
         s)).
  { intros process back Hprocess.
    destruct (Hs process Hprocess) as [Hlist Hsingle].
    apply chosen_update; assumption. }
  destruct result; destruct (_ || _); keeps.
Qed.
Lemma requestDialogs_chosen s s' :
  requestDialogs s = Ok s' -> dialogs_selected s -> dialogs_selected s'.
Proof.
  unfold requestDialogs. intros Hrequest Hs. invert_ok.
  eapply requestDialogsSlice_chosen; [exact Hrequest|].
  apply chosen_update; [constructor | intros single [=]].
Qed.
Hint Resolve requestDialogsSlice_done_chosen requestDialogs_chosen : chosen.

Lemma filePartDone_finish_chosen s s' :
  filePartDone_finish s = Ok s' -> dialogs_selected s -> dialogs_selected s'.
Proof. unfold filePartDone_finish. intros. keeps. Qed.
Hint Resolve filePartDone_finish_chosen : chosen.

Lemma write_ready_chosen path requests : forall s success rest s',
  write_ready path requests s = (success, rest, s') ->
  dialogs_selected s -> dialogs_selected s'.
Proof.
  induction requests as [|front requests IH]; intros s success rest s';
    cbn [write_ready].
  - intros [= <- <- <-]. exact id.
  - destruct (is_empty (Request_bytes front)).
    + intros [= <- <- <-]. exact id.
    + destruct (writeBlock _ _ _) as [written s1] eqn:Hwrite.
      destruct written.
      * intros Hrest Hs. eapply IH; [exact Hrest|]. eauto with chosen.
      * intros [= <- <- <-]. eauto with chosen.
Qed.
Hint Resolve write_ready_chosen : chosen.

Lemma filePartDone_chosen offset result s s' :
  filePartDone offset result s = Ok s' -> dialogs_selected s -> dialogs_selected s'.
Proof.
  unfold filePartDone. intros Hdone Hs.
  destruct (_fileProcess s) as [process|] eqn:Hprocess; [|discriminate].
  destruct (is_empty (FileProcess_requests process)) eqn:Hqueue;
    [discriminate|].
  cbn [negb Expects mbind Result_bind] in Hdone.
  destruct result as [bytes|]; [|invert_ok; eauto with chosen].
  destruct (is_empty bytes) eqn:Hbytes.
  { destruct (bool_decide _); invert_ok; eauto with chosen. }
  destruct (fill_request offset bytes _) as [filled|] eqn:Hfill;
    [|discriminate].
  destruct (write_ready _ filled s) as [[success rest] s1] eqn:Hwrite.
  apply write_ready_chosen in Hwrite; [|assumption].
  destruct (negb success); [invert_ok; eauto with chosen|].
  destruct (_ || _); eauto with chosen.
Qed.
Hint Resolve filePartDone_chosen : chosen.

Lemma step_chosen e s s' : step e s = Ok s' -> dialogs_selected s -> dialogs_selected s'.
Proof.
  destruct e; cbn [step]; intros Hstep Hs;
    unfold startExport, startMainSession, requestPersonalInfo,
      requestContacts, requestSessions, startMainSession_done,
      requestPersonalInfo_done in Hstep;
    keeps.
Qed.

Lemma reachable_chosen s : reachable s -> dialogs_selected s.
Proof.
  induction 1 as [|e s s' _ IH Hstep].
  - intros process [=].
  - eapply step_chosen; eassumption.
Qed.

End Chosen.

Section ChosenClaims.
Context `{Externals} `{FileSystem}.
Local Open Scope Z_scope.

(** X15.  In every reachable state the dialogs that wait in the
    dialogs process, and the dialog that is being exported, are of
    types that the settings select (for the own messages or in full);
    a dialog of unknown type is never among them.  So
    [onlyMyMessages] always has a setting to look at and never runs
    into its [Unexpected]. *)
Theorem only_selected_dialogs_are_exported (s : State)
    (process : DialogsProcess) :
  reachable s ->
  _dialogsProcess s = Some process ->
  (forall info, info ∈ DialogsInfo_list (DialogsProcess_info process) ->
     exists settings,
       _settings s = Some settings /\ selected settings info) /\
  (forall single, DialogsProcess_single process = Some single ->
     (exists settings,
        _settings s = Some settings /\
        selected settings (Single_info single)) /\
     exists only, onlyMyMessages s = Ok only).
Proof.
  intros Hs%reachable_chosen Hprocess.
  destruct (Hs process Hprocess) as [Hlist Hsingle].
  assert (Hacceptable : forall info, acceptable s info ->
            exists settings,
              _settings s = Some settings /\ selected settings info).
  { unfold acceptable. intros info Hinfo.
    destruct (_settings s) as [settings|]; [eauto | contradiction]. }
  split.
  - intros info Hinfo. apply Hacceptable.
    rewrite Forall_forall in Hlist. apply Hlist, Hinfo.
  - intros single Hthe.
    destruct (Hacceptable _ (Hsingle single Hthe))
      as (settings & Hsettings & bit & Hbit & Hland).
    split; [exists settings; split; [exact Hsettings|]; exists bit; auto|].
    unfold onlyMyMessages, the_single.
    rewrite Hprocess, Hthe. cbn [mbind Result_bind].
    rewrite Hbit, Hsettings. eauto.
Qed.

End ChosenClaims.

(* --------------------------------------------------------------------- *)
(** ** A download, chunk by chunk *)
(* --------------------------------------------------------------------- *)

Section Sequential.
Context `{Externals} `{FileSystem}.
Local Open Scope Z_scope.

(** One answer for the only request in flight, with more of the file to
    ask for: the bytes are written and the next chunk is requested. *)
Lemma filePartDone_next (s : State) (process : FileProcess)
    (takeoutId offset : Z) (bytes : QByteArray) :
  _fileProcess s = Some (waiting_for process offset) ->
  _takeoutId s = Some takeoutId ->
  dcId (FileProcess_location process) <> 0 ->
  bytes <> [] ->
  writeBlock_accepts (FileProcess_file process)
    (file_content (FileProcess_file process) s) bytes = true ->
  FileProcess_size process = 0 \/
  offset + kFileChunkSize < FileProcess_size process ->
  is_int32 (offset + 2 * kFileChunkSize) ->
  exists s',
    filePartDone offset (MTP_upload_file bytes) s = Ok s' /\
    _fileProcess s' = Some (waiting_for process (offset + kFileChunkSize)) /\
    _takeoutId s' = Some takeoutId /\
    disk s' =
      <[FileProcess_file process :=
          file_content (FileProcess_file process) s ++ bytes]> (disk s) /\
    sent s' =
      sent s ++ [chunk_request takeoutId process (offset + kFileChunkSize)] /\
    _errors s' = _errors s /\
    callbacks s' = callbacks s.
Proof.
  intros Hprocess Htakeout Hdc Hbytes Haccepts Hsize Hint.
  unfold waiting_for in Hprocess |- *.
  unfold filePartDone. rewrite Hprocess.
  cbn [waiting_for FileProcess_requests FileProcess_set_offset
       FileProcess_set_requests is_empty negb Expects mbind Result_bind].
  rewrite (is_empty_false _ Hbytes).
  cbn [fill_request Request_offset]. rewrite decide_True by reflexivity.
  cbn [FileProcess_file].
  rewrite write_ready_write by (cbn [Request_bytes]; assumption).
  cbn [write_ready Request_bytes negb is_empty orb FileProcess_size
       FileProcess_offset FileProcess_set_offset FileProcess_set_requests
       FileProcess_file].
  assert (Hmore :
    bool_decide (FileProcess_size process = 0)
    || bool_decide (FileProcess_size process > offset + kFileChunkSize)
    = true).
  { destruct Hsize as [Hzero|Hlt].
    - rewrite (bool_decide_eq_true_2 _ Hzero). reflexivity.
    - rewrite (bool_decide_eq_true_2 (_ > _)) by lia. apply orb_true_r. }
  rewrite Hmore.
  erewrite (loadFilePart_sends _ _ takeoutId); cycle 1.
  - reflexivity.
  - exact Htakeout.
  - exact Hdc.
  - cbn. lia.
  - cbn. lia.
  - eexists. split; [reflexivity|].
    cbn [_fileProcess set_fileProcess send _takeoutId set_disk disk sent
         _errors callbacks FileProcess_offset FileProcess_set_requests
         FileProcess_set_offset FileProcess_requests FileProcess_location
         FileProcess_file FileProcess_relativePath FileProcess_done
         FileProcess_size app].
    rewrite (to_int32_id (offset + kFileChunkSize + kFileChunkSize))
      by (unfold is_int32 in *; lia).
    repeat split; try reflexivity. exact Htakeout.
Qed.

(** X20.  A download with one request in flight goes chunk by chunk.
    With the request for [base] in flight and more of the file to
    come, the answers for [base], [base + kFileChunkSize], ... are
    written to the file in this order, each answer is followed by the
    request for the next chunk, and afterwards the request behind the
    last chunk is the one in flight.  No error is fired and no closure
    is called on the way. *)
Theorem chunks_are_fetched_one_after_the_other
    (chunks : list QByteArray) :
  forall (s : State) (process : FileProcess) (takeoutId base : Z),
  _fileProcess s = Some (waiting_for process base) ->
  _takeoutId s = Some takeoutId ->
  dcId (FileProcess_location process) <> 0 ->
  (forall content block,
     writeBlock_accepts (FileProcess_file process) content block = true) ->
  Forall (fun bytes => bytes <> []) chunks ->
  FileProcess_size process = 0 \/
  base + Z.of_nat (length chunks) * kFileChunkSize < FileProcess_size process ->
  - 2^31 <= base ->
  base + (Z.of_nat (length chunks) + 1) * kFileChunkSize <= INT_MAX ->
  exists s',
    deliver (in_order base chunks) s = Ok s' /\
    file_content (FileProcess_file process) s' =
      file_content (FileProcess_file process) s ++ concat chunks /\
    _fileProcess s' =
      Some (waiting_for process
              (base + Z.of_nat (length chunks) * kFileChunkSize)) /\
    sent s' =
      sent s ++
      map (fun chunk : Z * QByteArray =>
             chunk_request takeoutId process (chunk.1 + kFileChunkSize))
          (in_order base chunks) /\
    _errors s' = _errors s /\
    callbacks s' = callbacks s.
Proof.
  induction chunks as [|bytes chunks IH];
    intros s process takeoutId base Hprocess Htakeout Hdc Haccepts Hbytes
      Hsize Hlow Hhigh.
  - exists s. cbn [deliver in_order concat map length Z.of_nat].
    rewrite !app_nil_r. rewrite Z.add_0_r.
    repeat split; try reflexivity. exact Hprocess.
  - apply Forall_cons in Hbytes as [Hfirst Hbytes].
    cbn [length] in Hsize, Hhigh.
    destruct (filePartDone_next s process takeoutId base bytes)
      as (s1 & Hdone & Hprocess1 & Htakeout1 & Hdisk1 & Hsent1 & Herrors1
          & Hcallbacks1); try assumption.
    { apply Haccepts. }
    { destruct Hsize as [Hzero|Hlt]; [left; exact Hzero | right].
      unfold kFileChunkSize in *. lia. }
    { unfold is_int32, INT_MAX, kFileChunkSize in *. lia. }
    destruct (IH s1 process takeoutId (base + kFileChunkSize))
      as (s' & Hdeliver & Hcontent & Hprocess' & Hsent' & Herrors'
          & Hcallbacks'); try assumption.
    { destruct Hsize as [Hzero|Hlt]; [left; exact Hzero | right]. lia. }
    { unfold kFileChunkSize. lia. }
    { lia. }
    exists s'. cbn [deliver in_order]. rewrite Hdone.
    cbn [mbind Result_bind]. split; [exact Hdeliver|].
    split; [|split; [|split; [|split]]].
    + rewrite Hcontent. unfold file_content at 1. rewrite Hdisk1.
      rewrite lookup_insert_eq. cbn [default from_option concat].
      unfold id. rewrite <- app_assoc. reflexivity.
    + rewrite Hprocess'. do 2 f_equal. cbn [length]. lia.
    + rewrite Hsent', Hsent1. cbn [map fst]. rewrite <- app_assoc.
      reflexivity.
    + congruence.
    + congruence.
Qed.

End Sequential.

(* --------------------------------------------------------------------- *)
(** ** The serializers of the text output *)
(* --------------------------------------------------------------------- *)

Section Serializers.
Local Open Scope Z_scope.

Lemma indexOf_from_skip ch (line rest : QByteArray) : forall position,
  ch ∉ line ->
  indexOf_from ch (line ++ rest) position =
  indexOf_from ch rest (position + Z.of_nat (length line)).
Proof.
  induction line as [|c line IH]; intros position Hline; cbn [app length].
  - f_equal. lia.
  - cbn [indexOf_from]. rewrite decide_False.
    + rewrite IH.
      * f_equal. lia.
      * intros Hin. apply Hline. now apply list_elem_of_further.
    + intros ->. apply Hline. apply list_elem_of_here.
Qed.

Lemma indexOf_from_none ch (line : QByteArray) position :
  ch ∉ line -> indexOf_from ch line position = -1.
Proof.
  intros Hline. rewrite <- (app_nil_r line).
  rewrite indexOf_from_skip by assumption. reflexivity.
Qed.

(** The next line feed behind a prefix. *)
Lemma indexOf_next (before line rest : QByteArray) :
  LF ∉ line ->
  indexOf (before ++ line ++ LF :: rest) LF (Z.of_nat (length before)) =
  Z.of_nat (length before) + Z.of_nat (length line).
Proof.
  intros Hline. unfold indexOf.
  rewrite decide_False by lia. rewrite Nat2Z.id.
  rewrite drop_app_length.
  rewrite indexOf_from_skip by assumption.
  cbn [indexOf_from]. rewrite decide_True by reflexivity. reflexivity.
Qed.

Lemma indexOf_last (before last : QByteArray) :
  LF ∉ last ->
  indexOf (before ++ last) LF (Z.of_nat (length before)) = -1.
Proof.
  intros Hlast. unfold indexOf.
  rewrite decide_False by lia. rewrite Nat2Z.id.
  rewrite drop_app_length. apply indexOf_from_none, Hlast.
Qed.

Lemma mid_line (before line rest : QByteArray) :
  mid (before ++ line ++ rest) (Z.of_nat (length before))
      (Z.of_nat (length before) + Z.of_nat (length line)
       - Z.of_nat (length before)) = line.
Proof.
  unfold mid. rewrite Nat2Z.id, drop_app_length.
  replace (Z.to_nat _) with (length line) by lia.
  apply take_app_length.
Qed.

(** One round of the loop. *)
Lemma SerializeMultiline_loop_unfold os appendTo value offset newline :
  SerializeMultiline_loop os appendTo value offset newline =
  let appendTo :=
    appendTo ++ [Byte.x3e; Byte.x20]
      ++ mid value offset (newline - offset) ++ kLineBreak os in
  let next := indexOf value LF (newline + 1) in
  if bool_decide (next > 0)
  then SerializeMultiline_loop os appendTo value (newline + 1) next
  else appendTo.
Proof.
  rewrite SerializeMultiline_loop_equation_1. cbv zeta.
  destruct (inspect (bool_decide (indexOf value LF (newline + 1) > 0)))
    as [[|] Hmore];
    cbn [SerializeMultiline_loop_unfold_clause_1];
    rewrite Hmore; reflexivity.
Qed.

(** The loop from the start of a line on: the lines that end in a line
    feed are quoted, what follows the last line feed is not. *)
Lemma SerializeMultiline_loop_lines os (more : list QByteArray) :
  forall (appendTo before line last : QByteArray),
  Forall (fun line => LF ∉ line) (line :: more) ->
  LF ∉ last ->
  SerializeMultiline_loop os appendTo
    (before ++ text_of (line :: more) last)
    (Z.of_nat (length before))
    (Z.of_nat (length before) + Z.of_nat (length line)) =
  appendTo ++ quoted os (line :: more).
Proof.
  induction more as [|next more IH];
    intros appendTo before line last Hlines Hlast;
    apply Forall_cons in Hlines as [Hline Hlines].
  - rewrite SerializeMultiline_loop_unfold. cbv zeta.
    unfold text_of. cbn [map concat app].
    rewrite app_nil_r.
    replace (before ++ (line ++ [LF]) ++ last)
      with ((before ++ line ++ [LF]) ++ last)
      by (rewrite <- !app_assoc; reflexivity).
    replace (Z.of_nat (length before) + Z.of_nat (length line) + 1)
      with (Z.of_nat (length (before ++ line ++ [LF])))
      by (rewrite !length_app; cbn [length]; lia).
    rewrite indexOf_last by assumption.
    rewrite bool_decide_eq_false_2 by lia.
    replace ((before ++ line ++ [LF]) ++ last)
      with (before ++ line ++ ([LF] ++ last))
      by (rewrite <- !app_assoc; reflexivity).
    rewrite mid_line.
    unfold quoted. cbn [map concat]. rewrite app_nil_r. reflexivity.
  - rewrite SerializeMultiline_loop_unfold. cbv zeta.
    unfold text_of. cbn [map concat].
    replace (before ++ ((line ++ [LF]) ++ (next ++ [LF]) ++
                        concat (map (fun line => line ++ [LF]) more)) ++ last)
      with ((before ++ line ++ [LF]) ++ next ++ LF ::
            (concat (map (fun line => line ++ [LF]) more) ++ last))
      by (rewrite <- !app_assoc; reflexivity).
    replace (Z.of_nat (length before) + Z.of_nat (length line) + 1)
      with (Z.of_nat (length (before ++ line ++ [LF])))
      by (rewrite !length_app; cbn [length]; lia).
    apply Forall_cons in Hlines as [Hnext Hmore].
    rewrite indexOf_next by assumption.
    rewrite bool_decide_eq_true_2 by (rewrite !length_app; cbn [length]; lia).
    specialize (IH
      (appendTo ++ [Byte.x3e; Byte.x20] ++ line ++ kLineBreak os)
      (before ++ line ++ [LF]) next last).
    unfold text_of in IH. cbn [map concat] in IH.
    replace ((before ++ line ++ [LF]) ++ ((next ++ [LF]) ++
               concat (map (fun line => line ++ [LF]) more)) ++ last)
      with ((before ++ line ++ [LF]) ++ next ++ LF ::
            (concat (map (fun line => line ++ [LF]) more) ++ last)) in IH
      by (rewrite <- !app_assoc; reflexivity).
    replace (mid _ _ _) with line.
    + rewrite IH by (try constructor; assumption).
      unfold quoted. cbn [map concat]. rewrite <- !app_assoc. reflexivity.
    + symmetry.
      replace ((before ++ line ++ [LF]) ++ next ++ LF ::
               (concat (map (fun line => line ++ [LF]) more) ++ last))
        with (before ++ line ++ ([LF] ++ next ++ LF ::
               (concat (map (fun line => line ++ [LF]) more) ++ last)))
        by (rewrite <- !app_assoc; reflexivity).
      apply mid_line.
Qed.

Lemma SerializeMultiline_lines os (appendTo line : QByteArray)
    (more : list QByteArray) (last : QByteArray) :
  Forall (fun line => LF ∉ line) (line :: more) ->
  LF ∉ last ->
  SerializeMultiline os appendTo (text_of (line :: more) last)
    (Z.of_nat (length line)) =
  appendTo ++ quoted os (line :: more).
Proof.
  intros Hlines Hlast. unfold SerializeMultiline.
  apply (SerializeMultiline_loop_lines os more appendTo [] line last);
    assumption.
Qed.

Lemma indexOf_first_line (line : QByteArray) (more : list QByteArray)
    (last : QByteArray) :
  Forall (fun line => LF ∉ line) (line :: more) ->
  indexOf (text_of (line :: more) last) LF 0 = Z.of_nat (length line).
Proof.
  intros [Hline _]%Forall_cons.
  unfold text_of. cbn [map concat]. rewrite <- !app_assoc.
  apply (indexOf_next [] line). exact Hline.
Qed.

(** X21.  [SerializeMultiline] quotes the lines of a text that end in
    a line feed, each as a greater-than sign, a space, the line and a
    line break.  What follows the last line feed, the last line of the
    text, is not printed. *)
Theorem SerializeMultiline_drops_the_last_line (os : Platform)
    (appendTo line last : QByteArray) (more : list QByteArray) :
  Forall (fun line => LF ∉ line) (line :: more) ->
  LF ∉ last ->
  let value := text_of (line :: more) last in
  indexOf value LF 0 = Z.of_nat (length line) /\
  SerializeMultiline os appendTo value (indexOf value LF 0) =
  appendTo ++ quoted os (line :: more).
Proof.
  intros Hlines Hlast value.
  assert (Hfirst : indexOf value LF 0 = Z.of_nat (length line)).
  { apply indexOf_first_line, Hlines. }
  split; [exact Hfirst|].
  rewrite Hfirst. apply SerializeMultiline_lines; assumption.
Qed.

(** What is in [appendTo] stays in front of what the loop appends. *)
Lemma SerializeMultiline_loop_prefix os (front value : QByteArray) :
  forall (n : nat) (appendTo : QByteArray) (offset newline : Z),
  Z.to_nat (QByteArray_size value - newline) = n ->
  SerializeMultiline_loop os (front ++ appendTo) value offset newline =
  front ++ SerializeMultiline_loop os appendTo value offset newline.
Proof.
  induction n as [n IH] using lt_wf_ind.
  intros appendTo offset newline Hn.
  rewrite !SerializeMultiline_loop_unfold. cbv zeta.
  case_bool_decide as Hmore.
  - rewrite <- app_assoc.
    apply (IH (Z.to_nat (QByteArray_size value - indexOf value LF (newline + 1))));
      [|reflexivity].
    pose proof (indexOf_bounds value LF (newline + 1)). lia.
  - rewrite <- app_assoc. reflexivity.
Qed.

Lemma SerializeKeyValue_fold os (values : list (QByteArray * QByteArray)) :
  forall front : QByteArray,
  fold_left
    (fun result pair =>
       let '(key, value) := pair in
       if is_empty value then result
       else
         let result := result ++ key in
         let newline := indexOf value LF 0 in
         if decide (newline >= 0) then
           SerializeMultiline os (result ++ [Byte.x3a] ++ kLineBreak os)
             value newline
         else result ++ [Byte.x3a; Byte.x20] ++ value ++ kLineBreak os)
    values front =
  front ++ SerializeKeyValue os values.
Proof.
  unfold SerializeKeyValue.
  induction values as [|[key value] values IH] using rev_ind; intros front.
  - cbn. now rewrite app_nil_r.
  - rewrite !fold_left_app. cbn [fold_left]. rewrite IH.
    destruct (is_empty value); [reflexivity|].
    cbv zeta. case_decide.
    + unfold SerializeMultiline. rewrite <- !app_assoc.
      now rewrite (SerializeMultiline_loop_prefix os front value _ _ _ _ eq_refl).
    + rewrite <- !app_assoc. reflexivity.
Qed.

(** X22.  What [SerializeKeyValue] prints.  The pairs are printed one
    after the other; a pair with an empty value leaves no trace; a
    value of one line is printed as [key: value] and a line break; a
    value of several lines as [key:], a line break and its quoted
    lines, without the last one. *)
Theorem SerializeKeyValue_prints (os : Platform) :
  (forall a b,
     SerializeKeyValue os (a ++ b) =
     SerializeKeyValue os a ++ SerializeKeyValue os b) /\
  (forall key, SerializeKeyValue os [(key, [])] = []) /\
  (forall key value,
     value <> [] -> LF ∉ value ->
     SerializeKeyValue os [(key, value)] =
     key ++ [Byte.x3a; Byte.x20] ++ value ++ kLineBreak os) /\
  (forall key line more last,
     Forall (fun line => LF ∉ line) (line :: more) -> LF ∉ last ->
     SerializeKeyValue os [(key, text_of (line :: more) last)] =
     key ++ [Byte.x3a] ++ kLineBreak os ++ quoted os (line :: more)).
Proof.
  split; [|split; [|split]].
  - intros a b. unfold SerializeKeyValue at 1. rewrite fold_left_app.
    apply SerializeKeyValue_fold.
  - reflexivity.
  - intros key value Hvalue Hline. unfold SerializeKeyValue.
    cbn [fold_left]. rewrite (is_empty_false _ Hvalue). cbv zeta.
    rewrite decide_False; [reflexivity|].
    unfold indexOf. rewrite decide_False by lia. cbn [Z.to_nat drop].
    rewrite indexOf_from_none by assumption. lia.
  - intros key line more last Hlines Hlast. unfold SerializeKeyValue.
    cbn [fold_left].
    pose proof (indexOf_first_line line more last Hlines) as Hfirst.
    rewrite is_empty_false.
    + cbv zeta. rewrite decide_True by (rewrite Hfirst; lia).
      rewrite Hfirst, SerializeMultiline_lines by assumption.
      cbn [app]. rewrite <- !app_assoc. reflexivity.
    + unfold text_of. cbn [map concat]. destruct line; discriminate.
Qed.

Lemma JoinList_loop_separated separator (values : list QByteArray) :
  forall result value,
  JoinList_loop separator (value :: values) result =
  result ++ separated separator (value :: values).
Proof.
  induction values as [|next values IH]; intros result value.
  - cbn. now rewrite app_nil_r.
  - change (JoinList_loop separator (value :: next :: values) result)
      with (JoinList_loop separator (next :: values)
              ((result ++ value) ++ separator)).
    rewrite IH. cbn [separated map concat].
    rewrite <- !app_assoc. reflexivity.
Qed.

Lemma JoinList_size_fold (values : list QByteArray) : forall start,
  fold_left (fun size value => size + Z.of_nat (length value)) values start =
  start + Z.of_nat (length (concat values)).
Proof.
  induction values as [|value values IH]; intros start; cbn [fold_left concat].
  - cbn. lia.
  - rewrite IH, length_app. lia.
Qed.

(** X23.  [JoinList] puts the separator between every two values and
    nowhere else, and for two values or more the size it reserves is
    the size of the result. *)
Theorem JoinList_separates (separator : QByteArray)
    (values : list QByteArray) :
  JoinList separator values = separated separator values /\
  ((2 <= length values)%nat ->
   QByteArray_size (JoinList separator values)
   = JoinList_size separator values).
Proof.
  assert (Hjoin : JoinList separator values = separated separator values).
  { destruct values as [|value [|next values]].
    - reflexivity.
    - cbn. now rewrite app_nil_r.
    - unfold JoinList. apply (JoinList_loop_separated separator). }
  split; [exact Hjoin|].
  intros Hvalues. rewrite Hjoin. unfold JoinList_size, QByteArray_size.
  rewrite JoinList_size_fold.
  destruct values as [|value values]; [cbn in Hvalues; lia|].
  assert (Hrest : forall rest : list QByteArray,
    length (concat (map (fun value => separator ++ value) rest))
    = (length rest * length separator + length (concat rest))%nat).
  { induction rest as [|next rest IHrest]; cbn [map concat length].
    - reflexivity.
    - rewrite !length_app, IHrest. lia. }
  cbn [separated concat length]. rewrite !length_app, Hrest. lia.
Qed.

End Serializers.
(* --------------------------------------------------------------------- *)
(** ** Pages without transfers *)
(* --------------------------------------------------------------------- *)

Section Pages.
Context `{Externals} `{FileSystem}.
Local Open Scope Z_scope.

Lemma processFileLoad_settled (file : File) (done : FileDone)
    (message : option Message) (s : State) :
  settled file ->
  processFileLoad file done message s = Ok (true, File_skipped file, s).
Proof.
  intros Hfile. unfold processFileLoad, File_skipped.
  destruct (isEmpty (File_relativePath file)) eqn:Hpath; cbn [negb].
  - destruct Hfile as [Hfile|Hfile]; [congruence|].
    rewrite Hfile. reflexivity.
  - reflexivity.
Qed.

Lemma loadNextUserpic_loop_settled (rest : list Photo) :
  forall (done : list Photo) (lastSlice : bool) (index : Z) (s : State),
    _userpicsProcess s =
      Some (mkUserpicsProcess (Some (mkUserpicsSlice (done ++ rest)))
              lastSlice index) ->
    index = Z.of_nat (length done) - 1 ->
    Forall (fun photo => settled (Image_file (Photo_image photo))) rest ->
    loadNextUserpic_loop rest s =
      Ok (LoopBreak,
          set_userpicsProcess
            (Some (mkUserpicsProcess
                     (Some (mkUserpicsSlice
                              (done ++ map Photo_skipped rest)))
                     lastSlice (Z.of_nat (length (done ++ rest)))))
            s).
Proof.
  induction rest as [|photo rest IH]; intros done lastSlice index s
    Hprocess Hindex Hrest.
  - cbn [loadNextUserpic_loop]. rewrite Hprocess.
    unfold userpics_set_fileIndex. rewrite Hprocess.
    cbn [mbind Result_bind UserpicsProcess_fileIndex UserpicsProcess_slice
         UserpicsProcess_lastSlice map].
    rewrite !app_nil_r.
    replace (index + 1) with (Z.of_nat (length done)) by lia. reflexivity.
  - apply Forall_cons in Hrest as [Hphoto Hrest].
    cbn [loadNextUserpic_loop]. rewrite Hprocess.
    unfold userpics_set_fileIndex. rewrite Hprocess.
    cbn [mbind Result_bind UserpicsProcess_fileIndex UserpicsProcess_slice
         UserpicsProcess_lastSlice].
    rewrite processFileLoad_settled by assumption.
    cbn [mbind Result_bind].
    unfold userpics_store_file.
    cbn [_userpicsProcess set_userpicsProcess UserpicsProcess_slice
         UserpicsProcess_lastSlice UserpicsProcess_fileIndex
         UserpicsSlice_list].
    replace (Z.to_nat (index + 1)) with (length done + 0)%nat by lia.
    rewrite lookup_app_r by lia.
    replace (length done + 0 - length done)%nat with 0%nat by lia.
    cbn [lookup list_lookup].
    rewrite insert_app_r.
    cbn [insert list_insert].
    erewrite (IH (done ++ [Photo_skipped photo]) lastSlice (index + 1)).
    + cbn [map]. rewrite <- !app_assoc. cbn [app].
      rewrite !length_app. cbn [length set_userpicsProcess _settings
        _takeoutId _fileProcess _dialogsProcess _fileCache _errors sent
        callbacks disk static_files].
      reflexivity.
    + cbn [_userpicsProcess set_userpicsProcess].
      rewrite <- app_assoc. reflexivity.
    + rewrite length_app. cbn [length]. lia.
    + assumption.
Qed.

Lemma last_map_Photo_skipped (photos : list Photo) :
  Photo_id <$> last (map Photo_skipped photos) = Photo_id <$> last photos.
Proof.
  change (map Photo_skipped photos) with (Photo_skipped <$> photos).
  rewrite fmap_last. destruct (last photos); reflexivity.
Qed.

(** X24.  A page of user photos whose files need no transfer (each has
    a path already or no valid location) is handed over at once: the
    slice handler gets the photos in order, the files without a path
    marked as unavailable, and no error is fired.  On the last page
    [finish] follows and the process is gone; otherwise the next page is
    requested after the id of the last photo of this one. *)
Theorem userpics_page_without_transfers (slice : UserpicsSlice)
    (s : State) (process : UserpicsProcess) (takeout : Z) (back : Photo) :
  _userpicsProcess s = Some process ->
  UserpicsProcess_slice process = None ->
  _takeoutId s = Some takeout ->
  last (UserpicsSlice_list slice) = Some back ->
  Forall (fun photo => settled (Image_file (Photo_image photo)))
    (UserpicsSlice_list slice) ->
  let page :=
    mkUserpicsSlice (map Photo_skipped (UserpicsSlice_list slice)) in
  let size := Z.of_nat (length (UserpicsSlice_list slice)) in
  exists s',
    loadUserpicsFiles slice s = Ok s' /\
    _errors s' = _errors s /\
    if UserpicsProcess_lastSlice process then
      callbacks s' =
        callbacks s ++ [UserpicsHandleSlice page; UserpicsFinish] /\
      sent s' = sent s /\
      _userpicsProcess s' = None
    else
      callbacks s' = callbacks s ++ [UserpicsHandleSlice page] /\
      sent s' =
        sent s ++
        [mkSent (Some takeout) 0 false
           (MTPphotos_GetUserPhotos 0 (Photo_id back) kUserpicsSliceLimit)] /\
      _userpicsProcess s' = Some (mkUserpicsProcess None false size).
Proof.
  intros Hprocess Hslice Htakeout Hback Hfiles page size.
  destruct slice as [photos]. cbn [UserpicsSlice_list] in *.
  assert (Hsome : is_empty photos = false).
  { destruct photos; [discriminate | reflexivity]. }
  unfold loadUserpicsFiles. rewrite Hprocess, Hslice.
  rewrite bool_decide_eq_true_2 by reflexivity.
  cbn [Expects mbind Result_bind UserpicsSlice_list]. rewrite Hsome.
  unfold loadNextUserpic.
  cbn [_userpicsProcess set_userpicsProcess UserpicsProcess_slice
       UserpicsProcess_fileIndex UserpicsSlice_list].
  rewrite bool_decide_eq_false_2 by lia.
  change (Z.to_nat (-1 + 1)) with 0%nat. rewrite drop_0.
  rewrite (loadNextUserpic_loop_settled photos [] 
             (UserpicsProcess_lastSlice process) (-1)) by
    (try assumption; reflexivity).
  cbn [mbind Result_bind app _userpicsProcess set_userpicsProcess
       UserpicsProcess_slice UserpicsProcess_lastSlice
       UserpicsProcess_fileIndex UserpicsSlice_list].
  rewrite last_map_Photo_skipped, Hback. cbn [fmap option_fmap option_map].
  destruct (UserpicsProcess_lastSlice process).
  - unfold finishUserpics. cbn [_userpicsProcess call set_userpicsProcess].
    eexists. split; [reflexivity|].
    cbn. rewrite <- app_assoc. repeat split; reflexivity.
  - unfold mainRequest. cbn [_takeoutId call set_userpicsProcess].
    rewrite Htakeout.
    eexists. split; [reflexivity|].
    cbn. repeat split; reflexivity.
Qed.

Lemma settled_skipped (file : File) :
  settled file -> settled (File_skipped file).
Proof.
  unfold settled, File_skipped.
  destruct (isEmpty (File_relativePath file)) eqn:Hpath; [|tauto].
  intros [Hfile|Hfile]; [discriminate|]. right. exact Hfile.
Qed.

(** A message has a file of its own, or [file()] is the static file
    of the alternative its media holds. *)
Lemma Message_file_cases (m : Message) :
  (exists slot, forall statics,
     Message_file statics m = statics slot /\
     forall f,
       Message_set_file statics m f = (StaticFiles_set statics slot f, m)) \/
  (exists own, forall statics,
     Message_file statics m = own /\
     forall f, fst (Message_set_file statics m f) = statics).
Proof.
  unfold Message_file, Media_file, Message_set_file.
  destruct (Message_action m); destruct (Media_content (Message_media m));
    solve [left; eexists; intros; split; [reflexivity | intros; reflexivity]
          |right; eexists; intros; split;
             [reflexivity | intros; reflexivity]].
Qed.

Lemma Message_set_file_id (static : StaticFiles) (m : Message) (f : File) :
  Message_id (snd (Message_set_file static m f)) = Message_id m.
Proof.
  unfold Message_set_file.
  destruct (Message_action m); try destruct (Media_content (Message_media m));
    reflexivity.
Qed.

Lemma skip_files_ids (messages : list Message) :
  forall static,
    map Message_id (snd (skip_files static messages)) =
    map Message_id messages.
Proof.
  induction messages as [|m rest IH]; intros static; [reflexivity|].
  cbn [skip_files].
  pose proof (Message_set_file_id static m
                (File_skipped (Message_file static m))) as Hid.
  destruct (Message_set_file static m _) as [static1 m1].
  specialize (IH static1).
  destruct (skip_files static1 rest) as [static2 rest1].
  cbn [snd map] in *. congruence.
Qed.

Lemma settled_step (static : StaticFiles) (m : Message)
    (rest : list Message) :
  (forall slot, settled (static slot)) ->
  Forall (fun m => settled (Message_file static m)) rest ->
  let static1 :=
    fst (Message_set_file static m (File_skipped (Message_file static m))) in
  (forall slot, settled (static1 slot)) /\
  Forall (fun m => settled (Message_file static1 m)) rest.
Proof.
  intros Hstatic Hrest static1.
  assert (Hstatic1 : forall slot, settled (static1 slot)).
  { subst static1. intros slot.
    destruct (Message_file_cases m) as [[mine Hm]|[own Hm]].
    - destruct (Hm static) as [Hfile Hset]. rewrite Hset, Hfile.
      cbn [fst]. unfold StaticFiles_set.
      destruct (decide (slot = mine)); [|apply Hstatic].
      apply settled_skipped, Hstatic.
    - destruct (Hm static) as [_ Hset]. rewrite Hset. apply Hstatic. }
  split; [exact Hstatic1|].
  eapply Forall_impl; [exact Hrest|].
  intros m' Hm'. cbv beta in *.
  destruct (Message_file_cases m') as [[mine Hcase]|[own Hcase]].
  - rewrite (proj1 (Hcase static1)). apply Hstatic1.
  - rewrite (proj1 (Hcase static1)).
    rewrite (proj1 (Hcase static)) in Hm'. exact Hm'.
Qed.

Lemma loadNextMessageFile_loop_settled (rest : list Message) :
  forall (done : list Message) (process : DialogsProcess) (single : Single)
         (peers : Peers) (index : Z) (s : State),
    _dialogsProcess s = Some process ->
    DialogsProcess_single process = Some single ->
    Single_slice single = Some (mkMessagesSlice (done ++ rest) peers) ->
    Single_fileIndex single = index ->
    index = Z.of_nat (length done) - 1 ->
    (forall slot, settled (static_files s slot)) ->
    Forall (fun m => settled (Message_file (static_files s) m)) rest ->
    loadNextMessageFile_loop rest s =
      Ok (LoopBreak,
          set_static_files (fst (skip_files (static_files s) rest))
            (set_dialogsProcess
               (Some (mkDialogsProcess
                        (DialogsProcess_info process)
                        (DialogsProcess_offsetDate process)
                        (DialogsProcess_offsetId process)
                        (DialogsProcess_offsetPeer process)
                        (Some (mkSingle (Single_info single)
                                 (Single_offsetId single)
                                 (Some (mkMessagesSlice
                                          (done ++
                                           snd (skip_files (static_files s)
                                                  rest))
                                          peers))
                                 (Single_lastSlice single)
                                 (Z.of_nat (length (done ++ rest)))))
                        (DialogsProcess_singleIndex process)))
               s)).
Proof.
  induction rest as [|m rest IH];
    intros done process single peers index s Hprocess Hsingle Hslice
      Hfile Hindex Hstatic Hrest.
  - cbn [loadNextMessageFile_loop skip_files fst snd].
    unfold the_single, dialogs_set_single. rewrite Hprocess, Hsingle.
    cbn [mbind Result_bind]. rewrite ?Hprocess.
    unfold Single_set_fileIndex. rewrite Hslice, Hfile, !app_nil_r.
    replace (index + 1) with (Z.of_nat (length done)) by lia.
    destruct s; reflexivity.
  - apply Forall_cons in Hrest as [Hm Hrest].
    pose proof (settled_step (static_files s) m rest Hstatic Hrest)
      as [Hstatic1 Hrest1].
    cbn [loadNextMessageFile_loop skip_files].
    unfold the_single, dialogs_set_single. rewrite Hprocess, Hsingle.
    cbn [mbind Result_bind]. rewrite ?Hprocess.
    cbn [static_files set_dialogsProcess].
    rewrite processFileLoad_settled by assumption.
    cbn [mbind Result_bind].
    unfold messages_store_file, Single_set_fileIndex, Single_set_slice.
    cbn [_dialogsProcess set_dialogsProcess DialogsProcess_single
         DialogsProcess_info DialogsProcess_offsetDate
         DialogsProcess_offsetId DialogsProcess_offsetPeer
         DialogsProcess_singleIndex Single_slice Single_info
         Single_offsetId Single_lastSlice Single_fileIndex static_files
         MessagesSlice_list MessagesSlice_peers].
    rewrite Hslice, Hfile.
    cbn [MessagesSlice_list MessagesSlice_peers].
    replace (Z.to_nat (index + 1)) with (length done + 0)%nat by lia.
    rewrite lookup_app_r by lia.
    replace (length done + 0 - length done)%nat with 0%nat by lia.
    cbn [lookup list_lookup].
    destruct (Message_set_file (static_files s) m
                (File_skipped (Message_file (static_files s) m)))
      as [static1 m1] eqn:Hset.
    cbn [fst] in Hstatic1, Hrest1.
    rewrite insert_app_r. cbn [insert list_insert].
    erewrite (IH (done ++ [m1]) _ _ peers (index + 1));
      [ | cbn [_dialogsProcess set_static_files set_dialogsProcess];
          reflexivity
        | reflexivity
        | cbn [Single_slice]; rewrite <- app_assoc; reflexivity
        | reflexivity
        | rewrite length_app; cbn [length]; lia
        | exact Hstatic1
        | exact Hrest1 ].
    cbn [static_files set_static_files set_dialogsProcess].
    destruct (skip_files static1 rest) as [static2 rest1].
    cbn [fst snd DialogsProcess_info DialogsProcess_offsetDate
         DialogsProcess_offsetId DialogsProcess_offsetPeer
         DialogsProcess_singleIndex Single_info Single_offsetId
         Single_lastSlice].
    rewrite <- !app_assoc. cbn [app]. rewrite !length_app.
    cbn [length]. reflexivity.
Qed.


Lemma last_skip_files (static : StaticFiles) (messages : list Message) :
  Message_id <$> last (snd (skip_files static messages)) =
  Message_id <$> last messages.
Proof.
  rewrite <- !fmap_last.
  change (Message_id <$> snd (skip_files static messages))
    with (map Message_id (snd (skip_files static messages))).
  rewrite skip_files_ids. reflexivity.
Qed.

Lemma skip_files_statics (messages : list Message) :
  forall (static : StaticFiles) (slot : Fileless),
    fst (skip_files static messages) slot = static slot \/
    fst (skip_files static messages) slot =
      File_set_skipReason (static slot) SkipReason.Unavailable.
Proof.
  induction messages as [|m rest IH]; intros static slot; [now left|].
  cbn [skip_files].
  assert (Hstep :
    fst (Message_set_file static m (File_skipped (Message_file static m)))
      slot = static slot \/
    fst (Message_set_file static m (File_skipped (Message_file static m)))
      slot = File_set_skipReason (static slot) SkipReason.Unavailable).
  { destruct (Message_file_cases m) as [[mine Hm]|[own Hm]].
    - destruct (Hm static) as [Hfile Hset]. rewrite Hset, Hfile.
      cbn [fst]. unfold StaticFiles_set.
      destruct (decide (slot = mine)) as [->|]; [|now left].
      unfold File_skipped.
      destruct (isEmpty (File_relativePath (static mine)));
        [now right | now left].
    - destruct (Hm static) as [_ Hset]. rewrite Hset. now left. }
  destruct (Message_set_file static m _) as [static1 m1].
  specialize (IH static1 slot).
  destruct (skip_files static1 rest) as [static2 rest1].
  cbn [fst] in *.
  destruct IH as [IH|IH], Hstep as [Hstep|Hstep]; rewrite IH, Hstep;
    auto.
Qed.

(** X25.  A page of messages whose files need no transfer is handed
    over at once, the messages in order and under their ids, and the
    next page is requested from the id after the last message of this
    one, reduced to 32 bits: with [messages.search] when only the own
    messages of the dialog are exported, with [messages.getHistory]
    otherwise.  A message without a file is settled through the static
    file of the alternative its media holds, so that after the page
    every static file is as before or marked as unavailable. *)
Theorem messages_page_without_transfers (slice : MessagesSlice)
    (s : State) (process : DialogsProcess) (single : Single)
    (settings : Settings) (takeout bit : Z) (back : Message) :
  _dialogsProcess s = Some process ->
  DialogsProcess_single process = Some single ->
  Single_slice single = None ->
  Single_lastSlice single = false ->
  _takeoutId s = Some takeout ->
  _settings s = Some settings ->
  dialog_type_bit (DialogInfo_type (Single_info single)) = Some bit ->
  last (MessagesSlice_list slice) = Some back ->
  (forall slot, settled (static_files s slot)) ->
  Forall (fun message => settled (Message_file (static_files s) message))
    (MessagesSlice_list slice) ->
  let skipped := skip_files (static_files s) (MessagesSlice_list slice) in
  let page := mkMessagesSlice (snd skipped) (MessagesSlice_peers slice) in
  let offset := to_int32 (Message_id back + 1) in
  let size := Z.of_nat (length (MessagesSlice_list slice)) in
  let peer := DialogInfo_input (Single_info single) in
  exists s',
    loadMessagesFiles slice s = Ok s' /\
    map Message_id (MessagesSlice_list page) =
      map Message_id (MessagesSlice_list slice) /\
    callbacks s' = callbacks s ++ [DialogsSliceOne page] /\
    sent s' =
      sent s ++
      [mkSent (Some takeout) 0 false
         (if bool_decide (Z.land (Settings_fullChats settings) bit <> bit)
          then MTPmessages_Search peer offset (- kMessagesSliceLimit)
                 kMessagesSliceLimit
          else MTPmessages_GetHistory peer offset (- kMessagesSliceLimit)
                 kMessagesSliceLimit)] /\
    _errors s' = _errors s /\
    static_files s' = fst skipped /\
    (forall slot,
       static_files s' slot = static_files s slot \/
       static_files s' slot =
         File_set_skipReason (static_files s slot) SkipReason.Unavailable) /\
    the_single s' =
      Ok (mkSingle (Single_info single) offset None false size).
Proof.
  intros Hprocess Hsingle Hslice Hlast Htakeout Hsettings Hbit Hback
    Hstatic Hfiles skipped page offset size peer.
  destruct slice as [messages peers].
  cbn [MessagesSlice_list MessagesSlice_peers] in *.
  assert (Hsome : is_empty messages = false).
  { destruct messages; [discriminate | reflexivity]. }
  unfold loadMessagesFiles, the_single.
  rewrite Hprocess, Hsingle. cbn [mbind Result_bind]. rewrite Hslice.
  rewrite bool_decide_eq_true_2 by reflexivity.
  cbn [Expects mbind Result_bind MessagesSlice_list]. rewrite Hsome.
  unfold dialogs_set_single. rewrite Hprocess.
  cbn [mbind Result_bind].
  unfold loadNextMessageFile, the_single.
  unfold Single_set_fileIndex, Single_set_slice.
  cbn [_dialogsProcess set_dialogsProcess DialogsProcess_single
       mbind Result_bind Single_slice Single_fileIndex MessagesSlice_list
       Single_info Single_offsetId Single_lastSlice].
  rewrite (bool_decide_eq_false_2 (-1 + 1 < 0)) by lia.
  change (Z.to_nat (-1 + 1)) with 0%nat. rewrite drop_0.
  erewrite (loadNextMessageFile_loop_settled messages [] _ _ peers (-1));
    [ | cbn [_dialogsProcess set_dialogsProcess]; reflexivity
      | reflexivity | reflexivity | reflexivity | reflexivity
      | exact Hstatic | exact Hfiles ].
  cbn [mbind Result_bind app static_files set_dialogsProcess].
  fold skipped.
  cbn [_dialogsProcess set_static_files set_dialogsProcess
       DialogsProcess_single mbind Result_bind Single_slice
       MessagesSlice_list].
  pose proof (last_skip_files (static_files s) messages) as Hid.
  fold skipped in Hid. rewrite Hback in Hid.
  destruct (last (snd skipped)) as [back'|] eqn:Hback'; [|discriminate].
  cbn [fmap option_fmap option_map] in Hid.
  injection Hid as Hid. rewrite Hid. fold offset.
  cbn [_dialogsProcess set_static_files set_dialogsProcess
       mbind Result_bind].
  unfold Single_set_offsetId, Single_set_slice.
  cbn [Single_lastSlice Single_info Single_offsetId Single_slice
       Single_fileIndex DialogsProcess_info DialogsProcess_offsetDate
       DialogsProcess_offsetId DialogsProcess_offsetPeer
       DialogsProcess_singleIndex].
  rewrite Hlast.
  unfold dialogs_set_single.
  cbn [_dialogsProcess set_static_files set_dialogsProcess
       mbind Result_bind].
  unfold requestMessagesSlice, onlyMyMessages, the_single.
  cbn [_dialogsProcess _settings call set_static_files set_dialogsProcess
       DialogsProcess_single mbind Result_bind Single_info].
  rewrite Hbit, Hsettings. cbn [mbind Result_bind].
  unfold mainRequest.
  cbn [_takeoutId call set_dialogsProcess set_static_files].
  rewrite Htakeout.
  destruct (bool_decide _);
    (eexists; split; [reflexivity|]; split; [apply skip_files_ids|]);
    cbn [callbacks sent _errors static_files the_single _dialogsProcess
         send call set_dialogsProcess set_static_files
         DialogsProcess_single];
    (repeat split; try reflexivity);
    intros slot; apply skip_files_statics.
Qed.

End Pages.

(* --------------------------------------------------------------------- *)
(** ** The further properties at work *)
(* --------------------------------------------------------------------- *)

Section FurtherExamples.
Local Open Scope Z_scope.
Local Existing Instances sample_externals sample_fs.

(** A photo of 900 bytes in data center 2, and the events up to the
    request of its only chunk. *)
Definition one_photo : MTPphotos_Photos :=
  MTP_photos_photos
    [MTP_photo 1 100 [MTP_photoSize (MTP_fileLocation 2 7 1 9) 10 10 900]].

Definition photo_requested : list Event :=
  [CallStartExport sample_settings; TakeoutAnswer 5; CallRequestUserpics;
   FirstUserpicsAnswer one_photo].

Definition photo_loaded : list Event :=
  photo_requested ++ [FilePartAnswer 0 (MTP_upload_file [Byte.x01; Byte.x02])].

(** Two dialogs as the sample parser passes them through. *)
Definition two_dialogs : list DialogInfo :=
  [mkDialogInfo DialogType.Personal "a" MTP_inputPeerEmpty 7 70 "";
   mkDialogInfo DialogType.PublicGroup "b" MTP_inputPeerEmpty 8 80 ""].

Definition dialogs_listed : list Event :=
  [CallStartExport sample_settings; TakeoutAnswer 5; CallRequestDialogs;
   DialogsAnswer (MTP_messages_dialogsSlice 2 two_dialogs [] [] [])].

(** A dialogs process with the given list and index and no dialog
    under way. *)
Definition dialogs_waiting (dialogs : list DialogInfo) (index : Z)
    : DialogsProcess :=
  mkDialogsProcess (mkDialogsInfo dialogs) 0 0 MTP_inputPeerEmpty None index.

(** A transfer that waits for its first chunk. *)
Definition sample_transfer : FileProcess :=
  mkFileProcess "/export/Photos/photo.jpg" "Photos/photo.jpg"
    (Some DoneUserpic) (mkFileLocation 2 (MTP_inputFileLocation 7 1 9))
    0 300000 [].

Lemma ComputeLocationKey_identifies_witness :
  ComputeLocationKey (mkFileLocation 2 (MTP_inputFileLocation 7 1 9)) =
  ComputeLocationKey (mkFileLocation 2 (MTP_inputFileLocation 7 1 10))
  <-> same_resource (mkFileLocation 2 (MTP_inputFileLocation 7 1 9))
                    (mkFileLocation 2 (MTP_inputFileLocation 7 1 10)).
Proof.
  apply ComputeLocationKey_identifies; simpl; lia.
Defined.

Lemma cache_never_exceeds_limit_witness :
  let c :=
    run_ops (mkLoadedFileCache 1 ∅ [])
      [OpSave (loc_doc 1) "a"; OpSave (loc_doc 1) "b";
       OpSave (loc_doc 2) "c"] in
  Z.of_nat (length (_list c)) <= 1 /\ Z.of_nat (size (_map c)) <= 1.
Proof.
  apply (cache_never_exceeds_limit 1); [unfold INT_MAX; lia | reflexivity].
Defined.

Lemma requests_need_the_takeout_witness :
  exists what, step CallRequestContacts ApiWrap_new = Fault what.
Proof.
  apply requests_need_the_takeout; [|reflexivity].
  unfold request_calls. do 2 apply list_elem_of_further.
  apply list_elem_of_here.
Defined.

Lemma every_request_is_well_formed_witness :
  exists s : State,
    run photo_requested ApiWrap_new = Ok s /\
    well_formed
      (mkSent (Some 5) 2 true
         (MTPupload_GetFile (MTP_inputFileLocation 7 1 9) 0 kFileChunkSize)).
Proof.
  eexists. split; [vm_compute; reflexivity|].
  eapply every_request_is_well_formed.
  - apply (run_reachable photo_requested ApiWrap_new);
      [apply reachable_new | vm_compute; reflexivity].
  - cbn [sent]. do 2 apply list_elem_of_further. apply list_elem_of_here.
Defined.

Lemma wrapper_cache_stays_bounded_witness :
  exists s : State,
    run photo_loaded ApiWrap_new = Ok s /\
    size (_map (_fileCache s)) = 1%nat /\
    _limit (_fileCache s) = kLocationCacheSize /\
    Z.of_nat (length (_list (_fileCache s))) <= kLocationCacheSize /\
    Z.of_nat (size (_map (_fileCache s))) <= kLocationCacheSize.
Proof.
  eexists. split; [vm_compute; reflexivity|]. split; [reflexivity|].
  apply wrapper_cache_stays_bounded.
  apply (run_reachable photo_loaded ApiWrap_new);
    [apply reachable_new | vm_compute; reflexivity].
Defined.

Lemma settings_are_set_once_witness :
  exists s' : State,
    run [CallRequestContacts; ContactsAnswer] (session_open 5) = Ok s' /\
    _settings s' = Some sample_settings /\
    startExport sample_settings s' = Fault "Expects(_settings == nullptr)".
Proof.
  eexists. split; [vm_compute; reflexivity|].
  apply (settings_are_set_once [CallRequestContacts; ContactsAnswer]
           (session_open 5)).
  - reflexivity.
  - vm_compute. reflexivity.
Defined.

Lemma only_selected_dialogs_are_exported_witness :
  exists (s : State) (process : DialogsProcess),
    run dialogs_listed ApiWrap_new = Ok s /\
    _dialogsProcess s = Some process /\
    DialogsInfo_list (DialogsProcess_info process) = two_dialogs /\
    forall info, info ∈ DialogsInfo_list (DialogsProcess_info process) ->
      exists settings,
        _settings s = Some settings /\ selected settings info.
Proof.
  eexists. eexists. split; [vm_compute; reflexivity|].
  split; [reflexivity|]. split; [reflexivity|].
  refine (proj1 (only_selected_dialogs_are_exported _ _ _ _)).
  - apply (run_reachable dialogs_listed ApiWrap_new);
      [apply reachable_new | vm_compute; reflexivity].
  - reflexivity.
Defined.

Lemma requestNextDialog_compares_with_11_witness :
  requestNextDialog
    (set_dialogsProcess (Some (dialogs_waiting two_dialogs 1))
       (session_open 5))
  = Fault "_dialogsProcess->info.list[index] out of range".
Proof.
  refine (proj1 (requestNextDialog_compares_with_11
                   (set_dialogsProcess (Some (dialogs_waiting two_dialogs 1))
                      (session_open 5))
                   (dialogs_waiting two_dialogs 1) eq_refl eq_refl _) _ _).
  - vm_compute. split; discriminate.
  - vm_compute. reflexivity.
  - vm_compute. discriminate.
Defined.

Lemma complete_dialogs_answer_is_dropped_witness :
  exists s : State,
    step CallRequestDialogs (session_open 5) = Ok s /\
    requestDialogsSlice_done (MTP_messages_dialogs two_dialogs [] [] []) s
    = Fault "_dialogsProcess->info.list[index] out of range".
Proof.
  eexists. split; [vm_compute; reflexivity|].
  eapply complete_dialogs_answer_is_dropped; reflexivity.
Defined.

Lemma inline_content_needs_an_active_transfer_witness :
  processFileLoad
    (mkFile 2 [Byte.x01; Byte.x02]
       (mkFileLocation 2 (MTP_inputFileLocation 7 1 9))
       "Photos/photo.jpg" SkipReason.None "")
    DoneUserpic None (session_open 5)
  = Fault "_fileProcess->file on a null _fileProcess".
Proof.
  apply inline_content_needs_an_active_transfer;
    [reflexivity | reflexivity | discriminate | discriminate
    | reflexivity | reflexivity].
Defined.

Lemma empty_userpics_page_finishes_witness :
  let s :=
    set_userpicsProcess (Some (mkUserpicsProcess None false (-1)))
      (session_open 5) in
  exists s',
    requestUserpics_done (MTP_photos_photosSlice 3 []) s = Ok s' /\
    callbacks s' =
      callbacks s ++
      [UserpicsStart (mkUserpicsInfo 3);
       UserpicsHandleSlice (mkUserpicsSlice []); UserpicsFinish] /\
    _userpicsProcess s' = None /\
    sent s' = sent s /\
    _errors s' = _errors s.
Proof.
  intros s.
  apply (empty_userpics_page_finishes (MTP_photos_photosSlice 3 []) s
           (mkUserpicsProcess None false (-1))); reflexivity.
Defined.

Lemma chunks_are_fetched_one_after_the_other_witness :
  let s :=
    set_fileProcess (Some (waiting_for sample_transfer 0)) (session_open 5) in
  exists s',
    deliver (in_order 0 [[Byte.x01]; [Byte.x02]]) s = Ok s' /\
    file_content "/export/Photos/photo.jpg" s' =
      file_content "/export/Photos/photo.jpg" s
      ++ concat [[Byte.x01]; [Byte.x02]] /\
    _fileProcess s' =
      Some (waiting_for sample_transfer (0 + Z.of_nat 2 * kFileChunkSize)) /\
    sent s' =
      sent s ++
      map (fun chunk : Z * QByteArray =>
             chunk_request 5 sample_transfer (chunk.1 + kFileChunkSize))
          (in_order 0 [[Byte.x01]; [Byte.x02]]) /\
    _errors s' = _errors s /\
    callbacks s' = callbacks s.
Proof.
  intros s.
  apply (chunks_are_fetched_one_after_the_other [[Byte.x01]; [Byte.x02]] s
           sample_transfer 5 0).
  - reflexivity.
  - reflexivity.
  - discriminate.
  - reflexivity.
  - repeat constructor; discriminate.
  - right. vm_compute. reflexivity.
  - lia.
  - vm_compute. discriminate.
Defined.

Lemma SerializeMultiline_drops_the_last_line_witness :
  let value := text_of [[Byte.x61]; [Byte.x62]] [Byte.x63] in
  indexOf value LF 0 = 1 /\
  SerializeMultiline Q_OS_LINUX [] value (indexOf value LF 0) =
  [] ++ quoted Q_OS_LINUX [[Byte.x61]; [Byte.x62]].
Proof.
  apply (SerializeMultiline_drops_the_last_line Q_OS_LINUX []
           [Byte.x61] [Byte.x63] [[Byte.x62]]).
  - repeat constructor; apply (bool_decide_unpack _); vm_compute; exact I.
  - apply (bool_decide_unpack _). vm_compute. exact I.
Defined.

(** Two photos without a location, and a wrapper that waits for a page
    of user photos. *)
Definition two_photos : UserpicsSlice :=
  mkUserpicsSlice [mkPhoto 1 100 Image_default; mkPhoto 2 200 Image_default].

Definition userpics_waiting : State :=
  set_userpicsProcess (Some (mkUserpicsProcess None false (-1)))
    (session_open 5).

Lemma userpics_page_without_transfers_witness :
  exists s' : State,
    loadUserpicsFiles two_photos userpics_waiting = Ok s' /\
    _errors s' = [] /\
    callbacks s' =
      [UserpicsHandleSlice
         (mkUserpicsSlice
            (map Photo_skipped (UserpicsSlice_list two_photos)))] /\
    sent s' =
      [mkSent (Some 5) 0 false
         (MTPphotos_GetUserPhotos 0 2 kUserpicsSliceLimit)] /\
    _userpicsProcess s' = Some (mkUserpicsProcess None false 2).
Proof.
  apply (userpics_page_without_transfers two_photos userpics_waiting
           (mkUserpicsProcess None false (-1)) 5
           (mkPhoto 2 200 Image_default));
    try reflexivity.
  repeat constructor; right; reflexivity.
Defined.

(** Two messages without a file, and a wrapper that waits for a page
    of the first of two dialogs. *)
Definition two_messages : MessagesSlice :=
  mkMessagesSlice
    [mkMessage 41 100 1 "a" (mkMedia ContentNone 0) ActionNone;
     mkMessage 42 200 1 "b" (mkMedia ContentNone 0) ActionNone]
    tt.

Definition first_dialog : Single :=
  mkSingle (mkDialogInfo DialogType.Personal "a" MTP_inputPeerEmpty 7 70 "")
    1 None false (-1).

Definition messages_waiting : State :=
  set_dialogsProcess
    (Some (mkDialogsProcess (mkDialogsInfo two_dialogs) 0 0
             MTP_inputPeerEmpty (Some first_dialog) 0))
    (session_open 5).

Lemma messages_page_without_transfers_witness :
  exists s' : State,
    loadMessagesFiles two_messages messages_waiting = Ok s' /\
    map Message_id (snd (skip_files StaticFiles_default
                           (MessagesSlice_list two_messages))) = [41; 42] /\
    callbacks s' =
      [DialogsSliceOne
         (mkMessagesSlice
            (snd (skip_files StaticFiles_default
                    (MessagesSlice_list two_messages)))
            tt)] /\
    sent s' =
      [mkSent (Some 5) 0 false
         (MTPmessages_GetHistory MTP_inputPeerEmpty 43
            (- kMessagesSliceLimit) kMessagesSliceLimit)] /\
    _errors s' = [] /\
    static_files s' =
      fst (skip_files StaticFiles_default
             (MessagesSlice_list two_messages)) /\
    (forall slot,
       static_files s' slot = StaticFiles_default slot \/
       static_files s' slot =
         File_set_skipReason (StaticFiles_default slot)
           SkipReason.Unavailable) /\
    the_single s' =
      Ok (mkSingle (Single_info first_dialog) 43 None false 2).
Proof.
  apply (messages_page_without_transfers two_messages messages_waiting
           (mkDialogsProcess (mkDialogsInfo two_dialogs) 0 0
              MTP_inputPeerEmpty (Some first_dialog) 0)
           first_dialog sample_settings 5 SettingsType.PersonalChats
           (mkMessage 42 200 1 "b" (mkMedia ContentNone 0) ActionNone));
    try reflexivity.
  - intros slot. right. reflexivity.
  - repeat constructor; right; reflexivity.
Defined.

End FurtherExamples.
